(** * youtubesummarizer: the transcript-acquisition pipeline

    A shallow embedding of [extractTranscript] (with its helpers
    [downloadAndCleanYtDlpTranscript], [safeDeleteFile], [downloadAudio],
    [ensureTranscriptsDirectory]) and of [generateSummary], followed by the
    properties of the specification.

    JavaScript strings are sequences of UTF-16 code units; they are modelled
    as [list N].  The external collaborators (the yt-dlp process, ytdl-core,
    the Deepgram and Gemini clients, the environment, the parts of the file
    system that can fail) are fields of a [World] record; the file system
    and the observable calls are an explicit state threaded through a small
    state-and-exception monad. *)

From Stdlib Require Import ZArith NArith QArith List Ascii String Lia.
From stdpp Require Import base option list gmap.

Set Default Proof Using "Type".
Local Open Scope N_scope.

(** ** JavaScript strings *)

Module JS.

Abbreviation jstring := (list N).

(** An ASCII literal as a list of code units. *)
Definition lit (s : string) : jstring :=
  List.map N_of_ascii (list_ascii_of_string s).

Definition str_eqb (a b : jstring) : bool := bool_decide (a = b).

(** ECMAScript [LineTerminator]: LF, CR, LS, PS. *)
Definition isLineTerminator (c : N) : bool :=
  (c =? 10) || (c =? 13) || (c =? 8232) || (c =? 8233).

(** ECMAScript [WhiteSpace] (TAB, VT, FF, ZWNBSP and the category Zs)
    together with [LineTerminator]: what [String.prototype.trim] strips. *)
Definition isWhiteSpace (c : N) : bool :=
  (c =? 9) || (c =? 11) || (c =? 12) || (c =? 32) || (c =? 160)
  || (c =? 5760) || ((8192 <=? c) && (c <=? 8202))
  || (c =? 8239) || (c =? 8287) || (c =? 12288) || (c =? 65279)
  || isLineTerminator c.

(** [\d] without the unicode flag. *)
Definition isDigit (c : N) : bool := (48 <=? c) && (c <=? 57).

Fixpoint trimStart (s : jstring) : jstring :=
  match s with
  | [] => []
  | c :: r => if isWhiteSpace c then trimStart r else s
  end.

Definition trimEnd (s : jstring) : jstring := rev (trimStart (rev s)).

(** [s.trim()] *)
Definition trim (s : jstring) : jstring := trimEnd (trimStart s).

(** [s.startsWith(p)] *)
Fixpoint startsWith (p s : jstring) : bool :=
  match p, s with
  | [], _ => true
  | _ :: _, [] => false
  | a :: p', b :: s' => (a =? b) && startsWith p' s'
  end.

(** [s.includes(p)] *)
Fixpoint includes (p s : jstring) : bool :=
  startsWith p s ||
  match s with
  | [] => false
  | _ :: r => includes p r
  end.

(** [/^\d+$/.test(s)] *)
Definition allDigits (s : jstring) : bool :=
  match s with
  | [] => false
  | _ => forallb isDigit s
  end.

(** [s.split(/\r?\n/)].  [cur] is the piece being read, reversed.  A CR
    immediately before a LF belongs to the separator. *)
Definition dropCR (cur : jstring) : jstring :=
  match cur with
  | 13 :: r => r
  | _ => cur
  end.

Fixpoint splitLinesAux (cur : jstring) (s : jstring) : list jstring :=
  match s with
  | [] => [rev cur]
  | c :: r =>
      if c =? 10 then rev (dropCR cur) :: splitLinesAux [] r
      else splitLinesAux (c :: cur) r
  end.

Definition splitLines (s : jstring) : list jstring := splitLinesAux [] s.

(** [s.replace(/<[^>]*>/g, '')].  At a ['<'] the pattern matches exactly
    when some ['>'] follows, and then it extends to the first one (the
    class [[^>]] accepts every other code unit, line terminators
    included).  [inTag] says that a match is being consumed. *)
Definition hasGt (s : jstring) : bool := existsb (fun c => c =? 62) s.

Fixpoint stripTagsAux (inTag : bool) (s : jstring) : jstring :=
  match s with
  | [] => []
  | c :: r =>
      if inTag then
        if c =? 62 then stripTagsAux false r else stripTagsAux true r
      else if (c =? 60) && hasGt r then stripTagsAux true r
      else c :: stripTagsAux false r
  end.

Definition stripTags (s : jstring) : jstring := stripTagsAux false s.

(** [s.replace(/\[.*?\]/g, '')].  At a ['['] the lazy pattern matches
    exactly when a [']'] follows before any line terminator (the dot does
    not match one), and then it extends to the first [']']. *)
Fixpoint closes (s : jstring) : bool :=
  match s with
  | [] => false
  | c :: r =>
      if c =? 93 then true
      else if isLineTerminator c then false
      else closes r
  end.

Fixpoint stripBracketsAux (inBr : bool) (s : jstring) : jstring :=
  match s with
  | [] => []
  | c :: r =>
      if inBr then
        if c =? 93 then stripBracketsAux false r else stripBracketsAux true r
      else if (c =? 91) && closes r then stripBracketsAux true r
      else c :: stripBracketsAux false r
  end.

Definition stripBrackets (s : jstring) : jstring := stripBracketsAux false s.

(** Whether [s] still holds a match of [/<[^>]*>/], resp. of
    [/\[.*?\]/]: a ['<'] with a ['>'] after it, resp. a ['['] closed
    before the end of its line. *)
Fixpoint hasTag (s : jstring) : bool :=
  match s with
  | [] => false
  | c :: r => ((c =? 60) && hasGt r) || hasTag r
  end.

Fixpoint hasAnnotation (s : jstring) : bool :=
  match s with
  | [] => false
  | c :: r => ((c =? 91) && closes r) || hasAnnotation r
  end.

(** [arr.join(sep)] *)
Fixpoint join (sep : jstring) (l : list jstring) : jstring :=
  match l with
  | [] => []
  | [x] => x
  | x :: r => x ++ sep ++ join sep r
  end.

(** [[...new Set(arr)]]: a Set keeps insertion order and ignores the
    insertion of a value it already holds. *)
Definition setAdd (acc : list jstring) (x : jstring) : list jstring :=
  if existsb (str_eqb x) acc then acc else acc ++ [x].

Definition newSet (l : list jstring) : list jstring := fold_left setAdd l [].

End JS.
Export JS.

(** ** Caption cleaning: the pure part of [downloadAndCleanYtDlpTranscript] *)

Module Vtt.

Definition isEmpty (s : jstring) : bool :=
  match s with [] => true | _ => false end.

(** The condition of the [continue] in the loop over the lines. *)
Definition isSkipped (trimmedLine : jstring) : bool :=
  isEmpty trimmedLine
  || startsWith (lit "WEBVTT") trimmedLine
  || startsWith (lit "Kind:") trimmedLine
  || startsWith (lit "Language:") trimmedLine
  || includes (lit "-->") trimmedLine
  || allDigits trimmedLine.

(** [trimmedLine.replace(/<[^>]*>/g, '').replace(/\[.*?\]/g, '').trim()] *)
Definition cleanLine (trimmedLine : jstring) : jstring :=
  trim (stripBrackets (stripTags trimmedLine)).

(** The loop [for (const line of lines)], pushing onto [textLines]. *)
Fixpoint textLines (lines : list jstring) : list jstring :=
  match lines with
  | [] => []
  | line :: rest =>
      let trimmedLine := trim line in
      if isSkipped trimmedLine then textLines rest
      else
        let c := cleanLine trimmedLine in
        if isEmpty c then textLines rest else c :: textLines rest
  end.

(** [fullParagraph], from the content of the subtitle file. *)
Definition fullParagraph (vttContent : jstring) : jstring :=
  join (lit " ") (newSet (textLines (splitLines vttContent))).

(** What the function returns once the file has been read:
    the paragraph, or [null] when it is empty. *)
Definition cleaned (vttContent : jstring) : option jstring :=
  let p := fullParagraph vttContent in
  if (0 <? length p)%nat then Some p else None.

(** Kinds of line that carry no caption text, decided on the trimmed
    line.  A markup line is made of tags [<...>] and white space; an
    annotation line is made of bracketed annotations [[...]] (holding no
    line terminator) and white space. *)
Fixpoint markupOnlyAux (inTag : bool) (s : jstring) : bool :=
  match s with
  | [] => negb inTag
  | c :: r =>
      if inTag then markupOnlyAux (negb (c =? 62)) r
      else if c =? 60 then markupOnlyAux true r
      else isWhiteSpace c && markupOnlyAux false r
  end.

Definition isMarkupLine (t : jstring) : bool := markupOnlyAux false t.

Fixpoint annotationOnlyAux (inBr : bool) (s : jstring) : bool :=
  match s with
  | [] => negb inBr
  | c :: r =>
      if inBr then
        if c =? 93 then annotationOnlyAux false r
        else negb (isLineTerminator c) && annotationOnlyAux true r
      else if c =? 91 then annotationOnlyAux true r
      else isWhiteSpace c && annotationOnlyAux false r
  end.

Definition isAnnotationLine (t : jstring) : bool := annotationOnlyAux false t.

(** A line that mixes tags and annotations, no annotation holding a
    ['<']. *)
Inductive Scan := Outside | InTag | InBracket.

Fixpoint tagsAndAnnotationsAux (q : Scan) (s : jstring) : bool :=
  match s with
  | [] => match q with Outside => true | _ => false end
  | c :: r =>
      match q with
      | Outside =>
          if c =? 60 then tagsAndAnnotationsAux InTag r
          else if c =? 91 then tagsAndAnnotationsAux InBracket r
          else isWhiteSpace c && tagsAndAnnotationsAux Outside r
      | InTag =>
          if c =? 62 then tagsAndAnnotationsAux Outside r
          else tagsAndAnnotationsAux InTag r
      | InBracket =>
          if c =? 93 then tagsAndAnnotationsAux Outside r
          else negb (isLineTerminator c) && negb (c =? 60)
               && tagsAndAnnotationsAux InBracket r
      end
  end.

Definition isTagsAndAnnotationsLine (t : jstring) : bool :=
  tagsAndAnnotationsAux Outside t.

Definition isHeaderLine (t : jstring) : bool :=
  startsWith (lit "WEBVTT") t || startsWith (lit "Kind:") t
  || startsWith (lit "Language:") t.

Definition isTimingLine (t : jstring) : bool := includes (lit "-->") t.

Definition isIndexLine (t : jstring) : bool := allDigits t.

Definition isNonTextLine (line : jstring) : bool :=
  let t := trim line in
  isEmpty t || isHeaderLine t || isTimingLine t || isIndexLine t
  || isMarkupLine t || isAnnotationLine t || isTagsAndAnnotationsLine t.

Definition onlyNonTextLines (vttContent : jstring) : bool :=
  forallb isNonTextLine (splitLines vttContent).

End Vtt.

(** ** Values exchanged with the collaborators *)

(** A thrown value: an [Error] with its message, the [stderr] that
    [child_process.exec] attaches to a rejection, and whether it is an
    [instanceof Error]. *)
Record JsError := mkJsError {
  err_message : jstring;
  err_stderr : option jstring;
  err_instanceofError : bool
}.

(** [new Error(msg)] *)
Definition newError (msg : jstring) : JsError := mkJsError msg None true.

Record Format := {
  itag : N;
  hasVideo : bool;
  hasAudio : bool
}.

Record VideoDetails := {
  vd_title : jstring;
  vd_author_name : jstring;
  vd_lengthSeconds : jstring
}.

Record VideoInfo := {
  videoDetails : VideoDetails;
  formats : list Format
}.

(** The [speaker] field of an utterance, as a JavaScript value. *)
Inductive SpeakerTag :=
| SpUndefined
| SpNull
| SpNumber (n : N)
| SpString (s : jstring).

Record Utterance := { speaker : SpeakerTag }.

Record Alternative := {
  alt_transcript : option jstring;
  alt_confidence : option Q
}.

Record Channel := { alternatives : option (list Alternative) }.

Record DgResults := {
  channels : option (list Channel);
  utterances : option (list Utterance)
}.

Record DgResult := { results : option DgResults }.

(** What [transcribeFile] resolves to: [{ result, error }]. *)
Record DgResponse := {
  dg_result : option DgResult;
  dg_error : option JsError
}.

Inductive Method := Deepgram | YoutubeCaptionsYdlp.

Record Metadata := {
  md_title : jstring;
  md_author : jstring;
  md_duration : option Z          (* [None] is NaN *)
}.

Record TranscriptResult := {
  transcript : option jstring;
  speakers : option (list jstring);
  method : Method;
  confidence : option Q;
  metadata : option Metadata
}.

(** What the environment does to the two streams of [downloadAudio] before
    the five-minute timer elapses, in order of occurrence. *)
Inductive StreamEvent :=
| EvOpen                          (* the write stream has created the file *)
| EvData (chunk : list N)         (* a chunk piped into the write stream *)
| EvEnd                           (* ['end'] on the download stream *)
| EvDownloadError (e : JsError)   (* ['error'] on the download stream *)
| EvAudioError (e : JsError).     (* ['error'] on the write stream *)

Record DownloadPlan := {
  setup_throws : option JsError;  (* a synchronous throw in the executor *)
  before_timeout : list StreamEvent
}.

(** What running the yt-dlp command does: whether the promise of [exec]
    rejects, and the subtitle track it leaves at [<base>.en.vtt], if any. *)
Record ExecResult := {
  exec_rejects : option JsError;
  exec_subtitle : option jstring
}.

(** ** The world outside the program *)

Record World := {
  env_DEEPGRAM_API_KEY : option jstring;
  env_GEMINI_API_KEY : option jstring;
  cwd : jstring;
  path_join : jstring -> jstring -> jstring;
  exec : jstring -> ExecResult;
  ytdl_getInfo : jstring -> JsError + VideoInfo;
  ytdl_chooseFormat : list Format -> JsError + option Format;
  ytdl_download : jstring -> DownloadPlan;
  transcribeFile : list N -> JsError + DgResponse;
  mkdirSync_throws : jstring -> option JsError;
  unlinkSync_throws : jstring -> option JsError;
  generateContent : jstring -> JsError + jstring
}.

(** ** Observable behaviour *)

Inductive Console :=
| LogStartingYtDlp
| LogDownloadCommandFinished
| LogReadingAndCleaning (p : jstring)
| LogCaptionsExtracted
| LogCaptionsEmpty
| ErrYtDlpMethod (e : JsError)
| ErrTipInstallYtDlp
| LogCleanedUp (p : jstring)
| WarnCouldNotDelete (p : jstring) (e : JsError)
| LogAudioDownloadComplete
| ErrDownloadStream (e : JsError)
| ErrAudioStream (e : JsError)
| WarnNoMetadata (e : JsError)
| LogFallingBack
| LogFetchingMetadata
| LogDownloadingAudio
| LogTranscribing
| LogDeepgramSuccess
| ErrExtractTranscript (e : JsError)
| ErrTipYoutubeChanges
| ErrTipRateLimit
| ErrGeminiKeyMissing
| ErrGeminiFailed (e : JsError).

Inductive Event :=
| EConsole (c : Console)
| EExec (command : jstring)
| EReadFile (p : jstring)
| EGetInfo (url : jstring)
| EChooseFormat
| ECreateClient (key : jstring)
| EMkdir (p : jstring)
| EOpenStreams (url p : jstring)
| ESetTimeout (ms : N)
| EDestroyDownloadStream
| EDestroyAudioStream
| EClearTimeout
| EReadFileSync (p : jstring)
| ETranscribeFile (buffer : list N)
| EUnlink (p : jstring)
| EGenerateContent (prompt : jstring).

Record State := mkState {
  files : gmap (list N) (list N);
  dirs : gset (list N);
  trace : list Event              (* oldest first *)
}.

(** ** The monad: state and exceptions *)

Inductive Outcome (A : Type) :=
| Returned (a : A)
| Thrown (e : JsError).
Arguments Returned {A} a.
Arguments Thrown {A} e.

Definition M (A : Type) : Type := State -> Outcome A * State.

Definition ret {A} (a : A) : M A := fun st => (Returned a, st).

Definition throw {A} (e : JsError) : M A := fun st => (Thrown e, st).

Definition bind {A B} (m : M A) (k : A -> M B) : M B :=
  fun st =>
    match m st with
    | (Returned a, st') => k a st'
    | (Thrown e, st') => (Thrown e, st')
    end.

(** [try { m } catch (e) { h e }] *)
Definition tryCatch {A} (m : M A) (h : JsError -> M A) : M A :=
  fun st =>
    match m st with
    | (Returned a, st') => (Returned a, st')
    | (Thrown e, st') => h e st'
    end.

(** [try { m } finally { f }] *)
Definition tryFinally {A} (m : M A) (f : M unit) : M A :=
  fun st =>
    let '(o, st') := m st in
    match f st' with
    | (Returned _, st'') => (o, st'')
    | (Thrown e, st'') => (Thrown e, st'')
    end.

Definition emit (e : Event) : M unit :=
  fun st => (Returned tt, mkState (files st) (dirs st) (trace st ++ [e])).

Definition console (c : Console) : M unit := emit (EConsole c).

(** Reading and updating the file system. *)
Definition lookupFile (p : jstring) : M (option (list N)) :=
  fun st => (Returned (files st !! p), st).

Definition modifyFiles (f : gmap (list N) (list N) -> gmap (list N) (list N))
  : M unit :=
  fun st => (Returned tt, mkState (f (files st)) (dirs st) (trace st)).

Definition hasDir (p : jstring) : M bool :=
  fun st => (Returned (bool_decide (p ∈ dirs st)), st).

Definition addDir (p : jstring) : M unit :=
  fun st => (Returned tt, mkState (files st) ({[p]} ∪ dirs st) (trace st)).

(** The result of an oracle that either throws or answers. *)
Definition liftSum {A} (r : JsError + A) : M A :=
  match r with
  | inl e => throw e
  | inr a => ret a
  end.

Declare Scope monad_scope.
Delimit Scope monad_scope with monad.
Notation "'let*' x ':=' m 'in' k" := (bind m (fun x => k))
  (at level 10, x name, m at level 100, k at level 200) : monad_scope.
Notation "m ;; k" := (bind m (fun _ => k))
  (at level 100, k at level 200, right associativity) : monad_scope.
Local Open Scope monad_scope.

(** ** Small JavaScript helpers used by the pipeline *)

(** Truthiness of a [string | null | undefined]. *)
Definition truthy (s : option jstring) : bool :=
  match s with
  | Some (_ :: _) => true
  | _ => false
  end.

(** [String(n)] for a non-negative integer. *)
Fixpoint uintCodes (d : Decimal.uint) : jstring :=
  match d with
  | Decimal.Nil => []
  | Decimal.D0 r => 48 :: uintCodes r
  | Decimal.D1 r => 49 :: uintCodes r
  | Decimal.D2 r => 50 :: uintCodes r
  | Decimal.D3 r => 51 :: uintCodes r
  | Decimal.D4 r => 52 :: uintCodes r
  | Decimal.D5 r => 53 :: uintCodes r
  | Decimal.D6 r => 54 :: uintCodes r
  | Decimal.D7 r => 55 :: uintCodes r
  | Decimal.D8 r => 56 :: uintCodes r
  | Decimal.D9 r => 57 :: uintCodes r
  end.

Definition decimal (n : N) : jstring := uintCodes (N.to_uint n).

(** [parseInt(s, 10)]: leading white space, an optional sign, then the
    longest run of digits; NaN ([None]) when there is no digit. *)
Fixpoint digitsValue (acc : Z) (s : jstring) : Z :=
  match s with
  | [] => acc
  | c :: r =>
      if isDigit c then digitsValue (10 * acc + (Z.of_N c - 48)) r else acc
  end.

Definition parseInt10 (s : jstring) : option Z :=
  let t := trimStart s in
  let '(neg, u) :=
    match t with
    | 45 :: r => (true, r)
    | 43 :: r => (false, r)
    | _ => (false, t)
    end in
  match u with
  | c :: _ =>
      if isDigit c then
        let v := digitsValue 0 u in Some (if neg then (- v)%Z else v)
      else None
  | [] => None
  end.

(** [String(utterance.speaker)] *)
Definition speakerString (t : SpeakerTag) : jstring :=
  match t with
  | SpUndefined => lit "undefined"
  | SpNull => lit "null"
  | SpNumber n => decimal n
  | SpString s => s
  end.

Definition notSentinel (speaker : jstring) : bool :=
  negb (str_eqb speaker (lit "undefined")) && negb (str_eqb speaker (lit "null")).

(** [utterances.map(u => String(u.speaker)).filter(...)] *)
Definition speakerLabels (us : list Utterance) : list jstring :=
  List.filter notSentinel (List.map (fun u => speakerString (speaker u)) us).

(** [speakers && speakers.length > 0 ? [...new Set(speakers)] : undefined] *)
Definition uniqueSpeakers (speakers : option (list jstring)) : option (list jstring) :=
  match speakers with
  | Some ((_ :: _) as l) => Some (newSet l)
  | _ => None
  end.

(** [result?.results?.channels?.[0]?.alternatives?.[0]] *)
Definition firstAlternative (result : option DgResult) : option Alternative :=
  match result with
  | None => None
  | Some r =>
      match results r with
      | None => None
      | Some rs =>
          match channels rs with
          | Some (ch :: _) =>
              match alternatives ch with
              | Some (a :: _) => Some a
              | _ => None
              end
          | _ => None
          end
      end
  end.

(** [result?.results?.utterances] *)
Definition resultUtterances (result : option DgResult) : option (list Utterance) :=
  match result with
  | None => None
  | Some r =>
      match results r with
      | None => None
      | Some rs => utterances rs
      end
  end.

Definition metadataOf (videoInfo : VideoInfo) : Metadata :=
  {| md_title := vd_title (videoDetails videoInfo);
     md_author := vd_author_name (videoDetails videoInfo);
     md_duration := parseInt10 (vd_lengthSeconds (videoDetails videoInfo)) |}.

Definition enoent (p : jstring) : JsError :=
  newError (lit "ENOENT: no such file or directory, open '" ++ p ++ lit "'").

Definition quote : jstring := [34].

(** ** The program *)

Section Program.

Variable w : World.

(** [fs.existsSync(p)] for a file. *)
Definition existsSync (p : jstring) : M bool :=
  let* c := lookupFile p in
  ret (bool_decide (is_Some c)).

(** [fs.unlinkSync(p)] *)
Definition unlinkSync (p : jstring) : M unit :=
  emit (EUnlink p);;
  match unlinkSync_throws w p with
  | Some e => throw e
  | None => modifyFiles (delete p)
  end.

(** [fs.mkdirSync(p, { recursive: true })] *)
Definition mkdirSync (p : jstring) : M unit :=
  emit (EMkdir p);;
  match mkdirSync_throws w p with
  | Some e => throw e
  | None => addDir p
  end.

Definition safeDeleteFile (filePath : jstring) : M unit :=
  tryCatch
    (let* found := existsSync filePath in
     if found then
       unlinkSync filePath;;
       console (LogCleanedUp filePath)
     else ret tt)
    (fun error => console (WarnCouldNotDelete filePath error)).

Definition transcriptsDir : jstring :=
  path_join w (cwd w) (lit "transcripts").

Definition ensureTranscriptsDirectory : M unit :=
  let* found := hasDir transcriptsDir in
  if found then ret tt else mkdirSync transcriptsDir.

(** [await execPromise(command)]: the process may leave the subtitle
    track on disk whether or not it exits successfully. *)
Definition execPromise (command subtitlePath : jstring) : M unit :=
  emit (EExec command);;
  let r := exec w command in
  match exec_subtitle r with
  | Some c => modifyFiles (insert subtitlePath c)
  | None => ret tt
  end;;
  match exec_rejects r with
  | Some e => throw e
  | None => ret tt
  end.

(** [await fsPromises.readFile(p, 'utf-8')] *)
Definition readFile (p : jstring) : M jstring :=
  emit (EReadFile p);;
  let* found := lookupFile p in
  match found with
  | Some c => ret c
  | None => throw (enoent p)
  end.

(** [fs.readFileSync(p)] *)
Definition readFileSync (p : jstring) : M (list N) :=
  emit (EReadFileSync p);;
  let* found := lookupFile p in
  match found with
  | Some c => ret c
  | None => throw (enoent p)
  end.

(** The constants of [downloadAndCleanYtDlpTranscript]. *)
Definition tempVttBaseName (videoId : jstring) : jstring :=
  path_join w (lit "transcripts") videoId.

Definition tempVttFile (videoId : jstring) : jstring :=
  tempVttBaseName videoId ++ lit ".en.vtt".

Definition ytDlpCommand (youtubeUrl videoId : jstring) : jstring :=
  lit "yt-dlp --write-auto-sub --sub-lang en --skip-download -o "
  ++ quote ++ tempVttBaseName videoId ++ lit ".%(ext)s" ++ quote
  ++ lit " " ++ quote ++ youtubeUrl ++ quote.

(** The [try] block: run the command, read the file, clean it. *)
Definition captionAttempt (youtubeUrl videoId : jstring) : M (option jstring) :=
  console LogStartingYtDlp;;
  execPromise (ytDlpCommand youtubeUrl videoId) (tempVttFile videoId);;
  console LogDownloadCommandFinished;;
  console (LogReadingAndCleaning (tempVttFile videoId));;
  let* vttContent := readFile (tempVttFile videoId) in
  let fullParagraph := Vtt.fullParagraph vttContent in
  if (0 <? length fullParagraph)%nat then
    console LogCaptionsExtracted;;
    ret (Some fullParagraph)
  else
    console LogCaptionsEmpty;;
    ret None.

(** The [catch] block. *)
Definition captionRecover (error : JsError) : M (option jstring) :=
  console (ErrYtDlpMethod error);;
  match err_stderr error with
  | Some s =>
      if includes (lit "command not found") s
      then console ErrTipInstallYtDlp else ret tt
  | None => ret tt
  end;;
  ret None.

Definition downloadAndCleanYtDlpTranscript (youtubeUrl videoId : jstring)
  : M (option jstring) :=
  tryFinally
    (tryCatch (captionAttempt youtubeUrl videoId) captionRecover)
    (safeDeleteFile (tempVttFile videoId)).

(** The listeners of [downloadAudio], run on the events that precede the
    timer.  The first [resolve] or [reject] settles the promise and the
    caller resumes; when no event settles it, the timer callback runs. *)
Fixpoint runStreams (audioFilePath : jstring) (evs : list StreamEvent) : M unit :=
  match evs with
  | [] =>
      emit EDestroyDownloadStream;;
      emit EDestroyAudioStream;;
      throw (newError (lit "Download timeout after 5 minutes"))
  | EvOpen :: rest =>
      modifyFiles (insert audioFilePath []);;
      runStreams audioFilePath rest
  | EvData chunk :: rest =>
      modifyFiles (alter (fun c => c ++ chunk) audioFilePath);;
      runStreams audioFilePath rest
  | EvEnd :: _ =>
      console LogAudioDownloadComplete;;
      emit EClearTimeout;;
      ret tt
  | EvDownloadError err :: _ =>
      console (ErrDownloadStream err);;
      throw err
  | EvAudioError err :: _ =>
      console (ErrAudioStream err);;
      throw err
  end.

Definition downloadAudio (youtubeUrl audioFilePath : jstring) : M unit :=
  let plan := ytdl_download w youtubeUrl in
  match setup_throws plan with
  | Some error => throw error
  | None =>
      emit (EOpenStreams youtubeUrl audioFilePath);;
      emit (ESetTimeout (5 * 60 * 1000));;
      runStreams audioFilePath (before_timeout plan)
  end.

(** The value returned from the [catch] of the audio path. *)
Definition failureResult : TranscriptResult :=
  {| transcript := None;
     speakers := None;
     method := Deepgram;
     confidence := None;
     metadata := None |}.

(** The [try] block of METHOD 2. *)
Definition deepgramAttempt (youtubeUrl audioFilePath : jstring)
  : M TranscriptResult :=
  console LogFetchingMetadata;;
  emit (EGetInfo youtubeUrl);;
  let* videoInfo := liftSum (ytdl_getInfo w youtubeUrl) in
  let metadata := metadataOf videoInfo in
  emit EChooseFormat;;
  let* audioFormat := liftSum (ytdl_chooseFormat w (formats videoInfo)) in
  match audioFormat with
  | None => throw (newError (lit "No suitable audio format found for the video."))
  | Some _ =>
      console LogDownloadingAudio;;
      downloadAudio youtubeUrl audioFilePath;;
      console LogTranscribing;;
      let* audioFileBuffer := readFileSync audioFilePath in
      emit (ETranscribeFile audioFileBuffer);;
      let* response := liftSum (transcribeFile w audioFileBuffer) in
      match dg_error response with
      | Some error =>
          throw (newError (lit "Deepgram API error: " ++ err_message error))
      | None =>
          let alt := firstAlternative (dg_result response) in
          let transcript :=
            match alt with Some a => alt_transcript a | None => None end in
          let confidence :=
            match alt with Some a => alt_confidence a | None => None end in
          let speakers :=
            match resultUtterances (dg_result response) with
            | Some us => Some (speakerLabels us)
            | None => None
            end in
          safeDeleteFile audioFilePath;;
          console LogDeepgramSuccess;;
          ret {| transcript := transcript;
                 speakers := uniqueSpeakers speakers;
                 method := Deepgram;
                 confidence := confidence;
                 metadata := Some metadata |}
      end
  end.

(** The [catch] block of METHOD 2: its console output, then the
    clean-up and the [return]. *)
Definition recoverLogs (error : JsError) : M unit :=
  console (ErrExtractTranscript error);;
  if err_instanceofError error then
    (if includes (lit "Could not extract functions") (err_message error)
        || includes (lit "Video unavailable") (err_message error)
     then console ErrTipYoutubeChanges else ret tt);;
    (if includes (lit "403") (err_message error)
        || includes (lit "429") (err_message error)
     then console ErrTipRateLimit else ret tt)
  else ret tt.

Definition deepgramRecover (audioFilePath : jstring) (error : JsError)
  : M TranscriptResult :=
  recoverLogs error;;
  safeDeleteFile audioFilePath;;
  ret failureResult.

Definition audioFilePath (videoId : jstring) : jstring :=
  path_join w (lit "transcripts") (videoId ++ lit ".mp4").

(** METHOD 2, from the message about falling back. *)
Definition deepgramFallback (youtubeUrl videoId : jstring) : M TranscriptResult :=
  console LogFallingBack;;
  let deepgramApiKey := env_DEEPGRAM_API_KEY w in
  if truthy deepgramApiKey then
    emit (ECreateClient (default [] deepgramApiKey));;
    ensureTranscriptsDirectory;;
    tryCatch (deepgramAttempt youtubeUrl (audioFilePath videoId))
             (deepgramRecover (audioFilePath videoId))
  else
    throw (newError (lit "DEEPGRAM_API_KEY is not set in environment variables.")).

(** The return of METHOD 1, with the best-effort metadata. *)
Definition captionsResult (youtubeUrl : jstring) (ytDlpTranscript : option jstring)
  : M TranscriptResult :=
  let* metadata :=
    tryCatch
      (emit (EGetInfo youtubeUrl);;
       let* videoInfo := liftSum (ytdl_getInfo w youtubeUrl) in
       ret (Some (metadataOf videoInfo)))
      (fun err => console (WarnNoMetadata err);; ret None) in
  ret {| transcript := ytDlpTranscript;
         speakers := None;
         method := YoutubeCaptionsYdlp;
         confidence := None;
         metadata := metadata |}.

Definition extractTranscript (youtubeUrl videoId : jstring) : M TranscriptResult :=
  if Vtt.isEmpty youtubeUrl || Vtt.isEmpty videoId then
    throw (newError (lit "Both youtubeUrl and videoId are required parameters."))
  else
    let* ytDlpTranscript := downloadAndCleanYtDlpTranscript youtubeUrl videoId in
    if truthy ytDlpTranscript then captionsResult youtubeUrl ytDlpTranscript
    else deepgramFallback youtubeUrl videoId.

(** *** [generateSummary] (summarize.ts) *)

Definition summaryPrompt (transcript title author : jstring) : jstring :=
  lit "You are a helpful assistant for summarizing YouTube video transcripts. Please provide a concise summary of the following video transcript. The video is titled "
  ++ quote ++ title ++ quote ++ lit " by " ++ quote ++ author ++ quote ++ lit "."
  ++ [10; 10]
  ++ lit "  **Instructions for the summary:**" ++ [10]
  ++ lit "  - Start with a single sentence that captures the main idea." ++ [10]
  ++ lit "  - Follow with a bulleted list of 5-7 key takeaways or main points." ++ [10]
  ++ lit "  - Do not include any introductory or concluding remarks (e.g., "
  ++ quote ++ lit "Here is a summary..." ++ quote ++ lit ")." ++ [10; 10]
  ++ lit "  **Video Transcript:**" ++ [10]
  ++ lit "  " ++ transcript ++ [10] ++ lit "  ".

Definition generateSummary (transcript title author : jstring) : M (option jstring) :=
  let geminiApiKey := env_GEMINI_API_KEY w in
  if truthy geminiApiKey then
    let prompt := summaryPrompt transcript title author in
    tryCatch
      (emit (EGenerateContent prompt);;
       let* summary := liftSum (generateContent w prompt) in
       ret (Some summary))
      (fun error => console (ErrGeminiFailed error);; ret None)
  else
    console ErrGeminiKeyMissing;;
    ret None.

End Program.

(** ** Vocabulary of the properties *)

(** Calls that belong to METHOD 2 only: the Deepgram client, the audio
    streams, the directory, the choice of a format. *)
Definition isAudioTranscriptionEvent (e : Event) : bool :=
  match e with
  | ECreateClient _ | ETranscribeFile _ | EOpenStreams _ _ | EReadFileSync _
  | EChooseFormat | EMkdir _ | ESetTimeout _
  | EDestroyDownloadStream | EDestroyAudioStream | EClearTimeout => true
  | _ => false
  end.

(** Calls to the speech-to-text service or its client. *)
Definition isSpeechToTextEvent (e : Event) : bool :=
  match e with
  | ECreateClient _ | ETranscribeFile _ => true
  | _ => false
  end.

(** The request sent to the speech-to-text service. *)
Definition isTranscribeRequest (e : Event) : bool :=
  match e with
  | ETranscribeFile _ => true
  | _ => false
  end.

Definition isGetInfo (e : Event) : bool :=
  match e with
  | EGetInfo _ => true
  | _ => false
  end.

(** What METHOD 1 may do before it returns its paragraph: console output,
    the yt-dlp command, reading and unlinking the subtitle file. *)
Definition isCaptionStageEvent (e : Event) : bool :=
  match e with
  | EConsole _ | EExec _ | EReadFile _ | EUnlink _ => true
  | _ => false
  end.

(** What the caption method may do up to its [return]: the stage above and
    the best-effort metadata fetch. *)
Definition isCaptionMethodEvent (e : Event) : bool :=
  isCaptionStageEvent e || isGetInfo e.

(** [st'] continues [st] with events that all satisfy [ok]. *)
Definition emitsOnly (ok : Event -> bool) (st st' : State) : Prop :=
  exists evs, trace st' = trace st ++ evs /\ forallb ok evs = true.

(** [st'] has the files of [st] except possibly at the paths [ps]. *)
Definition touchesOnly (ps : list jstring) (st st' : State) : Prop :=
  forall q, q ∉ ps -> files st' !! q = files st !! q.

(** Every run of [m] relates the state before to the state after. *)
Definition extends (R : State -> State -> Prop) {A} (m : M A) : Prop :=
  forall st, R st (snd (m st)).

(** Every run of [m] from a state in [P] ends in [Q]. *)
Definition hoare {A} (P : State -> Prop) (m : M A)
    (Q : Outcome A -> State -> Prop) : Prop :=
  forall st, P st -> Q (fst (m st)) (snd (m st)).

Definition keyMissing : JsError :=
  newError (lit "DEEPGRAM_API_KEY is not set in environment variables.").

Definition timeoutError : JsError :=
  newError (lit "Download timeout after 5 minutes").

(** How the promise of [downloadAudio] settles: the rejection, if any.
    With no settling event before the timer, the timer rejects. *)
Fixpoint streamRejection (evs : list StreamEvent) : option JsError :=
  match evs with
  | [] => Some timeoutError
  | EvOpen :: rest | EvData _ :: rest => streamRejection rest
  | EvEnd :: _ => None
  | EvDownloadError e :: _ | EvAudioError e :: _ => Some e
  end.

Definition downloadRejection (plan : DownloadPlan) : option JsError :=
  match setup_throws plan with
  | Some e => Some e
  | None => streamRejection (before_timeout plan)
  end.

(** The download is still running when the timer elapses: nothing has
    thrown, ended or failed before. *)
Definition isProgress (ev : StreamEvent) : bool :=
  match ev with
  | EvOpen | EvData _ => true
  | _ => false
  end.

Definition stillRunningAtTimeout (plan : DownloadPlan) : bool :=
  match setup_throws plan with
  | Some _ => false
  | None => forallb isProgress (before_timeout plan)
  end.

(** The failures of the fallback path named by the specification. *)
Inductive AudioFailure (w : World) (youtubeUrl : jstring) : Prop :=
| MetadataFetchFailure e :
    ytdl_getInfo w youtubeUrl = inl e ->
    AudioFailure w youtubeUrl
| NoSuitableAudioFormat info :
    ytdl_getInfo w youtubeUrl = inr info ->
    (ytdl_chooseFormat w (formats info) = inr None
     \/ exists e, ytdl_chooseFormat w (formats info) = inl e) ->
    AudioFailure w youtubeUrl
| DownloadFailure e :
    downloadRejection (ytdl_download w youtubeUrl) = Some e ->
    AudioFailure w youtubeUrl
| SpeechToTextFailure :
    (forall buffer,
        match transcribeFile w buffer with
        | inl _ => True
        | inr response => dg_error response <> None
        end) ->
    AudioFailure w youtubeUrl.

(** No file at [p], or its deletion was refused and the refusal logged. *)
Definition cleanedUp (w : World) (p : jstring) (st : State) : Prop :=
  files st !! p = None
  \/ exists e, unlinkSync_throws w p = Some e
               /\ EConsole (WarnCouldNotDelete p e) ∈ trace st.

(** The same world with another behaviour of [unlinkSync]. *)
Definition withUnlink (w : World) (u : jstring -> option JsError) : World :=
  {| env_DEEPGRAM_API_KEY := env_DEEPGRAM_API_KEY w;
     env_GEMINI_API_KEY := env_GEMINI_API_KEY w;
     cwd := cwd w;
     path_join := path_join w;
     exec := exec w;
     ytdl_getInfo := ytdl_getInfo w;
     ytdl_chooseFormat := ytdl_chooseFormat w;
     ytdl_download := ytdl_download w;
     transcribeFile := transcribeFile w;
     mkdirSync_throws := mkdirSync_throws w;
     unlinkSync_throws := u;
     generateContent := generateContent w |}.

(** Every run of [m] begins by logging the events [l], in this order. *)
Definition firstEmits (l : list Event) {A} (m : M A) : Prop :=
  forall st, exists evs, trace (snd (m st)) = trace st ++ l ++ evs.

Definition anyEvent (e : Event) : bool := true.

(** Two states with the same directories and the same file at [p]. *)
Definition agreeAt (p : jstring) (s1 s2 : State) : Prop :=
  dirs s1 = dirs s2 /\ files s1 !! p = files s2 !! p.

(** From states that agree at [p], [m1] and [m2] end alike and in states
    that agree at [p]. *)
Definition sameOutcome (p : jstring) {A} (m1 m2 : M A) : Prop :=
  forall s1 s2, agreeAt p s1 s2 ->
    fst (m1 s1) = fst (m2 s2) /\ agreeAt p (snd (m1 s1)) (snd (m2 s2)).

(** From states that agree at [p], [m1] and [m2] end alike. *)
Definition sameResult (p : jstring) {A} (m1 m2 : M A) : Prop :=
  forall s1 s2, agreeAt p s1 s2 -> fst (m1 s1) = fst (m2 s2).

(** ** Concrete worlds *)

Module Examples.

(** [path.join] on POSIX, for segments that need no normalisation. *)
Definition posixJoin (a b : jstring) : jstring := a ++ lit "/" ++ b.

Definition url : jstring := lit "https://www.youtube.com/watch?v=dQw4w9WgXcQ".

Definition videoId : jstring := lit "dQw4w9WgXcQ".

Definition sampleInfo : VideoInfo :=
  {| videoDetails :=
       {| vd_title := lit "A talk";
          vd_author_name := lit "A channel";
          vd_lengthSeconds := lit "212" |};
     formats := [ {| itag := 140; hasVideo := false; hasAudio := true |} ] |}.

(** A subtitle track with a header, cue timings, a cue index, tags, an
    annotation and a repeated caption. *)
Definition sampleVtt : jstring :=
  lit "WEBVTT" ++ [13; 10]
  ++ lit "Kind: captions" ++ [10]
  ++ lit "Language: en" ++ [10] ++ [10]
  ++ lit "1" ++ [10]
  ++ lit "00:00:00.000 --> 00:00:02.000" ++ [10]
  ++ lit "hello <c>world</c> [Music]" ++ [10] ++ [10]
  ++ lit "00:00:02.000 --> 00:00:04.000" ++ [10]
  ++ lit "hello world" ++ [10]
  ++ lit "again" ++ [10].

(** A track without caption text. *)
Definition silentVtt : jstring :=
  lit "WEBVTT" ++ [10] ++ [10]
  ++ lit "7" ++ [10]
  ++ lit "00:00:00.000 --> 00:00:02.000" ++ [10]
  ++ lit "<c></c> <i>" ++ [10]
  ++ lit "[Music] [Applause]" ++ [10]
  ++ lit "<c>[Laughter]</c>" ++ [10].

Definition ytDlpMissing : JsError :=
  mkJsError (lit "Command failed: yt-dlp")
    (Some (lit "/bin/sh: 1: yt-dlp: command not found")) true.

Definition ebusy : JsError := newError (lit "EBUSY: resource busy or locked, unlink").

Definition serviceDown : JsError := newError (lit "Status code: 403").

Definition twoSpeakers : DgResponse :=
  {| dg_result :=
       Some {| results :=
                 Some {| channels :=
                           Some [ {| alternatives :=
                                       Some [ {| alt_transcript := Some (lit "hi there");
                                                 alt_confidence := Some (99 # 100) |} ] |} ];
                         utterances :=
                           Some [ {| speaker := SpNumber 0 |};
                                  {| speaker := SpNumber 1 |};
                                  {| speaker := SpNumber 0 |};
                                  {| speaker := SpNull |} ] |} |};
     dg_error := None |}.

Definition world (key : option jstring) (ex : ExecResult)
    (info : JsError + VideoInfo) (plan : DownloadPlan)
    (stt : JsError + DgResponse) (unlink : option JsError)
    (gemini : JsError + jstring) : World :=
  {| env_DEEPGRAM_API_KEY := key;
     env_GEMINI_API_KEY := key;
     cwd := lit "/app";
     path_join := posixJoin;
     exec := fun _ => ex;
     ytdl_getInfo := fun _ => info;
     ytdl_chooseFormat := fun fs => inr (head fs);
     ytdl_download := fun _ => plan;
     transcribeFile := fun _ => stt;
     mkdirSync_throws := fun _ => None;
     unlinkSync_throws := fun _ => unlink;
     generateContent := fun _ => gemini |}.

Definition completes : DownloadPlan :=
  {| setup_throws := None;
     before_timeout := [EvOpen; EvData [1; 2]; EvData [3]; EvEnd] |}.

Definition stalls : DownloadPlan :=
  {| setup_throws := None;
     before_timeout := [EvOpen; EvData [1; 2]] |}.

Definition wrote (c : jstring) : ExecResult :=
  {| exec_rejects := None; exec_subtitle := Some c |}.

Definition failed : ExecResult :=
  {| exec_rejects := Some ytDlpMissing; exec_subtitle := None |}.

Definition someKey : option jstring := Some (lit "secret").

(** Captions are available. *)
Definition wCaptions : World :=
  world someKey (wrote sampleVtt) (inr sampleInfo) completes
    (inr twoSpeakers) None (inr (lit "A summary."))  .

(** Captions are available and the subtitle file cannot be unlinked. *)
Definition wCaptionsBusy : World :=
  world someKey (wrote sampleVtt) (inr sampleInfo) completes
    (inr twoSpeakers) (Some ebusy) (inr (lit "A summary.")).

(** The track holds no caption text; the audio is transcribed. *)
Definition wSilent : World :=
  world someKey (wrote silentVtt) (inr sampleInfo) completes
    (inr twoSpeakers) None (inr (lit "A summary.")).

(** No captions and no key. *)
Definition wNoKey : World :=
  world None failed (inr sampleInfo) completes
    (inr twoSpeakers) None (inl serviceDown).

(** No captions, and the metadata cannot be fetched. *)
Definition wNoMetadata : World :=
  world someKey failed (inl serviceDown) completes
    (inr twoSpeakers) None (inl serviceDown).

(** No captions, and the download stalls. *)
Definition wStalls : World :=
  world someKey failed (inr sampleInfo) stalls
    (inr twoSpeakers) None (inl serviceDown).

(** The same, and the audio file cannot be unlinked. *)
Definition wStallsBusy : World :=
  world someKey failed (inr sampleInfo) stalls
    (inr twoSpeakers) (Some ebusy) (inl serviceDown).

Definition fresh : State := mkState ∅ ∅ [].

End Examples.

(** ** Further vocabulary for the pipeline *)

Definition paramsError : JsError :=
  newError (lit "Both youtubeUrl and videoId are required parameters.").

(** What [safeDeleteFile] logs. *)
Definition isCleanupEvent (e : Event) : bool :=
  match e with
  | EUnlink _ | EConsole (LogCleanedUp _) | EConsole (WarnCouldNotDelete _ _) => true
  | _ => false
  end.

Definition isDestroy (e : Event) : bool :=
  match e with
  | EDestroyDownloadStream | EDestroyAudioStream => true
  | _ => false
  end.


(** [st'] has the directories of [st]. *)
Definition keepsDirs (st st' : State) : Prop := dirs st' = dirs st.



(** What the first settling event of a download logs. *)
Definition settleLog (ev : StreamEvent) : list Event :=
  match ev with
  | EvEnd => [EConsole LogAudioDownloadComplete; EClearTimeout]
  | EvDownloadError e => [EConsole (ErrDownloadStream e)]
  | EvAudioError e => [EConsole (ErrAudioStream e)]
  | _ => []
  end.

(** How it settles the promise. *)
Definition settlement (ev : StreamEvent) : Outcome unit :=
  match ev with
  | EvDownloadError e | EvAudioError e => Thrown e
  | _ => Returned tt
  end.

(** A string that does not begin, resp. end, with white space. *)
Definition startsClean (s : jstring) : Prop :=
  match s with
  | [] => True
  | c :: _ => isWhiteSpace c = false
  end.

Definition endsClean (s : jstring) : Prop := startsClean (rev s).

(** Two lines that [trim] cannot tell apart. *)
Definition sameTrim (a b : jstring) : Prop := trim a = trim b.

(** ** The manual transcript helper *)

Module ManualHelper.

(** *** [extractVideoId] *)

(** The class [[^&\n?#]] refuses exactly these code units. *)
Definition isIdStop (c : N) : bool :=
  (c =? 38) || (c =? 10) || (c =? 63) || (c =? 35).

(** The greedy group [([^&\n?#]+)], read at the head of [s]. *)
Fixpoint idRun (s : jstring) : jstring :=
  match s with
  | [] => []
  | c :: r => if isIdStop c then [] else c :: idRun r
  end.

(** One attempt of a pattern at the head of [s]: its alternatives are
    tried in order; an alternative succeeds when its literal is there
    and the group reads at least one code unit after it.  The value is
    [match[1]]. *)
Fixpoint matchHere (alternatives : list jstring) (s : jstring)
  : option jstring :=
  match alternatives with
  | [] => None
  | marker :: rest =>
      if startsWith marker s then
        match idRun (drop (length marker) s) with
        | [] => matchHere rest s
        | c :: r => Some (c :: r)
        end
      else matchHere rest s
  end.

(** [url.match(pattern)]: the leftmost position where an attempt
    succeeds. *)
Fixpoint firstMatch (alternatives : list jstring) (s : jstring)
  : option jstring :=
  match matchHere alternatives s with
  | Some id => Some id
  | None =>
      match s with
      | [] => None
      | _ :: r => firstMatch alternatives r
      end
  end.

(** The two patterns, each as the list of the literals of its
    alternation. *)
Definition patterns : list (list jstring) :=
  [ [lit "youtube.com/watch?v="; lit "youtu.be/"; lit "youtube.com/embed/"];
    [lit "youtube.com/v/"] ].

Fixpoint tryPatterns (ps : list (list jstring)) (url : jstring)
  : option jstring :=
  match ps with
  | [] => None
  | pattern :: rest =>
      match firstMatch pattern url with
      | Some id => Some id
      | None => tryPatterns rest url
      end
  end.

Definition extractVideoId (url : jstring) : option jstring :=
  tryPatterns patterns url.

(** *** [validateTranscript] *)

(** [s.split(' ')].  [cur] is the piece being read, reversed. *)
Fixpoint splitSpaceAux (cur : jstring) (s : jstring) : list jstring :=
  match s with
  | [] => [rev cur]
  | c :: r =>
      if c =? 32 then rev cur :: splitSpaceAux [] r
      else splitSpaceAux (c :: cur) r
  end.

Definition splitSpace (s : jstring) : list jstring := splitSpaceAux [] s.

Record Validation := {
  isValid : bool;
  issues : list jstring;
  wordCount : nat;
  charCount : nat
}.

Definition stopWords : list jstring :=
  [lit "the"; lit "and"; lit "that"; lit "this"; lit "with"; lit "have";
   lit "will"; lit "they"; lit "from"; lit "been"].

Section Validate.

(** [String.prototype.toLowerCase], and the two comparisons the
    function makes on doubles: [a / b < 0.3] and [a < b * 0.3]. *)
Variable toLowerCase : jstring -> jstring.
Variable quotientBelowThreeTenths : nat -> nat -> bool.
Variable belowThreeTenthsOf : nat -> nat -> bool.

Definition validateTranscript (transcript : jstring) : Validation :=
  let wordCount :=
    length (List.filter (fun word => (0 <? length word)%nat)
              (splitSpace transcript)) in
  let charCount := length transcript in
  let issues1 :=
    if (charCount <? 100)%nat
    then [lit "Transcript is too short (less than 100 characters)"]
    else [] in
  let issues2 :=
    if (wordCount <? 20)%nat
    then issues1 ++ [lit "Transcript has too few words (less than 20 words)"]
    else issues1 in
  let words := splitSpace (toLowerCase transcript) in
  let uniqueWords := newSet words in
  let issues3 :=
    if quotientBelowThreeTenths (length uniqueWords) (length words)
    then issues2 ++ [lit "Transcript appears to have excessive repetition"]
    else issues2 in
  let meaningfulWords :=
    List.filter
      (fun word => (3 <? length word)%nat
                   && negb (existsb (str_eqb word) stopWords))
      words in
  let issues4 :=
    if belowThreeTenthsOf (length meaningfulWords) wordCount
    then issues3 ++ [lit "Transcript may lack meaningful content"]
    else issues3 in
  {| isValid := (length issues4 =? 0)%nat;
     issues := issues4;
     wordCount := wordCount;
     charCount := charCount |}.

End Validate.

(** *** [saveTranscript] *)

(** [s.replace(/[:.]/g, '-')] *)
Definition dashColonsAndDots (s : jstring) : jstring :=
  List.map (fun c => if (c =? 58) || (c =? 46) then 45 else c) s.

(** The class of the replacement in the title: [<], [>], [:], the double
    quote, [/], the backslash, [|], [?] and [*]. *)
Definition isUnsafeInFileName (c : N) : bool :=
  (c =? 60) || (c =? 62) || (c =? 58) || (c =? 34) || (c =? 47)
  || (c =? 92) || (c =? 124) || (c =? 63) || (c =? 42).

(** The constant [safeTitle]: the title with each code unit of that class
    replaced by ['-'], cut by [substring(0, 50)]; [''] without a title. *)
Definition safeTitle (title : option jstring) : jstring :=
  match title with
  | Some (c :: r) =>
      take 50 (List.map (fun c => if isUnsafeInFileName c then 45 else c)
                 (c :: r))
  | _ => []
  end.

(** The constant [filename]; [iso] is what [new Date().toISOString()]
    gave. *)
Definition filename (videoId : jstring) (title : option jstring)
    (iso : jstring) : jstring :=
  let timestamp := dashColonsAndDots iso in
  match safeTitle title with
  | [] => videoId ++ lit "_manual_" ++ timestamp ++ lit ".txt"
  | c :: r =>
      videoId ++ lit "_" ++ (c :: r) ++ lit "_" ++ timestamp ++ lit ".txt"
  end.

(** The constant [fileContent]; [iso] is the result of the second reading
    of the clock. *)
Definition fileContent (videoId transcript : jstring)
    (title : option jstring) (iso : jstring) : jstring :=
  lit "# Manual Transcript" ++ [10]
  ++ lit "Video ID: " ++ videoId ++ [10]
  ++ match title with
     | Some (c :: r) => lit "Title: " ++ (c :: r)
     | _ => []
     end ++ [10]
  ++ lit "Created: " ++ iso ++ [10]
  ++ lit "Word Count: "
  ++ decimal (N.of_nat (length (splitSpace transcript))) ++ [10]
  ++ lit "Character Count: " ++ decimal (N.of_nat (length transcript))
  ++ [10] ++ [10] ++ lit "---" ++ [10] ++ [10]
  ++ transcript.

Section Save.

Variable w : World.

(** The two readings of the clock, as ISO strings, and what makes
    [fs.writeFileSync] throw. *)
Variable iso1 iso2 : jstring.
Variable writeFileSync_throws : jstring -> option JsError.

(** [fs.existsSync(p)]: a file or a directory. *)
Definition pathExists (p : jstring) : M bool :=
  let* d := hasDir p in
  let* f := existsSync p in
  ret (d || f).

Definition writeFileSync (p content : jstring) : M unit :=
  match writeFileSync_throws p with
  | Some e => throw e
  | None => modifyFiles (insert p content)
  end.

Definition saveTranscript (videoId transcript : jstring)
    (title : option jstring) : M jstring :=
  let transcriptsDir := lit "transcripts" in
  let* found := pathExists transcriptsDir in
  (if found then ret tt else mkdirSync w transcriptsDir);;
  let filepath := path_join w transcriptsDir (filename videoId title iso1) in
  writeFileSync filepath (fileContent videoId transcript title iso2);;
  ret filepath.

End Save.

(** *** [cleanTranscriptText] *)

(** [s.replace(pattern, replacement)] with the [g] flag, for a pattern
    that matches no empty string.  [matchAt prev s] is the length of the
    match that begins at the head of [s], [prev] being the code unit
    before it; [skip] counts the code units of the current match that are
    still to be passed. *)
Fixpoint replaceAll (matchAt : option N -> jstring -> option nat)
    (replacement : jstring) (skip : nat) (prev : option N) (s : jstring)
  : jstring :=
  match s with
  | [] => []
  | c :: r =>
      match skip with
      | S k => replaceAll matchAt replacement k (Some c) r
      | O =>
          match matchAt prev s with
          | Some (S n) =>
              replacement ++ replaceAll matchAt replacement n (Some c) r
          | _ => c :: replaceAll matchAt replacement 0 (Some c) r
          end
      end
  end.

(** The length of the longest prefix made of code units of a class. *)
Fixpoint spanLength (class : N -> bool) (s : jstring) : nat :=
  match s with
  | [] => 0
  | c :: r => if class c then S (spanLength class r) else 0
  end.

(** [/\s+/] *)
Definition whiteSpaceRun (prev : option N) (s : jstring) : option nat :=
  match spanLength isWhiteSpace s with
  | O => None
  | n => Some n
  end.

(** [\d{2}] at the head of [s]. *)
Definition twoDigitsAt (s : jstring) : bool :=
  match s with
  | a :: b :: _ => isDigit a && isDigit b
  | _ => false
  end.

(** [\d{1,2}:\d{2}]: two digits are tried before one. *)
Definition minutesAndSeconds (s : jstring) : option nat :=
  match s with
  | a :: b :: r =>
      if isDigit a then
        if isDigit b
           && match r with
              | c :: r' => (c =? 58) && twoDigitsAt r'
              | [] => false
              end
        then Some 5%nat
        else if (b =? 58) && twoDigitsAt r then Some 4%nat
        else None
      else None
  | _ => None
  end.

(** [(?::\d{2})?] *)
Definition optionalSeconds (s : jstring) : nat :=
  match s with
  | c :: r => if (c =? 58) && twoDigitsAt r then 3 else 0
  | [] => 0
  end.

(** [\d{1,2}:\d{2}(?::\d{2})?] *)
Definition clockTime (s : jstring) : option nat :=
  match minutesAndSeconds s with
  | Some n => Some (n + optionalSeconds (drop n s))%nat
  | None => None
  end.

(** [/\[?\d{1,2}:\d{2}(?::\d{2})?\]?/] *)
Definition bracketedTime (prev : option N) (s : jstring) : option nat :=
  let opening :=
    match s with
    | c :: _ => if c =? 91 then 1%nat else 0%nat
    | [] => 0%nat
    end in
  match clockTime (drop opening s) with
  | Some n =>
      let closing :=
        match drop (opening + n) s with
        | c :: _ => if c =? 93 then 1%nat else 0%nat
        | [] => 0%nat
        end in
      Some (opening + n + closing)%nat
  | None => None
  end.

(** [/\(\d{1,2}:\d{2}(?::\d{2})?\)/] *)
Definition parenthesizedTime (prev : option N) (s : jstring) : option nat :=
  match s with
  | c :: body =>
      if c =? 40 then
        match clockTime body with
        | Some n =>
            match drop n body with
            | d :: _ => if d =? 41 then Some (1 + n + 1)%nat else None
            | [] => None
            end
        | None => None
        end
      else None
  | [] => None
  end.

Definition isLetter (c : N) : bool :=
  ((65 <=? c) && (c <=? 90)) || ((97 <=? c) && (c <=? 122)).

(** The class [\w]. *)
Definition isWordChar (c : N) : bool :=
  isLetter c || isDigit c || (c =? 95).

(** [/^[A-Za-z\s]+:\s*/] with the [m] flag: [^] holds at the start of the
    string and after a line terminator. *)
Definition speakerLabel (prev : option N) (s : jstring) : option nat :=
  let atLineStart :=
    match prev with
    | None => true
    | Some p => isLineTerminator p
    end in
  let n := spanLength (fun c => isLetter c || isWhiteSpace c) s in
  if atLineStart && (0 <? n)%nat then
    match drop n s with
    | c :: r =>
        if c =? 58 then Some (n + 1 + spanLength isWhiteSpace r)%nat
        else None
    | [] => None
    end
  else None.

(** [/[.]{2,}/] and [/[,]{2,}/] *)
Definition repeated (ch : N) (prev : option N) (s : jstring) : option nat :=
  let n := spanLength (fun c => c =? ch) s in
  if (2 <=? n)%nat then Some n else None.

(** [/\bxy\b/] with the [i] flag, for two lower-case letters [x] and
    [y]. *)
Definition sameLetter (lower c : N) : bool :=
  (c =? lower) || (c =? lower - 32).

Definition filler (x y : N) (prev : option N) (s : jstring) : option nat :=
  let boundaryBefore :=
    match prev with
    | None => true
    | Some p => negb (isWordChar p)
    end in
  match s with
  | a :: b :: r =>
      if boundaryBefore && sameLetter x a && sameLetter y b
         && match r with
            | c :: _ => negb (isWordChar c)
            | [] => true
            end
      then Some 2%nat
      else None
  | _ => None
  end.

(** [/\n\s*\n/]: from a line feed to the last line feed of the run of
    white space that follows it. *)
Fixpoint lastLineFeed (run : jstring) : option nat :=
  match run with
  | [] => None
  | c :: r =>
      match lastLineFeed r with
      | Some i => Some (S i)
      | None => if c =? 10 then Some 0%nat else None
      end
  end.

Definition blankLines (prev : option N) (s : jstring) : option nat :=
  match s with
  | c :: r =>
      if c =? 10 then
        match lastLineFeed (take (spanLength isWhiteSpace r) r) with
        | Some i => Some (1 + i + 1)%nat
        | None => None
        end
      else None
  | [] => None
  end.

(** [s.replace(/\n/g, ' ')] *)
Definition lineFeedsToSpaces (s : jstring) : jstring :=
  List.map (fun c => if c =? 10 then 32 else c) s.

Definition collapseWhiteSpace (s : jstring) : jstring :=
  replaceAll whiteSpaceRun (lit " ") 0 None s.

Definition cleanTranscriptText (rawText : jstring) : jstring :=
  let s1 := collapseWhiteSpace rawText in
  let s2 := replaceAll bracketedTime [] 0 None s1 in
  let s3 := replaceAll parenthesizedTime [] 0 None s2 in
  let s4 := replaceAll speakerLabel [] 0 None s3 in
  let s5 := replaceAll (repeated 46) (lit ".") 0 None s4 in
  let s6 := replaceAll (repeated 44) (lit ",") 0 None s5 in
  let s7 := replaceAll (filler 117 104) [] 0 None s6 in
  let s8 := replaceAll (filler 117 109) [] 0 None s7 in
  let s9 := replaceAll (filler 101 114) [] 0 None s8 in
  let s10 := trim s9 in
  let s11 := replaceAll blankLines [10] 0 None s10 in
  let s12 := lineFeedsToSpaces s11 in
  collapseWhiteSpace s12.

End ManualHelper.

(** ** The listing of the output files *)

Module ListOutputs.

Inductive FileType := Transcript | Summary | Report | Sample | Manual | Other.

Definition FileType_eqb (a b : FileType) : bool :=
  match a, b with
  | Transcript, Transcript | Summary, Summary | Report, Report
  | Sample, Sample | Manual, Manual | Other, Other => true
  | _, _ => false
  end.

(** A [Date] is its time value in milliseconds; a size is a number of
    bytes. *)
Record FileInfo := {
  name : jstring;
  path : jstring;
  size : N;
  sizeFormatted : jstring;
  modified : Z;
  type : FileType;
  videoId : option jstring
}.

(** [filesByType] is an object used as a map: its keys are listed in the
    order of their insertion. *)
Record DirectoryStats := {
  totalFiles : nat;
  totalSize : N;
  totalSizeFormatted : jstring;
  filesByType : list (FileType * nat);
  oldestFile : option Z;
  newestFile : option Z
}.

(** *** [extractVideoIdFromFilename] *)

(** The class [[a-zA-Z0-9_-]]. *)
Definition isIdChar (c : N) : bool :=
  ((97 <=? c) && (c <=? 122)) || ((65 <=? c) && (c <=? 90))
  || ((48 <=? c) && (c <=? 57)) || (c =? 95) || (c =? 45).

(** [([a-zA-Z0-9_-]{11})] followed by the code unit [stop], at the head
    of [s]. *)
Definition idThen (stop : N) (s : jstring) : option jstring :=
  match drop 11 s with
  | c :: _ =>
      if forallb isIdChar (take 11 s) && (c =? stop) then Some (take 11 s)
      else None
  | [] => None
  end.

(** [/^([a-zA-Z0-9_-]{11})_/] *)
Definition idAtStart (fileName : jstring) : option jstring :=
  idThen 95 fileName.

(** [/_([a-zA-Z0-9_-]{11})_/]: the leftmost match. *)
Fixpoint idInMiddle (s : jstring) : option jstring :=
  match s with
  | [] => None
  | c :: r =>
      match (if c =? 95 then idThen 95 r else None) with
      | Some id => Some id
      | None => idInMiddle r
      end
  end.

(** [/([a-zA-Z0-9_-]{11})\./]: the leftmost match. *)
Fixpoint idBeforeDot (s : jstring) : option jstring :=
  match idThen 46 s with
  | Some id => Some id
  | None =>
      match s with
      | [] => None
      | _ :: r => idBeforeDot r
      end
  end.

Definition extractVideoIdFromFilename (fileName : jstring)
  : option jstring :=
  match idAtStart fileName with
  | Some id => Some id
  | None =>
      match idInMiddle fileName with
      | Some id => Some id
      | None => idBeforeDot fileName
      end
  end.

(** *** [calculateStats] *)

(** [stats.filesByType[t] = (stats.filesByType[t] || 0) + 1] *)
Fixpoint countOne (t : FileType) (counts : list (FileType * nat))
  : list (FileType * nat) :=
  match counts with
  | [] => [(t, 1%nat)]
  | (t', n) :: r =>
      if FileType_eqb t' t then (t', (n + 1)%nat) :: r
      else (t', n) :: countOne t r
  end.

(** [Math.min(...xs)] and [Math.max(...xs)] of a non-empty list. *)
Definition minimum (x : Z) (xs : list Z) : Z := fold_left Z.min xs x.
Definition maximum (x : Z) (xs : list Z) : Z := fold_left Z.max xs x.

Section Stats.

Variable formatFileSize : N -> jstring.

Definition calculateStats (files : list FileInfo) : DirectoryStats :=
  let '(total, dates, byType) :=
    fold_left
      (fun '(total, dates, byType) file =>
         (total + size file, dates ++ [modified file],
          countOne (type file) byType))
      files (0, [], []) in
  {| totalFiles := length files;
     totalSize := total;
     totalSizeFormatted := formatFileSize total;
     filesByType := byType;
     oldestFile :=
       match dates with
       | [] => None
       | d :: ds => Some (minimum d ds)
       end;
     newestFile :=
       match dates with
       | [] => None
       | d :: ds => Some (maximum d ds)
       end |}.

End Stats.

(** *** [groupFilesByVideo] *)

(** [file.videoId || 'unknown'] *)
Definition groupKey (file : FileInfo) : jstring :=
  match videoId file with
  | Some (c :: r) => c :: r
  | _ => lit "unknown"
  end.

(** The [Map] keeps its keys in the order of their insertion; a file is
    pushed onto the array of its key, which is created when missing. *)
Fixpoint pushTo (key : jstring) (file : FileInfo)
    (groups : list (jstring * list FileInfo))
  : list (jstring * list FileInfo) :=
  match groups with
  | [] => [(key, [file])]
  | (k, fs) :: r =>
      if str_eqb k key then (k, fs ++ [file]) :: r
      else (k, fs) :: pushTo key file r
  end.

Definition groupFilesByVideo (files : list FileInfo)
  : list (jstring * list FileInfo) :=
  fold_left (fun groups file => pushTo (groupKey file) file groups) files [].

(** *** [getRelativeTime] *)

Section RelativeTime.

(** The clock read by [new Date()], and [Date.prototype.toLocaleDateString]. *)
Variable now : Z.
Variable toLocaleDateString : Z -> jstring.

Definition getRelativeTime (date : Z) : jstring :=
  let diffMs := (now - date)%Z in
  let diffMins := (diffMs / (1000 * 60))%Z in
  let diffHours := (diffMins / 60)%Z in
  let diffDays := (diffHours / 24)%Z in
  if (diffMins <? 1)%Z then lit "just now"
  else if (diffMins <? 60)%Z then
    decimal (Z.to_N diffMins) ++ lit " min ago"
  else if (diffHours <? 24)%Z then
    decimal (Z.to_N diffHours) ++ lit " hour"
    ++ (if (1 <? diffHours)%Z then lit "s" else []) ++ lit " ago"
  else if (diffDays <? 7)%Z then
    decimal (Z.to_N diffDays) ++ lit " day"
    ++ (if (1 <? diffDays)%Z then lit "s" else []) ++ lit " ago"
  else toLocaleDateString date.

End RelativeTime.

End ListOutputs.

(** ** The set-up script: the check of the API keys *)

Module Setup.

(** [envContent.match(new RegExp(key + '=.+'))] is not null: somewhere
    the key and ['='] are followed by a code unit that is not a line
    terminator.  The keys of the script hold no character that is
    special in a pattern. *)
Fixpoint assigned (key envContent : jstring) : bool :=
  (startsWith (key ++ lit "=") envContent
   && match drop (length key + 1) envContent with
      | c :: _ => negb (isLineTerminator c)
      | [] => false
      end)
  || match envContent with
     | [] => false
     | _ :: r => assigned key r
     end.

Definition requiredKeys : list jstring := [lit "GEMINI_API_KEY"].
Definition optionalKeys : list jstring :=
  [lit "DEEPGRAM_API_KEY"; lit "OPENAI_API_KEY"].

(** The conditions of the two callbacks. *)
Definition requiredKeyConfigured (envContent key : jstring) : bool :=
  includes key envContent
  && negb (includes (key ++ lit "=") envContent)
  && assigned key envContent.

Definition optionalKeyConfigured (envContent key : jstring) : bool :=
  includes key envContent && assigned key envContent.

(** The lines the two loops print. *)
Inductive Line :=
| IsConfigured (key : jstring)
| NeedsToBeConfigured (key : jstring)
| IsConfiguredOptional (key : jstring)
| NotConfiguredOptional (key : jstring).

Definition checkApiKeys (envContent : jstring) : list Line :=
  List.map (fun key =>
              if requiredKeyConfigured envContent key then IsConfigured key
              else NeedsToBeConfigured key)
    requiredKeys
  ++ List.map (fun key =>
                 if optionalKeyConfigured envContent key
                 then IsConfiguredOptional key
                 else NotConfiguredOptional key)
       optionalKeys.

End Setup.

(** A remainder at which the greedy group of [extractVideoId] stops: the
    end of the string, or a code unit the class refuses. *)
Definition stopsHere (rest : jstring) : Prop :=
  match rest with
  | [] => True
  | c :: _ => ManualHelper.isIdStop c = true
  end.

(** The literals of the first pattern of [extractVideoId]. *)
Definition watchMarkers : list jstring :=
  [lit "youtube.com/watch?v="; lit "youtu.be/"; lit "youtube.com/embed/"].

(** [counts[t] || 0] and [groups.get(key)] on the ordered maps of the
    listing. *)
Fixpoint countFor (t : ListOutputs.FileType)
    (counts : list (ListOutputs.FileType * nat)) : nat :=
  match counts with
  | [] => 0%nat
  | (t', n) :: r => if ListOutputs.FileType_eqb t' t then n else countFor t r
  end.

Fixpoint groupOf (key : jstring)
    (groups : list (jstring * list ListOutputs.FileInfo))
  : list ListOutputs.FileInfo :=
  match groups with
  | [] => []
  | (k, fs) :: r => if str_eqb k key then fs else groupOf key r
  end.

(** The files of a type, and the files of a video. *)
Definition ofType (t : ListOutputs.FileType)
    (files : list ListOutputs.FileInfo) : list ListOutputs.FileInfo :=
  List.filter (fun f => ListOutputs.FileType_eqb (ListOutputs.type f) t) files.

Definition ofVideo (key : jstring)
    (files : list ListOutputs.FileInfo) : list ListOutputs.FileInfo :=
  List.filter (fun f => str_eqb (ListOutputs.groupKey f) key) files.

(** Every run of white space replaced by one space, read from left to
    right; [inRun] says that the run has already been replaced. *)
Fixpoint collapse (inRun : bool) (s : jstring) : jstring :=
  match s with
  | [] => []
  | c :: r =>
      if isWhiteSpace c then
        if inRun then collapse true r else 32 :: collapse true r
      else c :: collapse false r
  end.

(** * Properties *)

(** ** Sets of strings in insertion order *)

Section SetFacts.

Implicit Types (l acc : list jstring) (x y : jstring).

Lemma str_eqb_true x y : str_eqb x y = true ↔ x = y.
Proof. unfold str_eqb. apply bool_decide_eq_true. Qed.

Lemma existsb_str_eqb x acc : existsb (str_eqb x) acc = true ↔ x ∈ acc.
Proof.
  rewrite existsb_exists. split.
  - intros (y & Hin & Heq). apply str_eqb_true in Heq. subst y.
    by apply list_elem_of_In.
  - intros Hin. exists x. split; [by apply list_elem_of_In | by apply str_eqb_true].
Qed.

Lemma setAdd_held acc x : x ∈ acc → setAdd acc x = acc.
Proof.
  intros Hin. unfold setAdd.
  apply existsb_str_eqb in Hin. by rewrite Hin.
Qed.

Lemma setAdd_fresh acc x : x ∉ acc → setAdd acc x = acc ++ [x].
Proof.
  intros Hnin. unfold setAdd.
  destruct (existsb (str_eqb x) acc) eqn:E; [| done].
  apply existsb_str_eqb in E. contradiction.
Qed.

Lemma newSet_snoc l x : newSet (l ++ [x]) = setAdd (newSet l) x.
Proof. unfold newSet. by rewrite fold_left_app. Qed.

Lemma elem_of_newSet l x : x ∈ newSet l ↔ x ∈ l.
Proof.
  induction l as [| z l IH] using rev_ind.
  - done.
  - rewrite newSet_snoc, elem_of_app, list_elem_of_singleton.
    destruct (decide (z ∈ newSet l)) as [Hz | Hz].
    + rewrite (setAdd_held _ _ Hz), IH. split; [tauto |].
      intros [? | ->]; [done | by apply IH].
    + rewrite (setAdd_fresh _ _ Hz), elem_of_app, list_elem_of_singleton, IH.
      done.
Qed.

Lemma NoDup_newSet l : NoDup (newSet l).
Proof.
  induction l as [| z l IH] using rev_ind.
  - constructor.
  - rewrite newSet_snoc.
    destruct (decide (z ∈ newSet l)) as [Hz | Hz].
    + by rewrite (setAdd_held _ _ Hz).
    + rewrite (setAdd_fresh _ _ Hz). apply NoDup_app. split; [done |].
      split; [| apply NoDup_singleton].
      intros y Hy Hy'. apply list_elem_of_singleton in Hy'. by subst y.
Qed.

(** The first position at which a member of [l] occurs. *)
Lemma first_occurrence l x :
  x ∈ l → ∃ k, l !! k = Some x ∧ x ∉ take k l.
Proof.
  induction l as [| z l IH]; intros Hin.
  - by apply elem_of_nil in Hin.
  - destruct (decide (x = z)) as [-> | Hne].
    + exists 0%nat. split; [done |]. simpl. apply not_elem_of_nil.
    + apply elem_of_cons in Hin as [? | Hin]; [done |].
      destruct (IH Hin) as (k & Hk & Hnot).
      exists (S k). split; [done |]. simpl.
      intros [? | ?]%elem_of_cons; [done | by apply Hnot].
Qed.

(** Members of the set stand in the order of their first occurrences:
    when [x] comes before [y] in [newSet l], some occurrence of [x] in [l]
    comes before every occurrence of [y]. *)
Lemma newSet_order l i j x y :
  newSet l !! i = Some x → newSet l !! j = Some y → (i < j)%nat →
  ∃ k, l !! k = Some x ∧ y ∉ take (S k) l.
Proof.
  revert i j x y.
  induction l as [| z l IH] using rev_ind; intros i j x y Hi Hj Hlt.
  - done.
  - rewrite newSet_snoc in Hi, Hj.
    destruct (decide (z ∈ newSet l)) as [Hz | Hz].
    + rewrite (setAdd_held _ _ Hz) in Hi, Hj.
      destruct (IH _ _ _ _ Hi Hj Hlt) as (k & Hk & Hnot).
      exists k. pose proof (lookup_lt_Some _ _ _ Hk) as Hlen.
      split; [by apply lookup_app_l_Some |].
      rewrite take_app_le by lia. done.
    + rewrite (setAdd_fresh _ _ Hz) in Hi, Hj.
      pose proof (lookup_lt_Some _ _ _ Hj) as Hjlen.
      rewrite length_app in Hjlen. simpl in Hjlen.
      destruct (decide (j < length (newSet l))%nat) as [Hjl | Hjl].
      * rewrite lookup_app_l in Hi, Hj by lia.
        destruct (IH _ _ _ _ Hi Hj Hlt) as (k & Hk & Hnot).
        exists k. pose proof (lookup_lt_Some _ _ _ Hk) as Hlen.
        split; [by apply lookup_app_l_Some |].
        rewrite take_app_le by lia. done.
      * assert (j = length (newSet l)) as -> by lia.
        rewrite lookup_app_l in Hi by lia.
        rewrite list_lookup_middle in Hj by done.
        injection Hj as <-.
        assert (x ∈ l) as Hxl.
        { apply elem_of_newSet. by eapply list_elem_of_lookup_2. }
        destruct (first_occurrence _ _ Hxl) as (k & Hk & _).
        exists k. pose proof (lookup_lt_Some _ _ _ Hk) as Hlen.
        split; [by apply lookup_app_l_Some |].
        rewrite take_app_le by lia.
        intros Hin. apply Hz, elem_of_newSet.
        by eapply subseteq_take.
Qed.

End SetFacts.

(** ** Cleaning of subtitle lines *)

Section CleaningFacts.

Implicit Types (s t line : jstring) (lines : list jstring).

Lemma trimStart_white s : forallb isWhiteSpace s = true → trimStart s = [].
Proof.
  induction s as [| c r IH]; [done |]. simpl.
  intros [Hc Hr]%andb_true_iff. rewrite Hc. auto.
Qed.

Lemma trim_white s : forallb isWhiteSpace s = true → trim s = [].
Proof. intros H. unfold trim, trimEnd. by rewrite (trimStart_white _ H). Qed.

(** In the middle of a tag, a markup-only line still holds its ['>']. *)
Lemma markupOnly_hasGt s : Vtt.markupOnlyAux true s = true → hasGt s = true.
Proof.
  induction s as [| c r IH]; [done |]. simpl.
  destruct (c =? 62) eqn:E; simpl.
  - intros _. apply N.eqb_eq in E. subst c. done.
  - auto.
Qed.

Lemma markupOnly_stripTags s b :
  Vtt.markupOnlyAux b s = true →
  forallb isWhiteSpace (stripTagsAux b s) = true.
Proof.
  revert b. induction s as [| c r IH]; intros b; [done |]. simpl.
  destruct b.
  - destruct (c =? 62); simpl; apply IH.
  - destruct (c =? 60) eqn:E; simpl.
    + intros H. rewrite (markupOnly_hasGt _ H). by apply IH.
    + intros [Hc Hr]%andb_true_iff. rewrite Hc. simpl. by apply IH.
Qed.

Lemma stripBrackets_white s :
  forallb isWhiteSpace s = true → stripBracketsAux false s = s.
Proof.
  induction s as [| c r IH]; [done |]. simpl.
  intros [Hc Hr]%andb_true_iff.
  destruct (c =? 91) eqn:E.
  - apply N.eqb_eq in E. subst c. done.
  - simpl. by rewrite IH.
Qed.

Lemma markupLine_clean t : Vtt.isMarkupLine t = true → Vtt.cleanLine t = [].
Proof.
  intros H. unfold Vtt.cleanLine, stripTags, stripBrackets.
  apply markupOnly_stripTags in H.
  rewrite (stripBrackets_white _ H). by apply trim_white.
Qed.

(** Removing tags from a line made of annotations leaves a line made of
    annotations: a match starts and ends inside annotations, and what
    it leaves of the two is again one annotation. *)
Lemma annotationOnly_stripTags s :
  (∀ q, Vtt.annotationOnlyAux q s = true →
        Vtt.annotationOnlyAux q (stripTagsAux false s) = true)
  ∧ (∀ q, Vtt.annotationOnlyAux q s = true → hasGt s = true →
          Vtt.annotationOnlyAux true (stripTagsAux true s) = true).
Proof.
  induction s as [| c r [IH1 IH2]]; split; intros q Hq; try done.
  - (* outside a match *)
    simpl. destruct ((c =? 60) && hasGt r) eqn:E.
    + apply andb_true_iff in E as [Hc Hgt].
      apply N.eqb_eq in Hc. subst c.
      destruct q; simpl in Hq; [| done].
      by apply (IH2 true).
    + simpl in *. destruct q.
      * destruct (c =? 93); [by apply IH1 |].
        apply andb_true_iff in Hq as [-> Hq]. simpl. by apply IH1.
      * destruct (c =? 91); [by apply IH1 |].
        apply andb_true_iff in Hq as [-> Hq]. simpl. by apply IH1.
  - (* inside a match *)
    intros Hgt. simpl in *. destruct (c =? 62) eqn:E.
    + apply N.eqb_eq in E. subst c.
      destruct q; simpl in Hq; [| done]. by apply IH1.
    + destruct q.
      * destruct (c =? 93); [by apply (IH2 false) |].
        apply andb_true_iff in Hq as [_ Hq]. by apply (IH2 true).
      * destruct (c =? 91); [by apply (IH2 true) |].
        apply andb_true_iff in Hq as [_ Hq]. by apply (IH2 false).
Qed.

Lemma annotationOnly_stripBrackets s :
  (Vtt.annotationOnlyAux false s = true →
     forallb isWhiteSpace (stripBracketsAux false s) = true)
  ∧ (Vtt.annotationOnlyAux true s = true →
     closes s = true
     ∧ forallb isWhiteSpace (stripBracketsAux true s) = true).
Proof.
  induction s as [| c r [IH1 IH2]]; split; intros Hq; try done.
  - simpl in *. destruct (c =? 91) eqn:E.
    + destruct (IH2 Hq) as [-> Hw]. done.
    + apply andb_true_iff in Hq as [Hc Hq]. simpl.
      rewrite Hc. by apply IH1.
  - simpl in *. destruct (c =? 93) eqn:E.
    + split; [done | by apply IH1].
    + apply andb_true_iff in Hq as [Hc Hq].
      apply negb_true_iff in Hc. rewrite Hc. by apply IH2.
Qed.

Lemma annotationLine_clean t :
  Vtt.isAnnotationLine t = true → Vtt.cleanLine t = [].
Proof.
  intros H. unfold Vtt.cleanLine, stripTags, stripBrackets.
  apply (proj1 (annotationOnly_stripTags t)) in H.
  apply (proj1 (annotationOnly_stripBrackets _)) in H.
  by apply trim_white.
Qed.

(** In a line that mixes tags and annotations, the matches of the tag
    pattern are the tags: removing them leaves the annotations. *)
Lemma tagsAndAnnotations_stripTags s q :
  Vtt.tagsAndAnnotationsAux q s = true →
  (q = Vtt.InTag → hasGt s = true)
  ∧ Vtt.annotationOnlyAux (match q with Vtt.InBracket => true | _ => false end)
      (stripTagsAux (match q with Vtt.InTag => true | _ => false end) s)
    = true.
Proof.
  revert q. induction s as [| c r IH]; intros q H.
  - by destruct q.
  - destruct q; simpl in H |- *.
    + destruct (c =? 60) eqn:E60.
      * destruct (IH _ H) as [Hgt Hann]. rewrite (Hgt eq_refl). by split.
      * simpl. destruct (c =? 91) eqn:E91.
        -- destruct (IH _ H) as [_ Hann]. by split.
        -- apply andb_true_iff in H as [Hc Hr]. rewrite Hc. simpl.
           destruct (IH _ Hr) as [_ Hann]. by split.
    + destruct (c =? 62) eqn:E62.
      * destruct (IH _ H) as [_ Hann]. by split.
      * destruct (IH _ H) as [Hgt Hann]. split; [intros _; by apply Hgt | done].
    + split; [done |]. destruct (c =? 93) eqn:E93.
      * apply N.eqb_eq in E93. subst c. simpl.
        destruct (IH _ H) as [_ Hann]. done.
      * apply andb_true_iff in H as [[Hlt H60]%andb_true_iff Hr].
        apply negb_true_iff in H60. rewrite H60. simpl. rewrite E93, Hlt.
        destruct (IH _ Hr) as [_ Hann]. done.
Qed.

Lemma tagsAndAnnotationsLine_clean t :
  Vtt.isTagsAndAnnotationsLine t = true → Vtt.cleanLine t = [].
Proof.
  intros H. unfold Vtt.cleanLine, stripTags, stripBrackets.
  apply tagsAndAnnotations_stripTags in H as [_ H].
  apply (proj1 (annotationOnly_stripBrackets _)) in H.
  by apply trim_white.
Qed.

(** A line without caption text adds nothing to [textLines]. *)
Lemma textLines_nonText line lines :
  Vtt.isNonTextLine line = true →
  Vtt.textLines (line :: lines) = Vtt.textLines lines.
Proof.
  unfold Vtt.isNonTextLine. simpl. intros H.
  destruct (Vtt.isSkipped (trim line)) eqn:Hs; [done |].
  unfold Vtt.isSkipped, Vtt.isHeaderLine, Vtt.isTimingLine, Vtt.isIndexLine in *.
  repeat (apply orb_true_iff in H as [H | H]);
    try (rewrite H in Hs; simpl in Hs;
         rewrite ?orb_true_r in Hs; discriminate).
  - by rewrite (markupLine_clean _ H).
  - by rewrite (annotationLine_clean _ H).
  - by rewrite (tagsAndAnnotationsLine_clean _ H).
Qed.

Lemma textLines_onlyNonText lines :
  forallb Vtt.isNonTextLine lines = true → Vtt.textLines lines = [].
Proof.
  induction lines as [| line rest IH]; [done |].
  intros [Hl Hr]%andb_true_iff.
  rewrite (textLines_nonText _ _ Hl). auto.
Qed.

Lemma fullParagraph_onlyNonText vttContent :
  Vtt.onlyNonTextLines vttContent = true → Vtt.fullParagraph vttContent = [].
Proof.
  intros H. unfold Vtt.fullParagraph.
  by rewrite (textLines_onlyNonText _ H).
Qed.

(** [textLines] as a filter over the lines. *)
Lemma textLines_filter lines :
  Vtt.textLines lines =
  List.filter (fun c => negb (Vtt.isEmpty c))
    (List.map (fun line => Vtt.cleanLine (trim line))
       (List.filter (fun line => negb (Vtt.isSkipped (trim line))) lines)).
Proof.
  induction lines as [| line rest IH]; [done |]. simpl.
  destruct (Vtt.isSkipped (trim line)); simpl; [done |].
  destruct (Vtt.isEmpty (Vtt.cleanLine (trim line))); simpl; by rewrite IH.
Qed.

Lemma elem_of_textLines lines x :
  x ∈ Vtt.textLines lines ↔
  x ≠ [] ∧ ∃ line, line ∈ lines ∧ Vtt.isSkipped (trim line) = false
                   ∧ x = Vtt.cleanLine (trim line).
Proof.
  induction lines as [| line rest IH]; simpl.
  - split; [by intros ?%elem_of_nil |].
    intros (_ & l & Hl%elem_of_nil & _). done.
  - destruct (Vtt.isSkipped (trim line)) eqn:Hs.
    + rewrite IH. split.
      * intros (Hne & l & Hl & H1 & H2). split; [done |].
        exists l. split; [by apply elem_of_cons; right | done].
      * intros (Hne & l & Hl & H1 & H2). split; [done |].
        apply elem_of_cons in Hl as [-> | Hl]; [congruence |].
        by exists l.
    + destruct (Vtt.cleanLine (trim line)) as [| c0 c] eqn:Hc; simpl.
      * rewrite IH. split.
        -- intros (Hne & l & Hl & H1 & H2). split; [done |].
           exists l. split; [by apply elem_of_cons; right | done].
        -- intros (Hne & l & Hl & H1 & H2). split; [done |].
           apply elem_of_cons in Hl as [-> | Hl]; [congruence |].
           by exists l.
      * rewrite elem_of_cons, IH. split.
        -- intros [-> | (Hne & l & Hl & H1 & H2)].
           ++ split; [done |]. exists line.
              split; [by apply elem_of_cons; left | done].
           ++ split; [done |]. exists l.
              split; [by apply elem_of_cons; right | done].
        -- intros (Hne & l & Hl & H1 & H2).
           apply elem_of_cons in Hl as [-> | Hl]; [left; congruence |].
           right. split; [done |]. by exists l.
Qed.

End CleaningFacts.

(** ** Nothing is left to strip from a cleaned line *)

Section StripFacts.

Implicit Types (s p q : jstring).

Lemma stripTags_noGt s : hasGt s = false → stripTagsAux false s = s.
Proof.
  induction s as [| c r IH]; [done |]. simpl.
  intros [Hc Hr]%orb_false_iff. rewrite Hr, andb_false_r.
  by rewrite IH.
Qed.

Lemma hasTag_noGt s : hasGt s = false → hasTag s = false.
Proof.
  induction s as [| c r IH]; [done |]. simpl.
  intros [Hc Hr]%orb_false_iff. rewrite Hr, andb_false_r. simpl. auto.
Qed.

Lemma stripTags_noTag s b : hasTag (stripTagsAux b s) = false.
Proof.
  revert b. induction s as [| c r IH]; intros b; [done |]. simpl.
  destruct b.
  - destruct (c =? 62); apply IH.
  - destruct (c =? 60) eqn:Ec; simpl.
    + destruct (hasGt r) eqn:Eg; [apply IH |]. simpl.
      rewrite Ec, (stripTags_noGt _ Eg), Eg. simpl.
      by apply hasTag_noGt.
    + rewrite Ec. simpl. apply IH.
Qed.

Lemma hasGt_app p q : hasGt p = true → hasGt (p ++ q) = true.
Proof. unfold hasGt. rewrite existsb_app. by intros ->. Qed.

Lemma hasTag_app p q : hasTag p = true → hasTag (p ++ q) = true.
Proof.
  induction p as [| c r IH]; [done |]. simpl.
  intros [[Hc Hg]%andb_true_iff | H]%orb_true_iff.
  - by rewrite Hc, (hasGt_app _ _ Hg).
  - rewrite (IH H). apply orb_true_r.
Qed.

Lemma closes_app p q : closes p = true → closes (p ++ q) = true.
Proof.
  induction p as [| c r IH]; [done |]. simpl.
  destruct (c =? 93); [done |]. destruct (isLineTerminator c); [done |]. auto.
Qed.

Lemma hasAnnotation_app p q :
  hasAnnotation p = true → hasAnnotation (p ++ q) = true.
Proof.
  induction p as [| c r IH]; [done |]. simpl.
  intros [[Hc Hg]%andb_true_iff | H]%orb_true_iff.
  - by rewrite Hc, (closes_app _ _ Hg).
  - rewrite (IH H). apply orb_true_r.
Qed.

Lemma trimStart_suffix s : ∃ p, s = p ++ trimStart s.
Proof.
  induction s as [| c r [p Hp]].
  - by exists [].
  - simpl. destruct (isWhiteSpace c).
    + exists (c :: p). simpl. by f_equal.
    + by exists [].
Qed.

Lemma trimEnd_prefix s : ∃ q, s = trimEnd s ++ q.
Proof.
  unfold trimEnd. destruct (trimStart_suffix (rev s)) as [p Hp].
  exists (rev p). rewrite <- rev_app_distr, <- Hp. by rewrite rev_involutive.
Qed.

Lemma hasTag_suffix p s : hasTag s = true → hasTag (p ++ s) = true.
Proof.
  induction p as [| c r IH]; [done |]. simpl. intros H.
  rewrite (IH H). apply orb_true_r.
Qed.

Lemma hasAnnotation_suffix p s :
  hasAnnotation s = true → hasAnnotation (p ++ s) = true.
Proof.
  induction p as [| c r IH]; [done |]. simpl. intros H.
  rewrite (IH H). apply orb_true_r.
Qed.

Lemma trim_noTag s : hasTag s = false → hasTag (trim s) = false.
Proof.
  intros H. unfold trim.
  destruct (hasTag (trimEnd (trimStart s))) eqn:E; [| done].
  destruct (trimEnd_prefix (trimStart s)) as [q Hq].
  destruct (trimStart_suffix s) as [p Hp].
  apply (hasTag_app _ q) in E. rewrite <- Hq in E.
  apply (hasTag_suffix p) in E. rewrite <- Hp in E. congruence.
Qed.

Lemma trim_noAnnotation s :
  hasAnnotation s = false → hasAnnotation (trim s) = false.
Proof.
  intros H. unfold trim.
  destruct (hasAnnotation (trimEnd (trimStart s))) eqn:E; [| done].
  destruct (trimEnd_prefix (trimStart s)) as [q Hq].
  destruct (trimStart_suffix s) as [p Hp].
  apply (hasAnnotation_app _ q) in E. rewrite <- Hq in E.
  apply (hasAnnotation_suffix p) in E. rewrite <- Hp in E. congruence.
Qed.

(** Removing annotations creates no tag. *)
Lemma stripBrackets_hasGt s b :
  hasGt (stripBracketsAux b s) = true → hasGt s = true.
Proof.
  revert b. induction s as [| c r IH]; intros b; [done |]. simpl.
  destruct b.
  - destruct (c =? 93); intros H%IH; rewrite H; apply orb_true_r.
  - destruct ((c =? 91) && closes r); simpl.
    + intros H%IH. rewrite H. apply orb_true_r.
    + intros [H | H%IH]%orb_true_iff; rewrite H; [done | apply orb_true_r].
Qed.

Lemma stripBrackets_hasTag s b :
  hasTag (stripBracketsAux b s) = true → hasTag s = true.
Proof.
  revert b. induction s as [| c r IH]; intros b; [done |]. simpl.
  destruct b.
  - destruct (c =? 93); intros H%IH; rewrite H; apply orb_true_r.
  - destruct ((c =? 91) && closes r); simpl.
    + intros H%IH. rewrite H. apply orb_true_r.
    + intros [[Hc Hg%stripBrackets_hasGt]%andb_true_iff | H%IH]%orb_true_iff.
      * by rewrite Hc, Hg.
      * rewrite H. apply orb_true_r.
Qed.

Lemma stripBrackets_closes s :
  closes s = false → closes (stripBracketsAux false s) = false.
Proof.
  induction s as [| c r IH]; [done |]. simpl.
  destruct (c =? 93) eqn:E93; [done |].
  destruct (isLineTerminator c) eqn:Elt.
  - intros _. destruct (c =? 91) eqn:E91.
    + apply N.eqb_eq in E91. subst c. done.
    + simpl. by rewrite E93, Elt.
  - intros H. rewrite H, andb_false_r. simpl. rewrite E93, Elt. auto.
Qed.

Lemma stripBrackets_noAnnotation s b :
  hasAnnotation (stripBracketsAux b s) = false.
Proof.
  revert b. induction s as [| c r IH]; intros b; [done |]. simpl.
  destruct b.
  - destruct (c =? 93); apply IH.
  - destruct (c =? 91) eqn:Ec; simpl.
    + destruct (closes r) eqn:Eg; [apply IH |]. simpl.
      rewrite Ec, (stripBrackets_closes _ Eg). simpl. apply IH.
    + rewrite Ec. simpl. apply IH.
Qed.

Lemma cleanLine_noTag t : hasTag (Vtt.cleanLine t) = false.
Proof.
  unfold Vtt.cleanLine. apply trim_noTag.
  destruct (hasTag (stripBrackets (stripTags t))) eqn:E; [| done].
  apply stripBrackets_hasTag in E.
  unfold stripTags in E. by rewrite stripTags_noTag in E.
Qed.

Lemma cleanLine_noAnnotation t : hasAnnotation (Vtt.cleanLine t) = false.
Proof.
  unfold Vtt.cleanLine. apply trim_noAnnotation, stripBrackets_noAnnotation.
Qed.

End StripFacts.

(** ** Rules for the monad *)

Section MonadRules.

Context {A B : Type}.
Implicit Types (R : State → State → Prop) (st : State).

Lemma bind_returned (m : M A) (k : A → M B) st a st' :
  m st = (Returned a, st') → bind m k st = k a st'.
Proof. unfold bind. by intros ->. Qed.

Lemma bind_thrown (m : M A) (k : A → M B) st e st' :
  m st = (Thrown e, st') → bind m k st = (Thrown e, st').
Proof. unfold bind. by intros ->. Qed.

Lemma tryCatch_returned (m : M A) h st a st' :
  m st = (Returned a, st') → tryCatch m h st = (Returned a, st').
Proof. unfold tryCatch. by intros ->. Qed.

Lemma tryCatch_thrown (m : M A) h st e st' :
  m st = (Thrown e, st') → tryCatch m h st = h e st'.
Proof. unfold tryCatch. by intros ->. Qed.

Lemma extends_ret R `{!Reflexive R} (a : A) : extends R (ret a).
Proof. intros st. simpl. reflexivity. Qed.

Lemma extends_throw R `{!Reflexive R} e : extends R (throw (A:=A) e).
Proof. intros st. simpl. reflexivity. Qed.

Lemma extends_bind R `{!Transitive R} (m : M A) (k : A → M B) :
  extends R m → (∀ a, extends R (k a)) → extends R (bind m k).
Proof.
  intros Hm Hk st. unfold bind. specialize (Hm st).
  destruct (m st) as [[a | e] st1]; simpl in *; [| done].
  etransitivity; [exact Hm | apply Hk].
Qed.

Lemma extends_tryCatch R `{!Transitive R} (m : M A) h :
  extends R m → (∀ e, extends R (h e)) → extends R (tryCatch m h).
Proof.
  intros Hm Hh st. unfold tryCatch. specialize (Hm st).
  destruct (m st) as [[a | e] st1]; simpl in *; [done |].
  etransitivity; [exact Hm | apply Hh].
Qed.

Lemma extends_tryFinally R `{!Transitive R} (m : M A) f :
  extends R m → extends R f → extends R (tryFinally m f).
Proof.
  intros Hm Hf st. unfold tryFinally. specialize (Hm st).
  destruct (m st) as [o st1]. specialize (Hf st1). simpl in *.
  destruct (f st1) as [[[] | e] st2]; simpl in *; by etransitivity.
Qed.

Lemma extends_liftSum R `{!Reflexive R} (r : JsError + A) :
  extends R (liftSum r).
Proof. destruct r; [apply extends_throw | apply extends_ret]; done. Qed.

End MonadRules.

Section Relations.

#[global] Instance emitsOnly_refl ok : Reflexive (emitsOnly ok).
Proof. intros st. exists []. by rewrite app_nil_r. Qed.

#[global] Instance emitsOnly_trans ok : Transitive (emitsOnly ok).
Proof.
  intros s1 s2 s3 (e1 & H1 & F1) (e2 & H2 & F2).
  exists (e1 ++ e2). rewrite H2, H1, <- app_assoc. split; [done |].
  rewrite forallb_app, F1, F2. done.
Qed.

#[global] Instance touchesOnly_refl ps : Reflexive (touchesOnly ps).
Proof. by intros st q _. Qed.

#[global] Instance touchesOnly_trans ps : Transitive (touchesOnly ps).
Proof.
  intros s1 s2 s3 H1 H2 q Hq. by rewrite (H2 q Hq), (H1 q Hq).
Qed.

Lemma emitsOnly_weaken (ok ok' : Event → bool) st st' :
  (∀ e, ok e = true → ok' e = true) →
  emitsOnly ok st st' → emitsOnly ok' st st'.
Proof.
  intros Himp (evs & Ht & Hf). exists evs. split; [done |].
  apply forallb_forall. intros e He.
  apply Himp. by eapply forallb_forall in Hf.
Qed.

Lemma emitsOnly_elem ok st st' e :
  emitsOnly ok st st' → e ∈ trace st' → e ∈ trace st ∨ ok e = true.
Proof.
  intros (evs & Ht & Hf). rewrite Ht, elem_of_app.
  intros [? | He]; [by left | right].
  eapply forallb_forall in Hf; [done |]. by apply list_elem_of_In.
Qed.

Lemma emitsOnly_mono ok st st' e :
  emitsOnly ok st st' → e ∈ trace st → e ∈ trace st'.
Proof. intros (evs & -> & _) ?. apply elem_of_app. by left. Qed.

Lemma extends_emit_events ok e : ok e = true → extends (emitsOnly ok) (emit e).
Proof. intros He st. exists [e]. simpl. by rewrite He. Qed.

Lemma extends_emit_files ps e : extends (touchesOnly ps) (emit e).
Proof. by intros st q _. Qed.

Lemma extends_lookupFile R `{!Reflexive R} p : extends R (lookupFile p).
Proof. intros st. simpl. reflexivity. Qed.

Lemma extends_hasDir R `{!Reflexive R} p : extends R (hasDir p).
Proof. intros st. simpl. reflexivity. Qed.

Lemma extends_modifyFiles_events ok f : extends (emitsOnly ok) (modifyFiles f).
Proof. intros st. exists []. simpl. by rewrite app_nil_r. Qed.

Lemma extends_addDir_events ok p : extends (emitsOnly ok) (addDir p).
Proof. intros st. exists []. simpl. by rewrite app_nil_r. Qed.

Lemma extends_addDir_files ps p : extends (touchesOnly ps) (addDir p).
Proof. by intros st q _. Qed.

Lemma extends_modifyFiles_files ps f :
  (∀ m q, q ∉ ps → f m !! q = m !! q) →
  extends (touchesOnly ps) (modifyFiles f).
Proof. intros Hf st q Hq. simpl. by apply Hf. Qed.

End Relations.

(** Decomposition of a goal [extends R m] along the structure of [m]. *)
Ltac ext_step :=
  match goal with
  | |- extends _ (bind _ _) => apply extends_bind; [apply _ | | intros ?]
  | |- extends _ (tryCatch _ _) => apply extends_tryCatch; [apply _ | | intros ?]
  | |- extends _ (tryFinally _ _) => apply extends_tryFinally; [apply _ | |]
  | |- extends _ (ret _) => apply extends_ret; apply _
  | |- extends _ (throw _) => apply extends_throw; apply _
  | |- extends _ (liftSum _) => apply extends_liftSum; apply _
  | |- extends _ (lookupFile _) => apply extends_lookupFile; apply _
  | |- extends _ (hasDir _) => apply extends_hasDir; apply _
  | |- extends _ (console _) => unfold console
  | |- extends (emitsOnly _) (emit _) => apply extends_emit_events; reflexivity
  | |- extends (emitsOnly _) (modifyFiles _) => apply extends_modifyFiles_events
  | |- extends (emitsOnly _) (addDir _) => apply extends_addDir_events
  | |- extends (touchesOnly _) (emit _) => apply extends_emit_files
  | |- extends (touchesOnly _) (addDir _) => apply extends_addDir_files
  | |- extends _ (match ?x with _ => _ end) => destruct x
  end.

Ltac ext := repeat ext_step.


(** ** The helpers of the pipeline *)

Lemma not_elem_singleton (p q : jstring) : q ∉ [p] → p ≠ q.
Proof. intros H ->. apply H, list_elem_of_here. Qed.

Section Helpers.

Variable w : World.
Implicit Types (st : State) (p q url vid : jstring).


(** *** safeDeleteFile *)

Lemma safeDeleteFile_eq p st :
  safeDeleteFile w p st =
  (Returned tt,
   match files st !! p with
   | None => st
   | Some _ =>
       match unlinkSync_throws w p with
       | Some e =>
           mkState (files st) (dirs st)
             (trace st ++ [EUnlink p; EConsole (WarnCouldNotDelete p e)])
       | None =>
           mkState (delete p (files st)) (dirs st)
             (trace st ++ [EUnlink p; EConsole (LogCleanedUp p)])
       end
   end).
Proof.
  unfold safeDeleteFile, tryCatch, existsSync, unlinkSync, bind, lookupFile,
    console, emit, modifyFiles, ret, throw.
  destruct (files st !! p) as [c |] eqn:E.
  - rewrite bool_decide_eq_true_2 by eauto.
    destruct (unlinkSync_throws w p); simpl; by rewrite <- app_assoc.
  - rewrite bool_decide_eq_false_2 by (by intros [? ?]). done.
Qed.

Lemma safeDeleteFile_returns p st : fst (safeDeleteFile w p st) = Returned tt.
Proof. by rewrite safeDeleteFile_eq. Qed.

Lemma safeDeleteFile_events p :
  extends (emitsOnly isCaptionStageEvent) (safeDeleteFile w p).
Proof. unfold safeDeleteFile, existsSync, unlinkSync. ext. Qed.

Lemma safeDeleteFile_files p : extends (touchesOnly [p]) (safeDeleteFile w p).
Proof.
  unfold safeDeleteFile, existsSync, unlinkSync. ext.
  apply extends_modifyFiles_files. intros m q Hq%not_elem_singleton.
  by apply lookup_delete_ne.
Qed.

Lemma safeDeleteFile_dirs p st : dirs (snd (safeDeleteFile w p st)) = dirs st.
Proof.
  rewrite safeDeleteFile_eq. simpl.
  destruct (files st !! p); [| done]. by destruct (unlinkSync_throws w p).
Qed.

Lemma safeDeleteFile_cleanedUp p st : cleanedUp w p (snd (safeDeleteFile w p st)).
Proof.
  rewrite safeDeleteFile_eq. simpl. unfold cleanedUp.
  destruct (files st !! p) as [c |] eqn:E; [| by left].
  destruct (unlinkSync_throws w p) as [e |] eqn:Eu; simpl.
  - right. exists e. split; [done |].
    set_solver.
  - left. apply lookup_delete_eq.
Qed.

End Helpers.

(** ** Triples *)

Section HoareRules.

Context {A B : Type}.
Implicit Types (P : State → Prop) (st : State).

Lemma hoare_consequence P P' (m : M A) (Q Q' : Outcome A → State → Prop) :
  hoare P' m Q' → (∀ st, P st → P' st) → (∀ o st, Q' o st → Q o st) →
  hoare P m Q.
Proof. intros Hm HP HQ st Hst. apply HQ, Hm, HP, Hst. Qed.

Lemma hoare_ret P (a : A) (Q : Outcome A → State → Prop) :
  (∀ st, P st → Q (Returned a) st) → hoare P (ret a) Q.
Proof. intros H st Hst. by apply H. Qed.

Lemma hoare_throw P e (Q : Outcome A → State → Prop) :
  (∀ st, P st → Q (Thrown e) st) → hoare P (throw e) Q.
Proof. intros H st Hst. by apply H. Qed.

Lemma hoare_bind P (m : M A) (k : A → M B) (P' : A → State → Prop)
    (Q : Outcome B → State → Prop) :
  hoare P m (λ o s, match o with
                    | Returned a => P' a s
                    | Thrown e => Q (Thrown e) s
                    end) →
  (∀ a, hoare (P' a) (k a) Q) →
  hoare P (bind m k) Q.
Proof.
  intros Hm Hk st Hst. specialize (Hm st Hst). unfold bind.
  destruct (m st) as [[a | e] st1]; simpl in *; [by apply Hk | done].
Qed.

(** When the postcondition accepts every throw, only the continuation
    matters. *)
Lemma hoare_bind_lax P (m : M A) (k : A → M B) (Q : Outcome B → State → Prop) :
  (∀ e s, Q (Thrown e) s) →
  (∀ a, hoare (λ _, True) (k a) Q) →
  hoare P (bind m k) Q.
Proof.
  intros HQ Hk st _. unfold bind.
  destruct (m st) as [[a | e] st1]; simpl; [by apply Hk | apply HQ].
Qed.

Lemma hoare_tryCatch P (m : M A) h (P' : JsError → State → Prop)
    (Q : Outcome A → State → Prop) :
  hoare P m (λ o s, match o with
                    | Returned a => Q (Returned a) s
                    | Thrown e => P' e s
                    end) →
  (∀ e, hoare (P' e) (h e) Q) →
  hoare P (tryCatch m h) Q.
Proof.
  intros Hm Hh st Hst. specialize (Hm st Hst). unfold tryCatch.
  destruct (m st) as [[a | e] st1]; simpl in *; [done | by apply Hh].
Qed.

End HoareRules.

Section CaptionPath.

Variable w : World.
Implicit Types (st : State) (p q url vid : jstring).

Lemma captionRecover_returns e st : fst (captionRecover e st) = Returned None.
Proof.
  unfold captionRecover, bind, console, emit, ret.
  destruct (err_stderr e) as [s |]; [| done].
  by destruct (includes _ s).
Qed.

Lemma fullParagraph_positive c :
  (0 <? length (Vtt.fullParagraph c))%nat = true → Vtt.fullParagraph c ≠ [].
Proof. intros H Hnil. rewrite Hnil in H. done. Qed.

Lemma captionAttempt_result url vid :
  hoare (λ _, True) (captionAttempt w url vid)
    (λ o _, match o with
            | Returned (Some p) => p ≠ []
            | _ => True
            end).
Proof.
  unfold captionAttempt.
  repeat (apply hoare_bind_lax; [done | intros ?]).
  destruct (0 <? length _)%nat eqn:E.
  - apply hoare_bind_lax; [done | intros ?].
    apply hoare_ret. intros _ _. by apply fullParagraph_positive.
  - apply hoare_bind_lax; [done | intros ?]. by apply hoare_ret.
Qed.

Lemma downloadAndClean_eq url vid st :
  downloadAndCleanYtDlpTranscript w url vid st =
  (fst (tryCatch (captionAttempt w url vid) captionRecover st),
   snd (safeDeleteFile w (tempVttFile w vid)
          (snd (tryCatch (captionAttempt w url vid) captionRecover st)))).
Proof.
  unfold downloadAndCleanYtDlpTranscript, tryFinally.
  destruct (tryCatch _ _ st) as [o st1]. rewrite !safeDeleteFile_eq. reflexivity.
Qed.

(** The caption method never throws, and a paragraph it returns is not
    empty. *)
Lemma downloadAndClean_returns url vid st :
  ∃ captions,
    fst (downloadAndCleanYtDlpTranscript w url vid st) = Returned captions
    ∧ truthy captions = bool_decide (captions ≠ None).
Proof.
  rewrite downloadAndClean_eq. simpl. unfold tryCatch.
  pose proof (captionAttempt_result url vid st I) as H.
  destruct (captionAttempt w url vid st) as [[o | e] st1]; simpl in *.
  - exists o. split; [done |]. destruct o as [[| c p] |]; done.
  - rewrite (surjective_pairing (captionRecover e st1)).
    rewrite captionRecover_returns. by exists None.
Qed.

Lemma downloadAndClean_events url vid :
  extends (emitsOnly isCaptionStageEvent)
    (downloadAndCleanYtDlpTranscript w url vid).
Proof.
  unfold downloadAndCleanYtDlpTranscript.
  apply extends_tryFinally; [apply _ | | apply safeDeleteFile_events].
  unfold captionAttempt, captionRecover, execPromise, readFile. ext.
Qed.

Lemma downloadAndClean_files url vid :
  extends (touchesOnly [tempVttFile w vid])
    (downloadAndCleanYtDlpTranscript w url vid).
Proof.
  unfold downloadAndCleanYtDlpTranscript.
  apply extends_tryFinally; [apply _ | | apply safeDeleteFile_files].
  unfold captionAttempt, captionRecover, execPromise, readFile. ext.
  apply extends_modifyFiles_files. intros m q Hq%not_elem_singleton.
  by apply lookup_insert_ne.
Qed.

Lemma downloadAndClean_cleanedUp url vid st :
  cleanedUp w (tempVttFile w vid)
    (snd (downloadAndCleanYtDlpTranscript w url vid st)).
Proof. rewrite downloadAndClean_eq. simpl. apply safeDeleteFile_cleanedUp. Qed.

End CaptionPath.

(** ** What a computation logs first *)

Section FirstEmits.

Context {A B : Type}.

Lemma firstEmits_nil (m : M A) : extends (emitsOnly anyEvent) m → firstEmits [] m.
Proof. intros H st. destruct (H st) as (evs & Ht & _). by exists evs. Qed.

Lemma firstEmits_emit_bind e l (k : unit → M B) :
  firstEmits l (k tt) → firstEmits (e :: l) (bind (emit e) k).
Proof.
  intros H st. unfold bind, emit.
  destruct (H (mkState (files st) (dirs st) (trace st ++ [e]))) as (evs & Ht).
  exists evs. rewrite Ht. simpl. by rewrite <- app_assoc.
Qed.

Lemma firstEmits_bind l (m : M A) (k : A → M B) :
  firstEmits l m → (∀ a, extends (emitsOnly anyEvent) (k a)) →
  firstEmits l (bind m k).
Proof.
  intros Hm Hk st. unfold bind. destruct (Hm st) as (evs & Ht).
  destruct (m st) as [[a | e] st1]; simpl in *; [| by exists evs].
  destruct (Hk a st1) as (evs' & Ht' & _).
  exists (evs ++ evs'). by rewrite Ht', Ht, <- !app_assoc.
Qed.

Lemma firstEmits_tryCatch l (m : M A) h :
  firstEmits l m → (∀ e, extends (emitsOnly anyEvent) (h e)) →
  firstEmits l (tryCatch m h).
Proof.
  intros Hm Hh st. unfold tryCatch. destruct (Hm st) as (evs & Ht).
  destruct (m st) as [[a | e] st1]; simpl in *; [by exists evs |].
  destruct (Hh e st1) as (evs' & Ht' & _).
  exists (evs ++ evs'). by rewrite Ht', Ht, <- !app_assoc.
Qed.

Lemma firstEmits_tryFinally l (m : M A) f :
  firstEmits l m → extends (emitsOnly anyEvent) f →
  firstEmits l (tryFinally m f).
Proof.
  intros Hm Hf st. unfold tryFinally. destruct (Hm st) as (evs & Ht).
  destruct (m st) as [o st1]. simpl in *.
  destruct (Hf st1) as (evs' & Ht' & _).
  exists (evs ++ evs').
  destruct (f st1) as [[[] | e] st2]; simpl in *;
    by rewrite Ht', Ht, <- !app_assoc.
Qed.

End FirstEmits.

Lemma extends_anyEvent {A} ok (m : M A) :
  extends (emitsOnly ok) m → extends (emitsOnly anyEvent) m.
Proof. intros H st. by eapply emitsOnly_weaken; [| apply H]. Qed.

Section CaptionFirst.

Variable w : World.
Implicit Types (st : State) (p q url vid : jstring).

Lemma downloadAndClean_first url vid :
  firstEmits [EConsole LogStartingYtDlp; EExec (ytDlpCommand w url vid)]
    (downloadAndCleanYtDlpTranscript w url vid).
Proof.
  unfold downloadAndCleanYtDlpTranscript.
  apply firstEmits_tryFinally;
    [| eapply extends_anyEvent, safeDeleteFile_events].
  apply firstEmits_tryCatch.
  - unfold captionAttempt, console. apply firstEmits_emit_bind.
    apply firstEmits_bind.
    + unfold execPromise. apply firstEmits_emit_bind, firstEmits_nil. ext.
    + intros _. unfold readFile. ext.
  - intros e. unfold captionRecover. ext.
Qed.

Lemma extractTranscript_eq url vid st :
  url ≠ [] → vid ≠ [] →
  extractTranscript w url vid st =
  bind (downloadAndCleanYtDlpTranscript w url vid)
    (λ t, if truthy t then captionsResult w url t
          else deepgramFallback w url vid) st.
Proof. intros Hu Hv. unfold extractTranscript. by destruct url, vid. Qed.

Lemma extractTranscript_captions url vid st t st1 :
  url ≠ [] → vid ≠ [] →
  downloadAndCleanYtDlpTranscript w url vid st = (Returned t, st1) →
  extractTranscript w url vid st =
  if truthy t then captionsResult w url t st1
  else deepgramFallback w url vid st1.
Proof.
  intros Hu Hv H. rewrite extractTranscript_eq by done.
  rewrite (bind_returned _ _ _ _ _ H). by destruct (truthy t).
Qed.

(** *** The caption result *)

Lemma captionsResult_returns url t st :
  fst (captionsResult w url t st) =
  Returned {| transcript := t;
              speakers := None;
              method := YoutubeCaptionsYdlp;
              confidence := None;
              metadata := match ytdl_getInfo w url with
                          | inr info => Some (metadataOf info)
                          | inl _ => None
                          end |}.
Proof.
  unfold captionsResult, bind, tryCatch, emit, liftSum, console, ret, throw.
  by destruct (ytdl_getInfo w url).
Qed.

Lemma captionsResult_events url t :
  extends (emitsOnly isCaptionMethodEvent) (captionsResult w url t).
Proof. unfold captionsResult. ext. Qed.

Lemma captionsResult_files url t :
  extends (touchesOnly []) (captionsResult w url t).
Proof. unfold captionsResult. ext. Qed.

End CaptionFirst.

(** ** The audio path *)

Section AudioPath.

Variable w : World.
Implicit Types (st : State) (p q url vid : jstring).

Lemma cleanedUp_preserved p st st' :
  cleanedUp w p st →
  files st' !! p = files st !! p →
  emitsOnly anyEvent st st' →
  cleanedUp w p st'.
Proof.
  intros [Hnone | (e & He & Hlog)] Hf Ht.
  - left. by rewrite Hf.
  - right. exists e. split; [done |]. by eapply emitsOnly_mono.
Qed.

Lemma cleanedUp_emit p e st :
  cleanedUp w p st → cleanedUp w p (snd (emit e st)).
Proof.
  intros H. eapply cleanedUp_preserved; [done | done |].
  by apply extends_emit_events.
Qed.

(** *** downloadAudio *)

Lemma runStreams_outcome p evs st :
  fst (runStreams p evs st) =
  match streamRejection evs with
  | Some e => Thrown e
  | None => Returned tt
  end.
Proof.
  revert st. induction evs as [| ev rest IH]; intros st; [done |].
  destruct ev; simpl; unfold bind, modifyFiles; simpl; try done; apply IH.
Qed.

Lemma downloadAudio_outcome url p st :
  fst (downloadAudio w url p st) =
  match downloadRejection (ytdl_download w url) with
  | Some e => Thrown e
  | None => Returned tt
  end.
Proof.
  unfold downloadAudio, downloadRejection.
  destruct (setup_throws _); [done |].
  unfold bind, emit. apply runStreams_outcome.
Qed.

Lemma runStreams_events p evs : extends (emitsOnly anyEvent) (runStreams p evs).
Proof. induction evs as [| [] rest IH]; simpl; ext; done. Qed.

Lemma runStreams_files p evs : extends (touchesOnly [p]) (runStreams p evs).
Proof.
  induction evs as [| [] rest IH]; simpl; ext; try done.
  - apply extends_modifyFiles_files. intros m q Hq%not_elem_singleton.
    by apply lookup_insert_ne.
  - apply extends_modifyFiles_files. intros m q Hq%not_elem_singleton.
    by apply lookup_alter_ne.
Qed.

Lemma downloadAudio_events url p : extends (emitsOnly anyEvent) (downloadAudio w url p).
Proof. unfold downloadAudio. ext. apply runStreams_events. Qed.

Lemma downloadAudio_files url p : extends (touchesOnly [p]) (downloadAudio w url p).
Proof. unfold downloadAudio. ext. apply runStreams_files. Qed.

(** When the timer elapses on a running download, both streams are
    destroyed and the promise is rejected with the timeout error. *)
Lemma runStreams_timeout p evs st :
  forallb isProgress evs = true →
  ∃ st', runStreams p evs st = (Thrown timeoutError, st')
         ∧ trace st' = trace st ++ [EDestroyDownloadStream; EDestroyAudioStream].
Proof.
  revert st. induction evs as [| ev rest IH]; intros st H.
  - eexists. split; [reflexivity |]. simpl. by rewrite <- app_assoc.
  - destruct ev; try done; simpl in H; simpl; unfold bind, modifyFiles; simpl.
    + destruct (IH (mkState (<[p:=[]]> (files st)) (dirs st) (trace st)) H)
        as (st' & Hr & Ht).
      by exists st'.
    + destruct (IH (mkState (alter (λ c, c ++ chunk) p (files st))
                      (dirs st) (trace st)) H) as (st' & Hr & Ht).
      by exists st'.
Qed.

Lemma downloadAudio_timeout url p st :
  stillRunningAtTimeout (ytdl_download w url) = true →
  ∃ st', downloadAudio w url p st = (Thrown timeoutError, st')
         ∧ trace st' = trace st ++ [EOpenStreams url p; ESetTimeout 300000;
                                    EDestroyDownloadStream; EDestroyAudioStream].
Proof.
  unfold stillRunningAtTimeout, downloadAudio.
  destruct (setup_throws _); [done |]. intros H.
  unfold bind, emit. cbn [fst snd files dirs trace].
  destruct (runStreams_timeout p _
              (mkState (files st) (dirs st)
                 ((trace st ++ [EOpenStreams url p]) ++ [ESetTimeout (5 * 60 * 1000)]))
              H)
    as (st' & Hr & Ht).
  exists st'. split; [done |]. rewrite Ht. simpl. by rewrite <- !app_assoc.
Qed.

Lemma stillRunning_rejection plan :
  stillRunningAtTimeout plan = true → downloadRejection plan = Some timeoutError.
Proof.
  unfold stillRunningAtTimeout, downloadRejection.
  destruct (setup_throws plan); [done |].
  induction (before_timeout plan) as [| [] rest IH]; simpl; auto; done.
Qed.

(** *** ensureTranscriptsDirectory *)

Lemma ensureTranscriptsDirectory_events ok :
  (∀ p, ok (EMkdir p) = true) →
  extends (emitsOnly ok) (ensureTranscriptsDirectory w).
Proof.
  intros Hok. unfold ensureTranscriptsDirectory, mkdirSync. ext.
  by apply extends_emit_events.
Qed.

Lemma ensureTranscriptsDirectory_files :
  extends (touchesOnly []) (ensureTranscriptsDirectory w).
Proof. unfold ensureTranscriptsDirectory, mkdirSync. ext. Qed.

Lemma ensureTranscriptsDirectory_returns st :
  mkdirSync_throws w (transcriptsDir w) = None →
  fst (ensureTranscriptsDirectory w st) = Returned tt.
Proof.
  intros H. unfold ensureTranscriptsDirectory, mkdirSync, bind, hasDir, emit.
  destruct (bool_decide _); [done |]. by rewrite H.
Qed.

(** *** The catch block *)

Lemma recoverLogs_returns e st : fst (recoverLogs e st) = Returned tt.
Proof.
  unfold recoverLogs, bind, console, emit, ret.
  destruct (err_instanceofError e); [| done].
  destruct (_ || _); destruct (_ || _); done.
Qed.

Lemma recoverLogs_events e : extends (emitsOnly isCaptionStageEvent) (recoverLogs e).
Proof. unfold recoverLogs. ext. Qed.

Lemma recoverLogs_files e st : files (snd (recoverLogs e st)) = files st.
Proof.
  unfold recoverLogs, bind, console, emit, ret.
  destruct (err_instanceofError e); [| done].
  destruct (_ || _); destruct (_ || _); done.
Qed.

Lemma recoverLogs_dirs e st : dirs (snd (recoverLogs e st)) = dirs st.
Proof.
  unfold recoverLogs, bind, console, emit, ret.
  destruct (err_instanceofError e); [| done].
  destruct (_ || _); destruct (_ || _); done.
Qed.

Lemma deepgramRecover_eq p e st :
  deepgramRecover w p e st
  = (Returned failureResult, snd (safeDeleteFile w p (snd (recoverLogs e st)))).
Proof.
  unfold deepgramRecover, bind.
  rewrite (surjective_pairing (recoverLogs e st)), recoverLogs_returns.
  rewrite !safeDeleteFile_eq. reflexivity.
Qed.

Lemma deepgramRecover_returns p e st :
  fst (deepgramRecover w p e st) = Returned failureResult.
Proof. by rewrite deepgramRecover_eq. Qed.

Lemma deepgramRecover_cleanedUp p e st :
  cleanedUp w p (snd (deepgramRecover w p e st)).
Proof.
  rewrite deepgramRecover_eq. apply safeDeleteFile_cleanedUp.
Qed.

Lemma deepgramRecover_events p e :
  extends (emitsOnly isCaptionStageEvent) (deepgramRecover w p e).
Proof.
  unfold deepgramRecover. ext;
    [apply recoverLogs_events | apply safeDeleteFile_events].
Qed.

Lemma deepgramRecover_files p e :
  extends (touchesOnly [p]) (deepgramRecover w p e).
Proof.
  unfold deepgramRecover. ext; [| apply safeDeleteFile_files].
  intros st q _. by rewrite recoverLogs_files.
Qed.

End AudioPath.

Section Fallback.

Variable w : World.
Implicit Types (st : State) (p q url vid : jstring).

Lemma hoare_bind_value {A B} P (a : A) (k : A → M B) Q :
  hoare P (k a) Q → hoare P (bind (ret a) k) Q.
Proof. intros H st Hst. apply (H st Hst). Qed.

Lemma hoare_bind_thrown {A B} P e (k : A → M B) (Q : Outcome B → State → Prop) :
  (∀ st, Q (Thrown e) st) → hoare P (bind (throw e) k) Q.
Proof. intros H st _. apply H. Qed.

(** *** The try block *)

Lemma deepgramAttempt_events url p :
  extends (emitsOnly anyEvent) (deepgramAttempt w url p).
Proof.
  unfold deepgramAttempt, readFileSync. ext;
    first [apply downloadAudio_events
          | eapply extends_anyEvent, safeDeleteFile_events].
Qed.

Lemma deepgramAttempt_files url p :
  extends (touchesOnly [p]) (deepgramAttempt w url p).
Proof.
  unfold deepgramAttempt, readFileSync. ext;
    first [apply downloadAudio_files | apply safeDeleteFile_files].
Qed.

(** Each failure named by the specification makes the try block throw. *)
Lemma deepgramAttempt_fails url p :
  AudioFailure w url →
  hoare (λ _, True) (deepgramAttempt w url p) (λ o _, ∃ e, o = Thrown e).
Proof.
  intros Hfail. unfold deepgramAttempt.
  apply hoare_bind_lax; [by eauto | intros _].
  apply hoare_bind_lax; [by eauto | intros _].
  destruct (ytdl_getInfo w url) as [e0 | info] eqn:Hinfo;
    [apply hoare_bind_thrown; by eauto |].
  apply hoare_bind_value.
  apply hoare_bind_lax; [by eauto | intros _].
  destruct (ytdl_chooseFormat w (formats info)) as [e1 | [fmt |]] eqn:Hfmt;
    [apply hoare_bind_thrown; by eauto | | ].
  2: { apply hoare_bind_value, hoare_throw. by eauto. }
  apply hoare_bind_value.
  apply hoare_bind_lax; [by eauto | intros _].
  destruct Hfail as [e Hm | info' Hm Hc | e Hd | Hs].
  - congruence.
  - assert (info' = info) as -> by congruence.
    destruct Hc as [Hc | [e Hc]]; congruence.
  - eapply hoare_bind with (P' := λ _ _, False); [| by intros ? ? []].
    intros st _. rewrite downloadAudio_outcome, Hd. by eauto.
  - apply hoare_bind_lax; [by eauto | intros _].
    apply hoare_bind_lax; [by eauto | intros _].
    apply hoare_bind_lax; [by eauto | intros buffer].
    apply hoare_bind_lax; [by eauto | intros _].
    specialize (Hs buffer).
    destruct (transcribeFile w buffer) as [e2 | response];
      [apply hoare_bind_thrown; by eauto |].
    apply hoare_bind_value.
    destruct (dg_error response); [| done].
    apply hoare_throw. by eauto.
Qed.

(** When the try block returns, it has run its clean-up, and the result
    carries the Deepgram tag and the metadata. *)
Lemma deepgramAttempt_returned url p :
  hoare (λ _, True) (deepgramAttempt w url p)
    (λ o st, match o with
             | Returned r =>
                 cleanedUp w p st ∧ method r = Deepgram
                 ∧ ∃ info, ytdl_getInfo w url = inr info
                           ∧ metadata r = Some (metadataOf info)
             | Thrown _ => True
             end).
Proof.
  unfold deepgramAttempt.
  apply hoare_bind_lax; [done | intros _].
  apply hoare_bind_lax; [done | intros _].
  destruct (ytdl_getInfo w url) as [e0 | info] eqn:Hinfo;
    [by apply hoare_bind_thrown |].
  apply hoare_bind_value.
  apply hoare_bind_lax; [done | intros _].
  apply hoare_bind_lax; [done | intros [fmt |]]; [| by apply hoare_throw].
  apply hoare_bind_lax; [done | intros _].
  apply hoare_bind_lax; [done | intros _].
  apply hoare_bind_lax; [done | intros _].
  apply hoare_bind_lax; [done | intros buffer].
  apply hoare_bind_lax; [done | intros _].
  apply hoare_bind_lax; [done | intros response].
  destruct (dg_error response); [by apply hoare_throw |].
  intros st _. unfold bind.
  rewrite (surjective_pairing (safeDeleteFile w p st)), safeDeleteFile_returns.
  simpl. split; [| split; [done | by exists info]].
  apply cleanedUp_emit, safeDeleteFile_cleanedUp.
Qed.

(** *** METHOD 2 as a whole *)

Lemma deepgramFallback_noKey url vid st :
  truthy (env_DEEPGRAM_API_KEY w) = false →
  deepgramFallback w url vid st =
  (Thrown keyMissing,
   mkState (files st) (dirs st) (trace st ++ [EConsole LogFallingBack])).
Proof. intros H. unfold deepgramFallback, bind, console, emit. by rewrite H. Qed.

Lemma deepgramFallback_events url vid :
  extends (emitsOnly anyEvent) (deepgramFallback w url vid).
Proof.
  unfold deepgramFallback. ext;
    first [by apply ensureTranscriptsDirectory_events
          | apply deepgramAttempt_events
          | eapply extends_anyEvent, deepgramRecover_events].
Qed.

Lemma deepgramFallback_first url vid :
  firstEmits [EConsole LogFallingBack] (deepgramFallback w url vid).
Proof.
  unfold deepgramFallback, console.
  apply firstEmits_emit_bind, firstEmits_nil. ext;
    first [by apply ensureTranscriptsDirectory_events
          | apply deepgramAttempt_events
          | eapply extends_anyEvent, deepgramRecover_events].
Qed.

Lemma deepgramFallback_files url vid :
  extends (touchesOnly [audioFilePath w vid]) (deepgramFallback w url vid).
Proof.
  unfold deepgramFallback. ext;
    first [apply deepgramAttempt_files | apply deepgramRecover_files | idtac].
  intros st q _. apply ensureTranscriptsDirectory_files, not_elem_of_nil.
Qed.

(** The state in which the try block starts. *)
Lemma deepgramFallback_try url vid st :
  truthy (env_DEEPGRAM_API_KEY w) = true →
  mkdirSync_throws w (transcriptsDir w) = None →
  ∃ st2,
    deepgramFallback w url vid st =
    tryCatch (deepgramAttempt w url (audioFilePath w vid))
             (deepgramRecover w (audioFilePath w vid)) st2
    ∧ files st2 = files st
    ∧ emitsOnly (λ e, negb (isTranscribeRequest e)) st st2.
Proof.
  intros Hkey Hmk. unfold deepgramFallback. rewrite Hkey.
  set (st1 := mkState (files st) (dirs st)
                (trace st ++ [EConsole LogFallingBack]
                 ++ [ECreateClient (default [] (env_DEEPGRAM_API_KEY w))])).
  exists (snd (ensureTranscriptsDirectory w st1)).
  split; [| split].
  - unfold bind at 1 2 3. unfold console, emit. simpl.
    rewrite <- app_assoc. fold st1.
    rewrite (surjective_pairing (ensureTranscriptsDirectory w st1)).
    by rewrite ensureTranscriptsDirectory_returns.
  - apply map_eq. intros q.
    apply (ensureTranscriptsDirectory_files w st1 q), not_elem_of_nil.
  - transitivity st1; [by eexists |].
    by apply ensureTranscriptsDirectory_events.
Qed.

(** Inside the try/catch nothing escapes. *)
Lemma deepgramTry_returns url p st :
  ∃ r, fst (tryCatch (deepgramAttempt w url p) (deepgramRecover w p) st)
       = Returned r.
Proof.
  unfold tryCatch. destruct (deepgramAttempt w url p st) as [[r | e] st1].
  - by exists r.
  - exists failureResult. apply deepgramRecover_returns.
Qed.

Lemma deepgramTry_fails url p st :
  AudioFailure w url →
  fst (tryCatch (deepgramAttempt w url p) (deepgramRecover w p) st)
  = Returned failureResult.
Proof.
  intros Hfail. unfold tryCatch.
  destruct (deepgramAttempt_fails url p Hfail st I) as [e He].
  destruct (deepgramAttempt w url p st) as [o st1]. simpl in He. subst o.
  apply deepgramRecover_returns.
Qed.

Lemma deepgramTry_cleanedUp url p st :
  cleanedUp w p (snd (tryCatch (deepgramAttempt w url p) (deepgramRecover w p) st)).
Proof.
  unfold tryCatch. pose proof (deepgramAttempt_returned url p st I) as H.
  destruct (deepgramAttempt w url p st) as [[r | e] st1]; simpl in *.
  - tauto.
  - apply deepgramRecover_cleanedUp.
Qed.

End Fallback.

(** ** The order and exclusiveness of the two methods *)

Section Pipeline.

Variable w : World.
Implicit Types (st : State) (p q url vid : jstring).

Lemma truthy_some t : truthy (Some t) = true → t ≠ [].
Proof. by destruct t. Qed.

Lemma not_audio_of_captionStage e :
  isCaptionStageEvent e = true → negb (isAudioTranscriptionEvent e) = true.
Proof. by destruct e. Qed.

Lemma not_audio_of_captionMethod e :
  isCaptionMethodEvent e = true → negb (isAudioTranscriptionEvent e) = true.
Proof. by destruct e. Qed.

Lemma extractTranscript_events url vid :
  extends (emitsOnly anyEvent) (extractTranscript w url vid).
Proof.
  unfold extractTranscript. ext;
    first [eapply extends_anyEvent, downloadAndClean_events
          | eapply extends_anyEvent, captionsResult_events
          | apply deepgramFallback_events].
Qed.

(** The audio path, once entered with a key and a directory, ends in the
    failure result whenever one of the named failures occurs. *)
Lemma fallback_failure url vid st :
  url ≠ [] → vid ≠ [] →
  fst (downloadAndCleanYtDlpTranscript w url vid st) = Returned None →
  truthy (env_DEEPGRAM_API_KEY w) = true →
  mkdirSync_throws w (transcriptsDir w) = None →
  AudioFailure w url →
  fst (extractTranscript w url vid st) = Returned failureResult.
Proof.
  intros Hu Hv Hcap Hkey Hmk Hfail.
  rewrite (extractTranscript_captions w url vid st None
             (snd (downloadAndCleanYtDlpTranscript w url vid st)) Hu Hv)
    by (rewrite <- Hcap; apply surjective_pairing).
  simpl.
  destruct (deepgramFallback_try w url vid
              (snd (downloadAndCleanYtDlpTranscript w url vid st)) Hkey Hmk)
    as (st2 & -> & _).
  by apply deepgramTry_fails.
Qed.

(** Once in the try block, the call returns whatever happens. *)
Lemma fallback_returns url vid st :
  url ≠ [] → vid ≠ [] →
  fst (downloadAndCleanYtDlpTranscript w url vid st) = Returned None →
  truthy (env_DEEPGRAM_API_KEY w) = true →
  mkdirSync_throws w (transcriptsDir w) = None →
  ∃ r, fst (extractTranscript w url vid st) = Returned r.
Proof.
  intros Hu Hv Hcap Hkey Hmk.
  rewrite (extractTranscript_captions w url vid st None
             (snd (downloadAndCleanYtDlpTranscript w url vid st)) Hu Hv)
    by (rewrite <- Hcap; apply surjective_pairing).
  simpl.
  destruct (deepgramFallback_try w url vid
              (snd (downloadAndCleanYtDlpTranscript w url vid st)) Hkey Hmk)
    as (st2 & -> & _).
  apply deepgramTry_returns.
Qed.

End Pipeline.

(** C1.  For non-empty arguments the caption method runs first: the call
    begins with the yt-dlp command, and the caption method always hands
    back a value.  When that value is a paragraph, it is not empty, the
    result carries it with the caption tag, and nothing of the audio path
    (no Deepgram client, no audio download, no transcription request)
    happens during the call.  A result tagged Deepgram, or any event of the
    audio path, occurs only when the caption method handed back null. *)
Theorem caption_method_first_and_exclusive
    (w : World) (url vid : jstring) (st : State) :
  url ≠ [] → vid ≠ [] →
  ∃ captions st1,
    downloadAndCleanYtDlpTranscript w url vid st = (Returned captions, st1)
    ∧ (∃ evs, trace (snd (extractTranscript w url vid st))
              = trace st ++ [EConsole LogStartingYtDlp;
                             EExec (ytDlpCommand w url vid)] ++ evs)
    ∧ (∀ paragraph, captions = Some paragraph →
         paragraph ≠ []
         ∧ (∃ r, fst (extractTranscript w url vid st) = Returned r
                 ∧ transcript r = Some paragraph
                 ∧ method r = YoutubeCaptionsYdlp)
         ∧ emitsOnly (λ e, negb (isAudioTranscriptionEvent e))
             st (snd (extractTranscript w url vid st)))
    ∧ (∀ r, fst (extractTranscript w url vid st) = Returned r →
            method r = Deepgram → captions = None)
    ∧ (∀ e, isAudioTranscriptionEvent e = true →
            e ∈ trace (snd (extractTranscript w url vid st)) →
            e ∉ trace st → captions = None).
Proof.
  intros Hu Hv.
  destruct (downloadAndClean_returns w url vid st) as (captions & Hfst & Htruthy).
  set (st1 := snd (downloadAndCleanYtDlpTranscript w url vid st)).
  assert (downloadAndCleanYtDlpTranscript w url vid st = (Returned captions, st1))
    as Hrun by (rewrite <- Hfst; apply surjective_pairing).
  pose proof (extractTranscript_captions w url vid st captions st1 Hu Hv Hrun) as Heq.
  assert (∀ paragraph, captions = Some paragraph →
            paragraph ≠ []
            ∧ (∃ r, fst (extractTranscript w url vid st) = Returned r
                    ∧ transcript r = Some paragraph
                    ∧ method r = YoutubeCaptionsYdlp)
            ∧ emitsOnly (λ e, negb (isAudioTranscriptionEvent e))
                st (snd (extractTranscript w url vid st))) as Hcap.
  { intros paragraph ->.
    assert (truthy (Some paragraph) = true) as Ht
      by (rewrite Htruthy; by apply bool_decide_eq_true_2).
    rewrite Ht in Heq. rewrite Heq. split; [by apply truthy_some |]. split.
    - eexists. split; [apply captionsResult_returns | done].
    - transitivity st1.
      + eapply emitsOnly_weaken; [apply not_audio_of_captionStage |].
        pose proof (downloadAndClean_events w url vid st) as H.
        by rewrite Hrun in H.
      + eapply emitsOnly_weaken; [apply not_audio_of_captionMethod |].
        apply captionsResult_events. }
  exists captions, st1. split; [done |]. split; [| split; [done | split]].
  - destruct (downloadAndClean_first w url vid st) as (evs & Hevs).
    rewrite Hrun in Hevs. simpl in Hevs.
    assert (emitsOnly anyEvent st1 (snd (extractTranscript w url vid st)))
      as (evs' & Ht & _).
    { rewrite Heq. destruct (truthy captions).
      - eapply extends_anyEvent, captionsResult_events.
      - apply deepgramFallback_events. }
    exists (evs ++ evs'). rewrite Ht. fold st1 in Hevs. rewrite Hevs.
    by rewrite <- !app_assoc.
  - intros r Hr Hm. destruct captions as [paragraph |]; [| done].
    destruct (Hcap paragraph eq_refl) as (_ & (r' & Hr' & _ & Hm') & _).
    congruence.
  - intros e He Hin Hnin. destruct captions as [paragraph |]; [| done].
    destruct (Hcap paragraph eq_refl) as (_ & _ & Hev).
    destruct (emitsOnly_elem _ _ _ _ Hev Hin) as [? | Hok]; [done |].
    by rewrite He in Hok.
Qed.

(** C1, at a world with captions. *)
Lemma caption_method_first_and_exclusive_witness :
  ∃ captions st1,
    downloadAndCleanYtDlpTranscript Examples.wCaptions Examples.url
      Examples.videoId Examples.fresh = (Returned captions, st1)
    ∧ captions = Some (lit "hello world again").
Proof.
  destruct (caption_method_first_and_exclusive Examples.wCaptions
              Examples.url Examples.videoId Examples.fresh)
    as (captions & st1 & Hrun & _); [discriminate | discriminate |].
  exists captions, st1. split; [exact Hrun |].
  assert (fst (downloadAndCleanYtDlpTranscript Examples.wCaptions Examples.url
                 Examples.videoId Examples.fresh)
          = Returned (Some (lit "hello world again"))) as H
    by (vm_compute; reflexivity).
  rewrite Hrun in H. simpl in H. congruence.
Defined.

(** C2.  In the fallback path (no captions, a key, a directory) the call
    never throws: whatever fails inside the try block, a result is
    returned.  With each of the named failures (the metadata cannot be
    fetched, no audio format suits, the download is rejected by an error
    or by the timeout, the speech-to-text service fails) the transcript of
    that result is null. *)
Theorem audio_failure_returns_null
    (w : World) (url vid : jstring) (st : State) :
  url ≠ [] → vid ≠ [] →
  fst (downloadAndCleanYtDlpTranscript w url vid st) = Returned None →
  truthy (env_DEEPGRAM_API_KEY w) = true →
  mkdirSync_throws w (transcriptsDir w) = None →
  (∃ r, fst (extractTranscript w url vid st) = Returned r)
  ∧ (AudioFailure w url →
     ∃ r, fst (extractTranscript w url vid st) = Returned r
          ∧ transcript r = None).
Proof.
  intros Hu Hv Hcap Hkey Hmk. split; [by apply fallback_returns |].
  intros Hfail. exists failureResult.
  split; [by apply fallback_failure | done].
Qed.

(** C2, when the metadata cannot be fetched. *)
Lemma audio_failure_returns_null_witness :
  ∃ r, fst (extractTranscript Examples.wNoMetadata Examples.url
              Examples.videoId Examples.fresh) = Returned r
       ∧ transcript r = None.
Proof.
  apply audio_failure_returns_null.
  - discriminate.
  - discriminate.
  - vm_compute. reflexivity.
  - reflexivity.
  - reflexivity.
  - apply (MetadataFetchFailure _ _ Examples.serviceDown). reflexivity.
Defined.

(** C3.  Without captions and without DEEPGRAM_API_KEY (unset, or set to
    the empty string) the call throws the configuration error, and up to
    that point it has neither created the Deepgram client, nor fetched
    metadata, nor opened the audio download, nor sent a transcription
    request. *)
Theorem missing_key_fails_fast
    (w : World) (url vid : jstring) (st : State) :
  url ≠ [] → vid ≠ [] →
  fst (downloadAndCleanYtDlpTranscript w url vid st) = Returned None →
  truthy (env_DEEPGRAM_API_KEY w) = false →
  fst (extractTranscript w url vid st) = Thrown keyMissing
  ∧ emitsOnly (λ e, negb (isAudioTranscriptionEvent e) && negb (isGetInfo e))
      st (snd (extractTranscript w url vid st)).
Proof.
  intros Hu Hv Hcap Hkey.
  set (st1 := snd (downloadAndCleanYtDlpTranscript w url vid st)).
  rewrite (extractTranscript_captions w url vid st None st1 Hu Hv)
    by (rewrite <- Hcap; apply surjective_pairing).
  simpl. rewrite deepgramFallback_noKey by done.
  split; [done |]. simpl.
  transitivity st1.
  - eapply emitsOnly_weaken; [| apply downloadAndClean_events].
    by intros [].
  - by exists [EConsole LogFallingBack].
Qed.

(** C3, when yt-dlp is not installed and no key is set. *)
Lemma missing_key_fails_fast_witness :
  fst (extractTranscript Examples.wNoKey Examples.url Examples.videoId
         Examples.fresh) = Thrown keyMissing.
Proof.
  apply missing_key_fails_fast.
  - discriminate.
  - discriminate.
  - vm_compute. reflexivity.
  - reflexivity.
Defined.

(** ** The error exit of the audio path *)

Section ErrorExit.

Variable w : World.
Implicit Types (st : State) (p q url vid : jstring).

(** With the metadata fetch failing, the try block stops there. *)
Lemma deepgramAttempt_noMetadata url p e st :
  ytdl_getInfo w url = inl e →
  deepgramAttempt w url p st =
  (Thrown e,
   mkState (files st) (dirs st)
     (trace st ++ [EConsole LogFetchingMetadata; EGetInfo url])).
Proof.
  intros H. unfold deepgramAttempt, bind, console, emit, liftSum.
  rewrite H. simpl. by rewrite <- app_assoc.
Qed.

(** With a stalled download, the try block stops at the timeout. *)
Lemma deepgramAttempt_timeout url p info fmt st :
  ytdl_getInfo w url = inr info →
  ytdl_chooseFormat w (formats info) = inr (Some fmt) →
  stillRunningAtTimeout (ytdl_download w url) = true →
  ∃ st', deepgramAttempt w url p st = (Thrown timeoutError, st')
         ∧ EDestroyDownloadStream ∈ trace st'
         ∧ EDestroyAudioStream ∈ trace st'.
Proof.
  intros Hinfo Hfmt Hrun.
  unfold deepgramAttempt, bind, console, emit, liftSum.
  rewrite Hinfo. simpl. rewrite Hfmt. simpl.
  match goal with
  | |- context [downloadAudio w url p ?s] =>
      destruct (downloadAudio_timeout w url p s Hrun) as (st' & -> & Ht)
  end.
  exists st'. split; [done |]. rewrite Ht. set_solver.
Qed.

Lemma recoverLogs_first e st :
  EConsole (ErrExtractTranscript e) ∈ trace (snd (recoverLogs e st)).
Proof.
  unfold recoverLogs, bind, console, emit, ret.
  destruct (err_instanceofError e); [| simpl; set_solver].
  destruct (_ || _); destruct (_ || _); simpl; set_solver.
Qed.

Lemma not_transcribe_of_captionStage e :
  isCaptionStageEvent e = true → negb (isSpeechToTextEvent e) = true.
Proof. by destruct e. Qed.

End ErrorExit.

(** C10.  On the error exit of the audio path the result is exactly the
    failure record: null transcript, the Deepgram tag, no confidence, no
    speakers, no metadata.  Metadata fetched before the failure is dropped,
    and when the metadata fetch itself fails the record is the same
    although no transcription request was sent: the record does not tell
    the stage of the failure. *)
Theorem audio_failure_result_is_uniform
    (w : World) (url vid : jstring) (st : State) :
  url ≠ [] → vid ≠ [] →
  fst (downloadAndCleanYtDlpTranscript w url vid st) = Returned None →
  truthy (env_DEEPGRAM_API_KEY w) = true →
  mkdirSync_throws w (transcriptsDir w) = None →
  AudioFailure w url →
  fst (extractTranscript w url vid st)
  = Returned {| transcript := None;
                speakers := None;
                method := Deepgram;
                confidence := None;
                metadata := None |}
  ∧ (∀ e buffer, ytdl_getInfo w url = inl e →
       ETranscribeFile buffer ∈ trace (snd (extractTranscript w url vid st)) →
       ETranscribeFile buffer ∈ trace st).
Proof.
  intros Hu Hv Hcap Hkey Hmk Hfail.
  split; [by apply fallback_failure |].
  intros e buffer Hinfo Hin.
  set (st1 := snd (downloadAndCleanYtDlpTranscript w url vid st)) in *.
  assert (emitsOnly (λ e, negb (isTranscribeRequest e))
            st (snd (extractTranscript w url vid st))) as Hev.
  { rewrite (extractTranscript_captions w url vid st None st1 Hu Hv)
      by (rewrite <- Hcap; apply surjective_pairing).
    simpl. transitivity st1.
    { eapply emitsOnly_weaken; [| apply downloadAndClean_events].
      by intros []. }
    destruct (deepgramFallback_try w url vid st1 Hkey Hmk) as (st2 & -> & _ & Hst2).
    transitivity st2; [done |].
    unfold tryCatch. rewrite (deepgramAttempt_noMetadata w url _ e _ Hinfo).
    transitivity (mkState (files st2) (dirs st2)
                    (trace st2 ++ [EConsole LogFetchingMetadata; EGetInfo url]));
      [by eexists |].
    eapply emitsOnly_weaken; [| apply deepgramRecover_events]. by intros []. }
  destruct (emitsOnly_elem _ _ _ _ Hev Hin) as [? | Hok]; [done | done].
Qed.

(** C10, when the download stalls after the metadata was fetched. *)
Lemma audio_failure_result_is_uniform_witness :
  ytdl_getInfo Examples.wStalls Examples.url = inr Examples.sampleInfo
  ∧ fst (extractTranscript Examples.wStalls Examples.url Examples.videoId
           Examples.fresh) = Returned failureResult.
Proof.
  split; [reflexivity |].
  apply audio_failure_result_is_uniform.
  - discriminate.
  - discriminate.
  - vm_compute. reflexivity.
  - reflexivity.
  - reflexivity.
  - apply (DownloadFailure _ _ timeoutError). reflexivity.
Defined.

(** C4, as the code has it.  When the download is still running at the
    timeout, the timer destroys the download stream and the write stream
    and rejects with the timeout error; the catch block of
    [extractTranscript] then unlinks the audio file, so that no audio file
    is left provided that this unlink does not itself fail. *)
Theorem download_timeout_cleanup
    (w : World) (url vid : jstring) (st : State) (info : VideoInfo) (fmt : Format) :
  url ≠ [] → vid ≠ [] →
  fst (downloadAndCleanYtDlpTranscript w url vid st) = Returned None →
  truthy (env_DEEPGRAM_API_KEY w) = true →
  mkdirSync_throws w (transcriptsDir w) = None →
  ytdl_getInfo w url = inr info →
  ytdl_chooseFormat w (formats info) = inr (Some fmt) →
  stillRunningAtTimeout (ytdl_download w url) = true →
  unlinkSync_throws w (audioFilePath w vid) = None →
  (∀ st0, ∃ st', downloadAudio w url (audioFilePath w vid) st0
                 = (Thrown timeoutError, st')
                 ∧ trace st' = trace st0 ++ [EOpenStreams url (audioFilePath w vid);
                                             ESetTimeout 300000;
                                             EDestroyDownloadStream;
                                             EDestroyAudioStream])
  ∧ EDestroyDownloadStream ∈ trace (snd (extractTranscript w url vid st))
  ∧ EDestroyAudioStream ∈ trace (snd (extractTranscript w url vid st))
  ∧ EConsole (ErrExtractTranscript timeoutError)
      ∈ trace (snd (extractTranscript w url vid st))
  ∧ fst (extractTranscript w url vid st) = Returned failureResult
  ∧ files (snd (extractTranscript w url vid st)) !! audioFilePath w vid = None.
Proof.
  intros Hu Hv Hcap Hkey Hmk Hinfo Hfmt Hrun Hunlink.
  split; [intros st0; by apply downloadAudio_timeout |].
  set (st1 := snd (downloadAndCleanYtDlpTranscript w url vid st)).
  rewrite (extractTranscript_captions w url vid st None st1 Hu Hv)
    by (rewrite <- Hcap; apply surjective_pairing).
  simpl.
  destruct (deepgramFallback_try w url vid st1 Hkey Hmk) as (st2 & -> & _).
  unfold tryCatch.
  destruct (deepgramAttempt_timeout w url (audioFilePath w vid) info fmt st2
              Hinfo Hfmt Hrun) as (st3 & -> & Hd1 & Hd2).
  pose proof (deepgramRecover_events w (audioFilePath w vid) timeoutError st3) as Hev.
  assert (emitsOnly anyEvent st3
            (snd (deepgramRecover w (audioFilePath w vid) timeoutError st3))) as Hany
    by (by eapply emitsOnly_weaken; [| apply Hev]).
  split; [by eapply emitsOnly_mono |]. split; [by eapply emitsOnly_mono |].
  split; [| split].
  - rewrite deepgramRecover_eq. simpl.
    eapply emitsOnly_mono; [| apply recoverLogs_first].
    eapply emitsOnly_weaken; [| apply safeDeleteFile_events]. done.
  - apply deepgramRecover_returns.
  - destruct (deepgramRecover_cleanedUp w (audioFilePath w vid) timeoutError st3)
      as [Hnone | (e & He & _)]; [done | congruence].
Qed.

(** C4, at a world where the download stalls. *)
Lemma download_timeout_cleanup_witness :
  files (snd (extractTranscript Examples.wStalls Examples.url Examples.videoId
                Examples.fresh))
    !! audioFilePath Examples.wStalls Examples.videoId = None.
Proof.
  apply (download_timeout_cleanup Examples.wStalls Examples.url Examples.videoId
           Examples.fresh Examples.sampleInfo
           {| itag := 140; hasVideo := false; hasAudio := true |}).
  - discriminate.
  - discriminate.
  - vm_compute. reflexivity.
  - reflexivity.
  - reflexivity.
  - reflexivity.
  - reflexivity.
  - reflexivity.
  - reflexivity.
Defined.

(** C4 as stated fails: the download stalls, the timer fires, the call
    returns, and the audio file that the call created is still there,
    because its unlink was refused. *)
Lemma download_timeout_file_remains :
  stillRunningAtTimeout (ytdl_download Examples.wStallsBusy Examples.url) = true
  ∧ fst (extractTranscript Examples.wStallsBusy Examples.url Examples.videoId
           Examples.fresh) = Returned failureResult
  ∧ files Examples.fresh !! audioFilePath Examples.wStallsBusy Examples.videoId
    = None
  ∧ files (snd (extractTranscript Examples.wStallsBusy Examples.url
                  Examples.videoId Examples.fresh))
      !! audioFilePath Examples.wStallsBusy Examples.videoId
    = Some [1; 2].
Proof. repeat split; vm_compute; reflexivity. Qed.

(** ** Clean-up of the temporary files *)

Section CleanUp.

Variable w : World.
Implicit Types (st : State) (p q url vid : jstring).

Lemma deepgramFallback_cleanedUp url vid p st :
  cleanedUp w p st → cleanedUp w p (snd (deepgramFallback w url vid st)).
Proof.
  intros Hclean.
  destruct (decide (p = audioFilePath w vid)) as [-> | Hne].
  - destruct (truthy (env_DEEPGRAM_API_KEY w)) eqn:Hkey.
    + unfold deepgramFallback. rewrite Hkey.
      unfold bind at 1 2 3. unfold console, emit. simpl.
      match goal with
      | |- context [ensureTranscriptsDirectory w ?s] => set (st1 := s)
      end.
      assert (cleanedUp w (audioFilePath w vid) st1) as Hclean1.
      { eapply cleanedUp_preserved; [exact Hclean | done |].
        eexists [_; _]. split; [| done].
        unfold st1. simpl. by rewrite <- app_assoc. }
      pose proof (ensureTranscriptsDirectory_files w st1) as Hf.
      pose proof (ensureTranscriptsDirectory_events w anyEvent (λ _, eq_refl) st1)
        as He.
      destruct (ensureTranscriptsDirectory w st1) as [[[] | e] st2]; simpl in *.
      * apply deepgramTry_cleanedUp.
      * eapply cleanedUp_preserved; [exact Hclean1 | | done].
        apply Hf, not_elem_of_nil.
    + rewrite deepgramFallback_noKey by done. simpl.
      eapply cleanedUp_preserved; [exact Hclean | done |]. by eexists.
  - eapply cleanedUp_preserved; [exact Hclean | |].
    + apply deepgramFallback_files. intros Hin%list_elem_of_singleton. done.
    + apply deepgramFallback_events.
Qed.

(** After the call, a file is found at a path that was free before only
    if its unlink was refused, and the refusal is in the log. *)
Lemma extractTranscript_cleanedUp url vid p st :
  files st !! p = None →
  cleanedUp w p (snd (extractTranscript w url vid st)).
Proof.
  intros Hfree. unfold extractTranscript.
  destruct (Vtt.isEmpty url || Vtt.isEmpty vid); [by left |].
  unfold bind.
  pose proof (downloadAndClean_cleanedUp w url vid st) as Hvtt.
  pose proof (downloadAndClean_files w url vid st) as Hfiles.
  destruct (downloadAndCleanYtDlpTranscript w url vid st) as [[t | e] st1];
    simpl in *.
  - assert (cleanedUp w p st1) as Hclean.
    { destruct (decide (p = tempVttFile w vid)) as [-> | Hne]; [done |].
      left. rewrite Hfiles; [done |].
      intros Hin%list_elem_of_singleton. done. }
    destruct (truthy t).
    + eapply cleanedUp_preserved; [exact Hclean | |].
      * apply (captionsResult_files w url t st1), not_elem_of_nil.
      * eapply extends_anyEvent, captionsResult_events.
    + by apply deepgramFallback_cleanedUp.
  - destruct (decide (p = tempVttFile w vid)) as [-> | Hne]; [done |].
    left. rewrite Hfiles; [done |].
    intros Hin%list_elem_of_singleton. done.
Qed.

End CleanUp.

(** ** Deletion failures do not change the outcome *)

Section SameOutcome.

Context {A B : Type}.
Implicit Types (p : jstring).

Lemma agreeAt_refl p s : agreeAt p s s.
Proof. by split. Qed.

Lemma sameOutcome_result p (m1 m2 : M A) :
  sameOutcome p m1 m2 → sameResult p m1 m2.
Proof. intros H s1 s2 Hs. by destruct (H s1 s2 Hs). Qed.

Lemma sameOutcome_ret p (a : A) : sameOutcome p (ret a) (ret a).
Proof. by intros s1 s2 Hs. Qed.

Lemma sameOutcome_throw p e : sameOutcome p (throw (A:=A) e) (throw e).
Proof. by intros s1 s2 Hs. Qed.

Lemma sameOutcome_liftSum p (r : JsError + A) :
  sameOutcome p (liftSum r) (liftSum r).
Proof. destruct r; [apply sameOutcome_throw | apply sameOutcome_ret]. Qed.

Lemma sameOutcome_bind p (m1 m2 : M A) (k1 k2 : A → M B) :
  sameOutcome p m1 m2 → (∀ a, sameOutcome p (k1 a) (k2 a)) →
  sameOutcome p (bind m1 k1) (bind m2 k2).
Proof.
  intros Hm Hk s1 s2 Hs. unfold bind.
  destruct (Hm s1 s2 Hs) as [Ho Hs'].
  destruct (m1 s1) as [[a1 | e1] t1], (m2 s2) as [[a2 | e2] t2];
    simpl in *; try done.
  - injection Ho as ->. by apply Hk.
  - injection Ho as ->. done.
Qed.

Lemma sameResult_bind p (m1 m2 : M A) (k1 k2 : A → M B) :
  sameOutcome p m1 m2 → (∀ a, sameResult p (k1 a) (k2 a)) →
  sameResult p (bind m1 k1) (bind m2 k2).
Proof.
  intros Hm Hk s1 s2 Hs. unfold bind.
  destruct (Hm s1 s2 Hs) as [Ho Hs'].
  destruct (m1 s1) as [[a1 | e1] t1], (m2 s2) as [[a2 | e2] t2];
    simpl in *; try done.
  - injection Ho as ->. by apply Hk.
  - injection Ho as ->. done.
Qed.

End SameOutcome.

Section SameOutcomePrimitives.

Implicit Types (p : jstring).

Lemma sameOutcome_emit p e : sameOutcome p (emit e) (emit e).
Proof. by intros s1 s2 Hs. Qed.

Lemma sameOutcome_console p c : sameOutcome p (console c) (console c).
Proof. apply sameOutcome_emit. Qed.

Lemma sameOutcome_lookupFile p : sameOutcome p (lookupFile p) (lookupFile p).
Proof. intros s1 s2 [Hd Hf]. simpl. by rewrite Hf. Qed.

Lemma sameOutcome_hasDir p q : sameOutcome p (hasDir q) (hasDir q).
Proof. intros s1 s2 [Hd Hf]. simpl. by rewrite Hd. Qed.

Lemma sameOutcome_addDir p q : sameOutcome p (addDir q) (addDir q).
Proof.
  intros s1 s2 [Hd Hf]. split; [done |].
  split; simpl; [by rewrite Hd | done].
Qed.

Lemma sameOutcome_modifyFiles p f :
  (∀ m1 m2 : gmap (list N) (list N), m1 !! p = m2 !! p → f m1 !! p = f m2 !! p) →
  sameOutcome p (modifyFiles f) (modifyFiles f).
Proof. intros H s1 s2 [Hd Hf]. split; [done |]. split; simpl; auto. Qed.

Lemma sameOutcome_runStreams p evs :
  sameOutcome p (runStreams p evs) (runStreams p evs).
Proof.
  induction evs as [| ev rest IH]; simpl.
  - repeat (apply sameOutcome_bind; [apply sameOutcome_emit | intros _]).
    apply sameOutcome_throw.
  - destruct ev.
    + apply sameOutcome_bind; [| by intros _].
      apply sameOutcome_modifyFiles. intros m1 m2 _.
      by rewrite !lookup_insert_eq.
    + apply sameOutcome_bind; [| by intros _].
      apply sameOutcome_modifyFiles. intros m1 m2 H.
      by rewrite !lookup_alter_eq, H.
    + apply sameOutcome_bind; [apply sameOutcome_console | intros _].
      apply sameOutcome_bind; [apply sameOutcome_emit | intros _].
      apply sameOutcome_ret.
    + apply sameOutcome_bind; [apply sameOutcome_console | intros _].
      apply sameOutcome_throw.
    + apply sameOutcome_bind; [apply sameOutcome_console | intros _].
      apply sameOutcome_throw.
Qed.

Lemma sameOutcome_readFileSync p :
  sameOutcome p (readFileSync p) (readFileSync p).
Proof.
  unfold readFileSync.
  apply sameOutcome_bind; [apply sameOutcome_emit | intros _].
  apply sameOutcome_bind; [apply sameOutcome_lookupFile | intros [c |]].
  - apply sameOutcome_ret.
  - apply sameOutcome_throw.
Qed.

End SameOutcomePrimitives.

Section UnlinkIndependence.

Variable w : World.
Variable u : jstring → option JsError.
Implicit Types (st : State) (p q url vid : jstring).

Lemma sameOutcome_downloadAudio url p :
  sameOutcome p (downloadAudio (withUnlink w u) url p) (downloadAudio w url p).
Proof.
  change (downloadAudio (withUnlink w u) url p) with (downloadAudio w url p).
  unfold downloadAudio. destruct (setup_throws _); [apply sameOutcome_throw |].
  apply sameOutcome_bind; [apply sameOutcome_emit | intros _].
  apply sameOutcome_bind; [apply sameOutcome_emit | intros _].
  apply sameOutcome_runStreams.
Qed.

Lemma sameOutcome_ensureTranscriptsDirectory p :
  sameOutcome p (ensureTranscriptsDirectory (withUnlink w u))
    (ensureTranscriptsDirectory w).
Proof.
  change (ensureTranscriptsDirectory (withUnlink w u))
    with (ensureTranscriptsDirectory w).
  unfold ensureTranscriptsDirectory, mkdirSync.
  apply sameOutcome_bind; [apply sameOutcome_hasDir | intros [|]].
  - apply sameOutcome_ret.
  - apply sameOutcome_bind; [apply sameOutcome_emit | intros _].
    destruct (mkdirSync_throws _ _);
      [apply sameOutcome_throw | apply sameOutcome_addDir].
Qed.

Lemma sameResult_deepgramAttempt url p :
  sameResult p (deepgramAttempt (withUnlink w u) url p) (deepgramAttempt w url p).
Proof.
  unfold deepgramAttempt.
  apply sameResult_bind; [apply sameOutcome_console | intros _].
  apply sameResult_bind; [apply sameOutcome_emit | intros _].
  apply sameResult_bind; [apply sameOutcome_liftSum | intros info].
  apply sameResult_bind; [apply sameOutcome_emit | intros _].
  apply sameResult_bind; [apply sameOutcome_liftSum | intros [fmt |]];
    [| by intros s1 s2 _].
  apply sameResult_bind; [apply sameOutcome_console | intros _].
  apply sameResult_bind; [apply sameOutcome_downloadAudio | intros _].
  apply sameResult_bind; [apply sameOutcome_console | intros _].
  apply sameResult_bind; [apply sameOutcome_readFileSync | intros buffer].
  apply sameResult_bind; [apply sameOutcome_emit | intros _].
  apply sameResult_bind; [apply sameOutcome_liftSum | intros response].
  simpl. destruct (dg_error response); [by intros s1 s2 _ |].
  intros s1 s2 _. unfold bind.
  rewrite (surjective_pairing (safeDeleteFile (withUnlink w u) p s1)),
    (surjective_pairing (safeDeleteFile w p s2)), !safeDeleteFile_returns.
  done.
Qed.

Lemma sameResult_deepgramFallback url vid :
  sameResult (audioFilePath w vid)
    (deepgramFallback (withUnlink w u) url vid) (deepgramFallback w url vid).
Proof.
  unfold deepgramFallback.
  apply sameResult_bind; [apply sameOutcome_console | intros _].
  simpl. destruct (truthy (env_DEEPGRAM_API_KEY w)); [| by intros s1 s2 _].
  apply sameResult_bind; [apply sameOutcome_emit | intros _].
  apply sameResult_bind;
    [apply sameOutcome_ensureTranscriptsDirectory | intros _].
  intros s1 s2 Hs. unfold tryCatch.
  pose proof (sameResult_deepgramAttempt url (audioFilePath w vid) s1 s2 Hs) as H.
  change (audioFilePath (withUnlink w u) vid) with (audioFilePath w vid).
  destruct (deepgramAttempt (withUnlink w u) url _ s1) as [[r1 | e1] t1],
    (deepgramAttempt w url _ s2) as [[r2 | e2] t2]; simpl in *; try done.
  by rewrite !deepgramRecover_returns.
Qed.

(** The outcome of [extractTranscript] does not depend on whether the
    unlinks fail. *)
Lemma extractTranscript_unlink_independent url vid st :
  tempVttFile w vid ≠ audioFilePath w vid →
  fst (extractTranscript (withUnlink w u) url vid st)
  = fst (extractTranscript w url vid st).
Proof.
  intros Hne. unfold extractTranscript.
  destruct (Vtt.isEmpty url || Vtt.isEmpty vid); [done |].
  unfold bind. rewrite !downloadAndClean_eq.
  change (captionAttempt (withUnlink w u) url vid) with (captionAttempt w url vid).
  change (tempVttFile (withUnlink w u) vid) with (tempVttFile w vid).
  destruct (tryCatch (captionAttempt w url vid) captionRecover st) as [[t | e] st1];
    simpl; [| done].
  destruct (truthy t).
  - by rewrite !captionsResult_returns.
  - apply sameResult_deepgramFallback. split.
    + by rewrite !safeDeleteFile_dirs.
    + rewrite (safeDeleteFile_files (withUnlink w u) (tempVttFile w vid) st1),
        (safeDeleteFile_files w (tempVttFile w vid) st1); [done | |];
        intros Hin%list_elem_of_singleton; done.
Qed.

End UnlinkIndependence.

(** C5, as the code has it.  On every exit of [extractTranscript] (a thrown
    error included) each of its temporary files has been unlinked unless the
    unlink itself failed: a file found after the call at a path that was
    free before it is one whose unlink was refused, and the refusal is in
    the log.  [safeDeleteFile] always returns normally, and the outcome of
    the call is the same whatever the unlinks do. *)
Theorem temporary_files_cleaned_up
    (w : World) (url vid : jstring) (st : State) :
  (∀ p, files st !! p = None →
        cleanedUp w p (snd (extractTranscript w url vid st)))
  ∧ (∀ p st', fst (safeDeleteFile w p st') = Returned tt)
  ∧ (tempVttFile w vid ≠ audioFilePath w vid →
     ∀ u, fst (extractTranscript (withUnlink w u) url vid st)
          = fst (extractTranscript w url vid st)).
Proof.
  split; [| split].
  - intros p Hp. by apply extractTranscript_cleanedUp.
  - intros p st'. apply safeDeleteFile_returns.
  - intros Hne u. by apply extractTranscript_unlink_independent.
Qed.

(** C5, at a world with captions: the subtitle file is gone after the call,
    and a refused unlink would not change the result. *)
Lemma temporary_files_cleaned_up_witness :
  cleanedUp Examples.wCaptions (tempVttFile Examples.wCaptions Examples.videoId)
    (snd (extractTranscript Examples.wCaptions Examples.url Examples.videoId
            Examples.fresh))
  ∧ fst (extractTranscript
           (withUnlink Examples.wCaptions (λ _, Some Examples.ebusy))
           Examples.url Examples.videoId Examples.fresh)
    = fst (extractTranscript Examples.wCaptions Examples.url Examples.videoId
             Examples.fresh).
Proof.
  destruct (temporary_files_cleaned_up Examples.wCaptions Examples.url
              Examples.videoId Examples.fresh) as (Hclean & _ & Hsame).
  split.
  - apply Hclean. vm_compute. reflexivity.
  - apply Hsame. vm_compute. discriminate.
Defined.

(** C5 as stated fails: captions are found and returned, and the subtitle
    file that the call created is still there when it returns, because its
    unlink was refused. *)
Lemma subtitle_file_remains :
  (∃ r, fst (extractTranscript Examples.wCaptionsBusy Examples.url
               Examples.videoId Examples.fresh) = Returned r
        ∧ method r = YoutubeCaptionsYdlp)
  ∧ files Examples.fresh !! tempVttFile Examples.wCaptionsBusy Examples.videoId
    = None
  ∧ files (snd (extractTranscript Examples.wCaptionsBusy Examples.url
                  Examples.videoId Examples.fresh))
      !! tempVttFile Examples.wCaptionsBusy Examples.videoId
    = Some Examples.sampleVtt.
Proof.
  split; [| split].
  - eexists. split; [vm_compute; reflexivity | reflexivity].
  - vm_compute. reflexivity.
  - vm_compute. reflexivity.
Qed.

(** ** The caption paragraph *)

(** C6.  The paragraph built from a subtitle file is the join, with single
    spaces, of a list that holds each cleaned text line of the file exactly
    once, in the order of the first occurrences.  The cleaned text lines
    are, in file order, the non-empty results of stripping tags and
    bracketed annotations from the trimmed lines that are neither empty,
    nor WEBVTT/Kind:/Language: lines, nor lines with an arrow, nor lines of
    digits; no tag and no annotation is left in them. *)
Theorem caption_paragraph_distinct_lines (vttContent : jstring) :
  ∃ distinct : list jstring,
    Vtt.fullParagraph vttContent = join (lit " ") distinct
    ∧ NoDup distinct
    ∧ (∀ x, x ∈ distinct ↔ x ∈ Vtt.textLines (splitLines vttContent))
    ∧ (∀ (i j : nat) x y,
         distinct !! i = Some x → distinct !! j = Some y → (i < j)%nat →
         ∃ k, Vtt.textLines (splitLines vttContent) !! k = Some x
              ∧ y ∉ take (S k) (Vtt.textLines (splitLines vttContent)))
    ∧ Vtt.textLines (splitLines vttContent)
      = List.filter (λ c, negb (Vtt.isEmpty c))
          (List.map (λ line, Vtt.cleanLine (trim line))
             (List.filter (λ line, negb (Vtt.isSkipped (trim line)))
                (splitLines vttContent)))
    ∧ (∀ x, x ∈ distinct →
            x ≠ [] ∧ hasTag x = false ∧ hasAnnotation x = false).
Proof.
  exists (newSet (Vtt.textLines (splitLines vttContent))).
  split; [done |]. split; [apply NoDup_newSet |].
  split; [intros x; apply elem_of_newSet |].
  split; [apply newSet_order |]. split; [apply textLines_filter |].
  intros x Hx%elem_of_newSet%elem_of_textLines.
  destruct Hx as (Hne & line & _ & _ & ->).
  split; [done |]. split; [apply cleanLine_noTag | apply cleanLine_noAnnotation].
Qed.

(** C6, on a track with a repeated caption. *)
Lemma caption_paragraph_distinct_lines_witness :
  Vtt.fullParagraph Examples.sampleVtt = lit "hello world again"
  ∧ ∃ distinct : list jstring,
      Vtt.fullParagraph Examples.sampleVtt = join (lit " ") distinct
      ∧ NoDup distinct.
Proof.
  split; [vm_compute; reflexivity |].
  destruct (caption_paragraph_distinct_lines Examples.sampleVtt)
    as (distinct & Hjoin & Hnodup & _).
  exists distinct. split; [exact Hjoin | exact Hnodup].
Defined.

Section EmptyCaptions.

Variable w : World.
Implicit Types (st : State) (url vid : jstring).

(** With the command succeeding, the caption method cleans what the
    command wrote. *)
Lemma captionAttempt_reads url vid c st :
  exec_rejects (exec w (ytDlpCommand w url vid)) = None →
  exec_subtitle (exec w (ytDlpCommand w url vid)) = Some c →
  fst (captionAttempt w url vid st) = Returned (Vtt.cleaned c).
Proof.
  intros Hr Hs.
  unfold captionAttempt, execPromise, readFile, bind, console, emit,
    modifyFiles, lookupFile, ret, throw.
  cbv zeta. rewrite Hr, Hs. cbn [fst snd files dirs trace].
  rewrite lookup_insert_eq. unfold Vtt.cleaned.
  by destruct (0 <? length (Vtt.fullParagraph c))%nat.
Qed.

Lemma downloadAndClean_reads url vid c st :
  exec_rejects (exec w (ytDlpCommand w url vid)) = None →
  exec_subtitle (exec w (ytDlpCommand w url vid)) = Some c →
  fst (downloadAndCleanYtDlpTranscript w url vid st) = Returned (Vtt.cleaned c).
Proof.
  intros Hr Hs. rewrite downloadAndClean_eq. simpl. unfold tryCatch.
  pose proof (captionAttempt_reads url vid c st Hr Hs) as H.
  destruct (captionAttempt w url vid st) as [o st1]. simpl in H. by subst o.
Qed.

End EmptyCaptions.

(** C7.  When yt-dlp succeeds and every line of the subtitle file it wrote
    is a cue-timing line, a cue-index line, a header line, a line of markup
    tags, a line of bracketed annotations, a line of tags and annotations
    (without ['<'] inside an annotation) or a blank line, the cleaned
    paragraph is empty, the caption method returns null, and
    [extractTranscript] goes on with the audio path. *)
Theorem non_text_subtitles_fall_back
    (w : World) (url vid : jstring) (st : State) (c : jstring) :
  url ≠ [] → vid ≠ [] →
  exec_rejects (exec w (ytDlpCommand w url vid)) = None →
  exec_subtitle (exec w (ytDlpCommand w url vid)) = Some c →
  Vtt.onlyNonTextLines c = true →
  Vtt.fullParagraph c = []
  ∧ fst (downloadAndCleanYtDlpTranscript w url vid st) = Returned None
  ∧ extractTranscript w url vid st
    = deepgramFallback w url vid
        (snd (downloadAndCleanYtDlpTranscript w url vid st))
  ∧ EConsole LogFallingBack ∈ trace (snd (extractTranscript w url vid st)).
Proof.
  intros Hu Hv Hr Hs Hlines.
  pose proof (fullParagraph_onlyNonText c Hlines) as Hempty.
  assert (fst (downloadAndCleanYtDlpTranscript w url vid st) = Returned None)
    as Hnull.
  { rewrite (downloadAndClean_reads w url vid c st Hr Hs).
    unfold Vtt.cleaned. by rewrite Hempty. }
  assert (extractTranscript w url vid st
          = deepgramFallback w url vid
              (snd (downloadAndCleanYtDlpTranscript w url vid st))) as Heq.
  { rewrite (extractTranscript_captions w url vid st None
               (snd (downloadAndCleanYtDlpTranscript w url vid st)) Hu Hv); [done |].
    rewrite <- Hnull. apply surjective_pairing. }
  split; [done |]. split; [done |]. split; [done |].
  rewrite Heq.
  destruct (deepgramFallback_first w url vid
              (snd (downloadAndCleanYtDlpTranscript w url vid st))) as (evs & ->).
  set_solver.
Qed.

(** C7, on a track of timings, indices, tags and annotations. *)
Lemma non_text_subtitles_fall_back_witness :
  Vtt.fullParagraph Examples.silentVtt = []
  ∧ fst (downloadAndCleanYtDlpTranscript Examples.wSilent Examples.url
           Examples.videoId Examples.fresh) = Returned None.
Proof.
  destruct (non_text_subtitles_fall_back Examples.wSilent Examples.url
              Examples.videoId Examples.fresh Examples.silentVtt)
    as (H1 & H2 & _).
  - discriminate.
  - discriminate.
  - reflexivity.
  - reflexivity.
  - vm_compute. reflexivity.
  - split; [exact H1 | exact H2].
Defined.

(** ** Speaker labels *)

Lemma elem_of_speakerLabels (us : list Utterance) (x : jstring) :
  x ∈ speakerLabels us ↔
  ∃ u, u ∈ us ∧ x = speakerString (speaker u)
       ∧ x ≠ lit "undefined" ∧ x ≠ lit "null".
Proof.
  unfold speakerLabels. rewrite list_elem_of_In, filter_In, in_map_iff.
  unfold notSentinel. rewrite andb_true_iff, !negb_true_iff.
  unfold str_eqb. rewrite !bool_decide_eq_false. split.
  - intros ((u & <- & Hu) & H1 & H2). exists u.
    by rewrite list_elem_of_In.
  - intros (u & Hu & -> & H1 & H2). split; [| done].
    exists u. by rewrite <- list_elem_of_In.
Qed.

(** C8.  The speakers field is absent when no label other than the strings
    undefined and null is left; otherwise it lists, without repetition and
    without those two strings, exactly the labels of the utterances.  For
    the speakers 0, 1, 0, null it is the list of 0 and 1. *)
Theorem speaker_labels_distinct (us : option (list Utterance)) :
  match uniqueSpeakers (match us with
                        | Some l => Some (speakerLabels l)
                        | None => None
                        end) with
  | Some labels =>
      labels ≠ [] ∧ NoDup labels
      ∧ (lit "undefined" ∉ labels) ∧ (lit "null" ∉ labels)
      ∧ ∀ x, x ∈ labels ↔
             ∃ l u, us = Some l ∧ u ∈ l ∧ x = speakerString (speaker u)
                    ∧ x ≠ lit "undefined" ∧ x ≠ lit "null"
  | None =>
      ∀ l u, us = Some l → u ∈ l →
             (speakerString (speaker u) = lit "undefined")
             ∨ (speakerString (speaker u) = lit "null")
  end
  ∧ uniqueSpeakers
      (Some (speakerLabels [ {| speaker := SpNumber 0 |}; {| speaker := SpNumber 1 |};
                             {| speaker := SpNumber 0 |}; {| speaker := SpNull |} ]))
    = Some [lit "0"; lit "1"]
  ∧ uniqueSpeakers
      (Some (speakerLabels [ {| speaker := SpString (lit "0") |};
                             {| speaker := SpString (lit "1") |};
                             {| speaker := SpString (lit "0") |};
                             {| speaker := SpString (lit "null") |} ]))
    = Some [lit "0"; lit "1"]
  ∧ ∃ r, fst (extractTranscript Examples.wSilent Examples.url Examples.videoId
                Examples.fresh) = Returned r
         ∧ speakers r = Some [lit "0"; lit "1"].
Proof.
  split; [| split; [by vm_compute | split; [by vm_compute |]]].
  - destruct us as [l |]; simpl; [| by intros l u ?].
    destruct (speakerLabels l) as [| x0 rest] eqn:Hl.
    + intros l' u [= <-] Hu.
      destruct (decide (speakerString (speaker u) = lit "undefined")); [by left |].
      destruct (decide (speakerString (speaker u) = lit "null")); [by right |].
      assert (speakerString (speaker u) ∈ speakerLabels l) as Hin
        by (apply elem_of_speakerLabels; by exists u).
      rewrite Hl in Hin. by apply elem_of_nil in Hin.
    + rewrite <- Hl.
      assert (∀ x, x ∈ newSet (speakerLabels l) ↔
                ∃ l' u, Some l = Some l' ∧ u ∈ l' ∧ x = speakerString (speaker u)
                        ∧ x ≠ lit "undefined" ∧ x ≠ lit "null") as Hiff.
      { intros x. rewrite elem_of_newSet, elem_of_speakerLabels. split.
        - intros (u & ?). by exists l, u.
        - intros (l' & u & [= <-] & ?). by exists u. }
      split; [| split; [apply NoDup_newSet | split; [| split; [| done]]]].
      * intros Hnil. assert (x0 ∈ newSet (speakerLabels l)) as Hin
          by (apply elem_of_newSet; rewrite Hl; apply list_elem_of_here).
        rewrite Hnil in Hin. by apply elem_of_nil in Hin.
      * intros (_ & _ & _ & _ & _ & H & _)%Hiff. done.
      * intros (_ & _ & _ & _ & _ & _ & H)%Hiff. done.
  - eexists. split; [vm_compute; reflexivity | reflexivity].
Qed.

(** C8, read at the utterances 0, 1, 0, null. *)
Lemma speaker_labels_distinct_witness :
  NoDup [lit "0"; lit "1"] ∧ (lit "null" ∉ [lit "0"; lit "1"]).
Proof.
  pose proof (speaker_labels_distinct
                (Some [ {| speaker := SpNumber 0 |}; {| speaker := SpNumber 1 |};
                        {| speaker := SpNumber 0 |}; {| speaker := SpNull |} ]))
    as [H _].
  change (uniqueSpeakers _) with (Some [lit "0"; lit "1"]) in H.
  destruct H as (_ & Hnodup & _ & Hnull & _).
  split; [exact Hnodup | exact Hnull].
Defined.

(** ** generateSummary *)

(** C9.  [generateSummary] never throws: it returns a summary or null.
    Without GEMINI_API_KEY it returns null after logging the missing key,
    with no request to the service.  With a key it sends one request; when
    that request fails it logs the error and returns null, without a
    second request; when it succeeds it returns the text. *)
Theorem generateSummary_returns_summary_or_null
    (w : World) (transcript title author : jstring) (st : State) :
  (∃ r, fst (generateSummary w transcript title author st) = Returned r)
  ∧ (env_GEMINI_API_KEY w = None →
     generateSummary w transcript title author st
     = (Returned None,
        mkState (files st) (dirs st) (trace st ++ [EConsole ErrGeminiKeyMissing])))
  ∧ (truthy (env_GEMINI_API_KEY w) = true →
     ∀ e, generateContent w (summaryPrompt transcript title author) = inl e →
          generateSummary w transcript title author st
          = (Returned None,
             mkState (files st) (dirs st)
               (trace st ++ [EGenerateContent (summaryPrompt transcript title author);
                             EConsole (ErrGeminiFailed e)])))
  ∧ (truthy (env_GEMINI_API_KEY w) = true →
     ∀ s, generateContent w (summaryPrompt transcript title author) = inr s →
          generateSummary w transcript title author st
          = (Returned (Some s),
             mkState (files st) (dirs st)
               (trace st ++ [EGenerateContent (summaryPrompt transcript title author)]))).
Proof.
  unfold generateSummary, tryCatch, bind, console, emit, liftSum, ret, throw.
  split; [| split; [| split]].
  - destruct (truthy (env_GEMINI_API_KEY w)); [| by eexists].
    destruct (generateContent w _); by eexists.
  - by intros ->.
  - intros -> e ->. simpl. by rewrite <- app_assoc.
  - by intros -> s ->.
Qed.

(** C9, without a key and with a failing service. *)
Lemma generateSummary_returns_summary_or_null_witness :
  fst (generateSummary Examples.wNoKey (lit "text") (lit "T") (lit "A")
         Examples.fresh) = Returned None
  ∧ fst (generateSummary Examples.wStalls (lit "text") (lit "T") (lit "A")
           Examples.fresh) = Returned None.
Proof.
  destruct (generateSummary_returns_summary_or_null Examples.wNoKey
              (lit "text") (lit "T") (lit "A") Examples.fresh)
    as (_ & Hnokey & _).
  destruct (generateSummary_returns_summary_or_null Examples.wStalls
              (lit "text") (lit "T") (lit "A") Examples.fresh)
    as (_ & _ & Hfail & _).
  split.
  - rewrite Hnokey; reflexivity.
  - rewrite (Hfail eq_refl Examples.serviceDown eq_refl). reflexivity.
Defined.

(** * Further properties of the pipeline *)

Section MoreRelations.

#[global] Instance keepsDirs_refl : Reflexive keepsDirs.
Proof. by intros st. Qed.

#[global] Instance keepsDirs_trans : Transitive keepsDirs.
Proof. intros s1 s2 s3 H1 H2. unfold keepsDirs in *. congruence. Qed.



End MoreRelations.



Section PipelineExtras.

Variable w : World.
Implicit Types (st : State) (p q url vid : jstring).






End PipelineExtras.

Section PipelineResults.

Variable w : World.
Implicit Types (st : State) (p q url vid : jstring).



Lemma ensureTranscriptsDirectory_thrown st e :
  fst (ensureTranscriptsDirectory w st) = Thrown e →
  mkdirSync_throws w (transcriptsDir w) = Some e
  ∧ transcriptsDir w ∉ dirs st.
Proof.
  unfold ensureTranscriptsDirectory, mkdirSync, bind, hasDir, emit, addDir, throw.
  simpl. destruct (bool_decide _) eqn:E; [done |].
  apply bool_decide_eq_false in E.
  destruct (mkdirSync_throws w (transcriptsDir w)); [| done].
  intros [= ->]. done.
Qed.



End PipelineResults.

(** X1.  When yt-dlp succeeds and the subtitle file it wrote cleans to a
    non-empty paragraph, [extractTranscript] returns that paragraph with
    the caption tag, no confidence and no speakers; the metadata is that of
    [ytdl.getInfo] when it answers and absent when it fails, which is not
    an error.  The subtitle file is cleaned up, and nothing of the audio
    path runs. *)
Theorem caption_success_result
    (w : World) (url vid : jstring) (st : State) (c : jstring) :
  url ≠ [] → vid ≠ [] →
  exec_rejects (exec w (ytDlpCommand w url vid)) = None →
  exec_subtitle (exec w (ytDlpCommand w url vid)) = Some c →
  Vtt.fullParagraph c ≠ [] →
  fst (extractTranscript w url vid st)
  = Returned {| transcript := Some (Vtt.fullParagraph c);
                speakers := None;
                method := YoutubeCaptionsYdlp;
                confidence := None;
                metadata := match ytdl_getInfo w url with
                            | inr info => Some (metadataOf info)
                            | inl _ => None
                            end |}
  ∧ cleanedUp w (tempVttFile w vid) (snd (extractTranscript w url vid st))
  ∧ emitsOnly (λ e, negb (isAudioTranscriptionEvent e))
      st (snd (extractTranscript w url vid st)).
Proof.
  intros Hu Hv Hr Hs Hp.
  pose proof (downloadAndClean_reads w url vid c st Hr Hs) as Hread.
  assert (Vtt.cleaned c = Some (Vtt.fullParagraph c)) as Hclean.
  { unfold Vtt.cleaned. destruct (Vtt.fullParagraph c); done. }
  rewrite Hclean in Hread.
  set (st1 := snd (downloadAndCleanYtDlpTranscript w url vid st)).
  assert (downloadAndCleanYtDlpTranscript w url vid st
          = (Returned (Some (Vtt.fullParagraph c)), st1)) as Hrun
    by (rewrite <- Hread; apply surjective_pairing).
  rewrite (extractTranscript_captions w url vid st _ st1 Hu Hv Hrun).
  assert (truthy (Some (Vtt.fullParagraph c)) = true) as ->
    by (destruct (Vtt.fullParagraph c); done).
  split; [apply captionsResult_returns |]. split.
  - eapply cleanedUp_preserved.
    + apply (downloadAndClean_cleanedUp w url vid st).
    + apply (captionsResult_files w url _ st1), not_elem_of_nil.
    + eapply extends_anyEvent, captionsResult_events.
  - transitivity st1.
    + eapply emitsOnly_weaken; [apply not_audio_of_captionStage |].
      apply downloadAndClean_events.
    + eapply emitsOnly_weaken; [apply not_audio_of_captionMethod |].
      apply captionsResult_events.
Qed.

(** X1, with the sample track, when the metadata is available. *)
Lemma caption_success_result_witness :
  ∃ r, fst (extractTranscript Examples.wCaptions Examples.url Examples.videoId
              Examples.fresh) = Returned r
       ∧ transcript r = Some (lit "hello world again")
       ∧ metadata r = Some (metadataOf Examples.sampleInfo).
Proof.
  destruct (caption_success_result Examples.wCaptions Examples.url
              Examples.videoId Examples.fresh Examples.sampleVtt)
    as (H & _).
  - discriminate.
  - discriminate.
  - reflexivity.
  - reflexivity.
  - vm_compute. discriminate.
  - eexists. split; [exact H |]. split; [vm_compute; reflexivity | reflexivity].
Defined.

(** X2.  When the yt-dlp command fails, the caption method does not read
    any file and returns null: it logs the error, adds the hint about
    installing yt-dlp exactly when the stderr of the command mentions
    [command not found], and runs its clean-up. *)
Theorem ytdlp_failure_yields_null
    (w : World) (url vid : jstring) (st : State) (e : JsError) :
  exec_rejects (exec w (ytDlpCommand w url vid)) = Some e →
  fst (downloadAndCleanYtDlpTranscript w url vid st) = Returned None
  ∧ ∃ cleanup,
      trace (snd (downloadAndCleanYtDlpTranscript w url vid st))
      = trace st
        ++ [EConsole LogStartingYtDlp; EExec (ytDlpCommand w url vid);
            EConsole (ErrYtDlpMethod e)]
        ++ (if match err_stderr e with
               | Some s => includes (lit "command not found") s
               | None => false
               end
            then [EConsole ErrTipInstallYtDlp] else [])
        ++ cleanup
      ∧ forallb isCleanupEvent cleanup = true.
Proof.
  intros Hrej. rewrite downloadAndClean_eq. cbn [fst snd].
  assert (∃ fs,
            tryCatch (captionAttempt w url vid) captionRecover st
            = (Returned None,
               mkState fs (dirs st)
                 (trace st
                  ++ [EConsole LogStartingYtDlp; EExec (ytDlpCommand w url vid);
                      EConsole (ErrYtDlpMethod e)]
                  ++ (if match err_stderr e with
                         | Some s => includes (lit "command not found") s
                         | None => false
                         end
                      then [EConsole ErrTipInstallYtDlp] else []))))
    as (fs & ->).
  { unfold tryCatch, captionAttempt, execPromise, captionRecover, bind, console,
      emit, modifyFiles, ret, throw.
    cbv zeta. rewrite Hrej.
    destruct (exec_subtitle _); cbn [fst snd files dirs trace];
      (destruct (err_stderr e) as [s |]; [destruct (includes _ s) |]);
      cbn [fst snd files dirs trace];
      eexists; rewrite <- ?app_assoc; reflexivity. }
  split; [done |]. rewrite safeDeleteFile_eq. cbn [fst snd files dirs trace].
  destruct (fs !! tempVttFile w vid).
  - destruct (unlinkSync_throws w _); eexists; cbn [trace];
      (split; [rewrite <- !app_assoc; reflexivity | reflexivity]).
  - exists []. cbn [trace]. by rewrite !app_nil_r.
Qed.

(** X2, when yt-dlp is not installed. *)
Lemma ytdlp_failure_yields_null_witness :
  fst (downloadAndCleanYtDlpTranscript Examples.wNoKey Examples.url
         Examples.videoId Examples.fresh) = Returned None.
Proof.
  apply (ytdlp_failure_yields_null Examples.wNoKey Examples.url
           Examples.videoId Examples.fresh Examples.ytDlpMissing).
  reflexivity.
Defined.

Section AudioSuccess.

Variable w : World.
Implicit Types (st : State) (p q url vid : jstring).




End AudioSuccess.





(** X5.  [extractTranscript] throws only three errors: the one about its
    parameters, the one about the missing key, and an error of
    [mkdirSync] for the transcripts directory.  No error of yt-dlp, of
    ytdl-core, of the download or of Deepgram escapes from it. *)
Theorem extractTranscript_thrown_errors
    (w : World) (url vid : jstring) (st : State) (e : JsError) :
  fst (extractTranscript w url vid st) = Thrown e →
  (e = paramsError ∧ (url = [] ∨ vid = []))
  ∨ (e = keyMissing ∧ truthy (env_DEEPGRAM_API_KEY w) = false)
  ∨ mkdirSync_throws w (transcriptsDir w) = Some e.
Proof.
  unfold extractTranscript.
  destruct (Vtt.isEmpty url || Vtt.isEmpty vid) eqn:Hempty.
  - intros [= <-]. left. split; [done |].
    apply orb_true_iff in Hempty as [H | H]; [left | right];
      by destruct url, vid.
  - destruct (downloadAndClean_returns w url vid st) as (captions & Hfst & _).
    unfold bind.
    destruct (downloadAndCleanYtDlpTranscript w url vid st) as [o st1].
    simpl in Hfst. subst o.
    destruct (truthy captions).
    + by rewrite captionsResult_returns.
    + destruct (truthy (env_DEEPGRAM_API_KEY w)) eqn:Hkey.
      * unfold deepgramFallback. rewrite Hkey.
        unfold bind at 1 2 3. unfold console, emit. cbn [fst snd].
        match goal with
        | |- context [ensureTranscriptsDirectory w ?s] =>
            pose proof (ensureTranscriptsDirectory_thrown w s) as Hth;
            destruct (ensureTranscriptsDirectory w s) as [[[] | e'] st2]
        end; simpl in *.
        -- destruct (deepgramTry_returns w url (audioFilePath w vid) st2)
             as (r & Hr).
           rewrite Hr. done.
        -- intros [= <-]. right. right. by apply (Hth e').
      * rewrite deepgramFallback_noKey by done. intros [= <-].
        right. left. done.
Qed.

(** X5, at the missing key. *)
Lemma extractTranscript_thrown_errors_witness :
  (keyMissing = paramsError ∧ (Examples.url = [] ∨ Examples.videoId = []))
  ∨ (keyMissing = keyMissing
     ∧ truthy (env_DEEPGRAM_API_KEY Examples.wNoKey) = false)
  ∨ mkdirSync_throws Examples.wNoKey (transcriptsDir Examples.wNoKey)
    = Some keyMissing.
Proof.
  apply (extractTranscript_thrown_errors Examples.wNoKey Examples.url
           Examples.videoId Examples.fresh keyMissing).
  vm_compute. reflexivity.
Defined.

Section Settling.

Variable w : World.
Implicit Types (st : State) (p q url vid : jstring).

Lemma runStreams_settles p pre ev post st :
  forallb isProgress pre = true → isProgress ev = false →
  fst (runStreams p (pre ++ ev :: post) st) = settlement ev
  ∧ trace (snd (runStreams p (pre ++ ev :: post) st)) = trace st ++ settleLog ev.
Proof.
  revert st. induction pre as [| x pre IH]; intros st Hpre Hev.
  - destruct ev; try done; simpl; unfold bind, console, emit; simpl;
      rewrite <- ?app_assoc; done.
  - simpl in Hpre. apply andb_true_iff in Hpre as [Hx Hpre].
    destruct x; try done.
    + exact (IH (mkState (<[p:=[]]> (files st)) (dirs st) (trace st)) Hpre Hev).
    + exact (IH (mkState (alter (fun c => c ++ chunk) p (files st)) (dirs st)
                   (trace st)) Hpre Hev).
Qed.

End Settling.

(** X6.  The promise of [downloadAudio] is settled by the first event that
    is an end or a stream error; what the streams do afterwards does not
    matter.  An end resolves it and clears the timer; a stream error
    rejects it with that error.  In neither case are the streams
    destroyed: only the timer callback destroys them. *)
Theorem download_settles_on_first_event
    (w : World) (url p : jstring) (st : State)
    (pre : list StreamEvent) (ev : StreamEvent) (post : list StreamEvent) :
  setup_throws (ytdl_download w url) = None →
  before_timeout (ytdl_download w url) = pre ++ ev :: post →
  forallb isProgress pre = true →
  isProgress ev = false →
  fst (downloadAudio w url p st) = settlement ev
  ∧ trace (snd (downloadAudio w url p st))
    = trace st ++ [EOpenStreams url p; ESetTimeout 300000] ++ settleLog ev
  ∧ (∀ e, isDestroy e = true →
          e ∈ trace (snd (downloadAudio w url p st)) → e ∈ trace st).
Proof.
  intros Hs Hp Hpre Hev.
  assert (fst (downloadAudio w url p st) = settlement ev
          ∧ trace (snd (downloadAudio w url p st))
            = trace st ++ [EOpenStreams url p; ESetTimeout 300000] ++ settleLog ev)
    as [H1 H2].
  { assert (downloadAudio w url p st
            = runStreams p (pre ++ ev :: post)
                (mkState (files st) (dirs st)
                   ((trace st ++ [EOpenStreams url p]) ++ [ESetTimeout 300000])))
      as ->.
    { unfold downloadAudio. rewrite Hs, Hp. reflexivity. }
    destruct (runStreams_settles p pre ev post
                (mkState (files st) (dirs st)
                   ((trace st ++ [EOpenStreams url p]) ++ [ESetTimeout 300000]))
                Hpre Hev) as [-> ->].
    split; [done |]. cbn [trace]. by rewrite <- !app_assoc. }
  split; [done |]. split; [done |].
  intros e He. rewrite H2, !elem_of_app.
  intros [? | [Hin | Hin]]; [done | |].
  - apply elem_of_cons in Hin as [-> | Hin]; [done |].
    apply list_elem_of_singleton in Hin as ->. done.
  - destruct ev; try done; simpl in Hin;
      repeat (apply elem_of_cons in Hin as [-> | Hin]; [done |]);
      by apply elem_of_nil in Hin.
Qed.

(** X6, with a download that ends after more data than the plan needs. *)
Lemma download_settles_on_first_event_witness :
  fst (downloadAudio Examples.wCaptions Examples.url (lit "a.mp4") Examples.fresh)
  = Returned tt.
Proof.
  apply (download_settles_on_first_event Examples.wCaptions Examples.url
           (lit "a.mp4") Examples.fresh [EvOpen; EvData [1; 2]; EvData [3]]
           EvEnd []).
  - reflexivity.
  - reflexivity.
  - reflexivity.
  - reflexivity.
Defined.



Section ParagraphShape.

Implicit Types (s t cur : jstring) (l : list jstring).

Lemma elem_of_rev cur x : x ∈ rev cur ↔ x ∈ cur.
Proof. rewrite !list_elem_of_In. symmetry. apply in_rev. Qed.

Lemma dropCR_subset cur x : x ∈ dropCR cur → x ∈ cur.
Proof.
  destruct cur as [| c r]; [done |]. unfold dropCR.
  destruct (decide (c = 13)) as [-> | Hc].
  - apply list_elem_of_further.
  - by replace (match c with 13 => r | _ => c :: r end) with (c :: r)
      by (destruct c as [| p]; [done |]; do 4 (destruct p; try done)).
Qed.

Lemma splitLinesAux_noLF cur s t :
  10 ∉ cur → t ∈ splitLinesAux cur s → 10 ∉ t.
Proof.
  revert cur. induction s as [| c r IH]; intros cur Hcur; simpl.
  - intros ->%list_elem_of_singleton. by rewrite elem_of_rev.
  - destruct (N.eqb_spec c 10) as [-> | Hc].
    + intros [-> | Hin]%elem_of_cons.
      * rewrite elem_of_rev. intros H. by apply Hcur, dropCR_subset.
      * apply (IH []); [apply not_elem_of_nil | done].
    + apply IH. intros [? | ?]%elem_of_cons; [by apply Hc | done].
Qed.

Lemma trimStart_subset s x : x ∈ trimStart s → x ∈ s.
Proof.
  destruct (trimStart_suffix s) as [p Hp]. intros H.
  rewrite Hp. apply elem_of_app. by right.
Qed.

Lemma trimEnd_subset s x : x ∈ trimEnd s → x ∈ s.
Proof.
  destruct (trimEnd_prefix s) as [q Hq]. intros H.
  rewrite Hq. apply elem_of_app. by left.
Qed.

Lemma trim_subset s x : x ∈ trim s → x ∈ s.
Proof. intros H. by apply trimStart_subset, trimEnd_subset. Qed.

Lemma stripTagsAux_subset b s x : x ∈ stripTagsAux b s → x ∈ s.
Proof.
  revert b. induction s as [| c r IH]; intros b; simpl; [done |].
  destruct b.
  - destruct (c =? 62); intros H; apply list_elem_of_further; by eapply IH.
  - destruct ((c =? 60) && hasGt r).
    + intros H. apply list_elem_of_further. by eapply IH.
    + intros [-> | H]%elem_of_cons; [apply list_elem_of_here |].
      apply list_elem_of_further. by eapply IH.
Qed.

Lemma stripBracketsAux_subset b s x : x ∈ stripBracketsAux b s → x ∈ s.
Proof.
  revert b. induction s as [| c r IH]; intros b; simpl; [done |].
  destruct b.
  - destruct (c =? 93); intros H; apply list_elem_of_further; by eapply IH.
  - destruct ((c =? 91) && closes r).
    + intros H. apply list_elem_of_further. by eapply IH.
    + intros [-> | H]%elem_of_cons; [apply list_elem_of_here |].
      apply list_elem_of_further. by eapply IH.
Qed.

Lemma cleanLine_subset s x : x ∈ Vtt.cleanLine s → x ∈ s.
Proof.
  unfold Vtt.cleanLine, stripBrackets, stripTags.
  intros H%trim_subset%stripBracketsAux_subset%stripTagsAux_subset. done.
Qed.

Lemma elem_of_join sep l x :
  x ∈ join sep l → x ∈ sep ∨ ∃ y, y ∈ l ∧ x ∈ y.
Proof.
  induction l as [| y [| z r] IH]; simpl.
  - by intros ?%elem_of_nil.
  - intros H. right. exists y. split; [apply list_elem_of_here | done].
  - rewrite !elem_of_app. intros [H | [H | H]].
    + right. exists y. split; [apply list_elem_of_here | done].
    + by left.
    + destruct (IH H) as [? | (y' & Hy' & Hx)]; [by left |].
      right. exists y'. split; [by apply list_elem_of_further | done].
Qed.

(** *** Clean ends *)

Lemma trimStart_startsClean s : startsClean (trimStart s).
Proof.
  induction s as [| c r IH]; [done |]. simpl.
  destruct (isWhiteSpace c) eqn:E; [done |]. by simpl.
Qed.

Lemma startsClean_trimStart s : startsClean s → trimStart s = s.
Proof. destruct s as [| c r]; [done |]. simpl. by intros ->. Qed.

Lemma trimEnd_endsClean s : endsClean (trimEnd s).
Proof.
  unfold endsClean, trimEnd. rewrite rev_involutive.
  apply trimStart_startsClean.
Qed.

Lemma endsClean_trimEnd s : endsClean s → trimEnd s = s.
Proof.
  unfold endsClean, trimEnd. intros H.
  by rewrite (startsClean_trimStart _ H), rev_involutive.
Qed.

Lemma startsClean_prefix s t : startsClean (s ++ t) → startsClean s.
Proof. by destruct s. Qed.

Lemma startsClean_trimEnd s : startsClean s → startsClean (trimEnd s).
Proof.
  destruct (trimEnd_prefix s) as [q Hq]. intros H.
  rewrite Hq in H. by eapply startsClean_prefix.
Qed.

Lemma trim_startsClean s : startsClean (trim s).
Proof. apply startsClean_trimEnd, trimStart_startsClean. Qed.

Lemma trim_endsClean s : endsClean (trim s).
Proof. apply trimEnd_endsClean. Qed.

Lemma clean_trim s : startsClean s → endsClean s → trim s = s.
Proof.
  intros H1 H2. unfold trim.
  by rewrite (startsClean_trimStart _ H1), (endsClean_trimEnd _ H2).
Qed.

Lemma startsClean_app s t : s ≠ [] → startsClean s → startsClean (s ++ t).
Proof. by destruct s. Qed.

Lemma endsClean_app s t : t ≠ [] → endsClean t → endsClean (s ++ t).
Proof.
  unfold endsClean. intros Ht H. rewrite rev_app_distr.
  apply startsClean_app; [| done].
  intros E. apply Ht. by rewrite <- (rev_involutive t), E.
Qed.

Lemma join_clean sep l :
  l ≠ [] →
  Forall (fun x => x ≠ [] ∧ startsClean x ∧ endsClean x) l →
  join sep l ≠ [] ∧ startsClean (join sep l) ∧ endsClean (join sep l).
Proof.
  induction l as [| y [| z r] IH]; intros Hne Hall; [done | |].
  - simpl. by apply Forall_inv in Hall.
  - apply Forall_cons in Hall as [(Hy & Hs & He) Hall].
    destruct (IH ltac:(done) Hall) as (Hj & Hjs & Hje).
    change (join sep (y :: z :: r)) with (y ++ sep ++ join sep (z :: r)).
    split; [by destruct y |]. split.
    + by apply startsClean_app.
    + rewrite app_assoc. by apply endsClean_app.
Qed.

(** *** Line endings *)

Lemma splitLinesAux_app cur a :
  ∃ init cur', ∀ b,
    splitLinesAux cur (a ++ b) = init ++ splitLinesAux cur' b.
Proof.
  revert cur. induction a as [| c r IH]; intros cur.
  - by exists [], cur.
  - simpl. destruct (c =? 10).
    + destruct (IH []) as (init & cur' & H).
      exists (rev (dropCR cur) :: init), cur'. intros b. by rewrite H.
    + apply IH.
Qed.

Lemma trimStart_app s t :
  trimStart (s ++ t)
  = if forallb isWhiteSpace s then trimStart t else trimStart s ++ t.
Proof.
  induction s as [| c r IH]; [done |]. simpl.
  by destruct (isWhiteSpace c).
Qed.

Lemma trimStart_white' s : forallb isWhiteSpace s = true → trimStart s = [].
Proof.
  induction s as [| c r IH]; [done |]. simpl.
  intros [-> H]%andb_true_iff. by apply IH.
Qed.

Lemma trim_snoc_CR s : trim (s ++ [13]) = trim s.
Proof.
  unfold trim. rewrite trimStart_app.
  destruct (forallb isWhiteSpace s) eqn:E.
  - by rewrite (trimStart_white' _ E).
  - unfold trimEnd. by rewrite rev_app_distr.
Qed.

Lemma sameTrim_dropCR cur : sameTrim (rev (dropCR cur)) (rev cur).
Proof.
  unfold sameTrim. destruct cur as [| c r]; [done |].
  destruct (decide (c = 13)) as [-> | Hc].
  - simpl. by rewrite trim_snoc_CR.
  - by replace (dropCR (c :: r)) with (c :: r)
      by (destruct c as [| p]; [done |]; do 4 (destruct p; try done)).
Qed.

Lemma textLines_sameTrim l l' :
  Forall2 sameTrim l l' → Vtt.textLines l = Vtt.textLines l'.
Proof.
  induction 1 as [| a b l l' Hab _ IH]; [done |]. simpl.
  unfold sameTrim in Hab. by rewrite Hab, IH.
Qed.

Lemma Forall2_sameTrim_refl l : Forall2 sameTrim l l.
Proof. induction l; by constructor. Qed.

Lemma splitLines_crlf l :
  Forall2 sameTrim (splitLines (join [13; 10] l)) (splitLines (join [10] l)).
Proof.
  unfold splitLines.
  induction l as [| y [| z r] IH].
  - apply Forall2_sameTrim_refl.
  - apply Forall2_sameTrim_refl.
  - change (join [13; 10] (y :: z :: r))
      with (y ++ 13 :: 10 :: join [13; 10] (z :: r)).
    change (join [10] (y :: z :: r)) with (y ++ 10 :: join [10] (z :: r)).
    destruct (splitLinesAux_app [] y) as (init & cur' & H).
    rewrite !H. apply Forall2_app; [apply Forall2_sameTrim_refl |].
    simpl. constructor; [| exact IH].
    unfold sameTrim. symmetry. apply (sameTrim_dropCR cur').
Qed.

End ParagraphShape.

(** X8.  The paragraph cleaned from a subtitle file is a single line: it
    holds no line feed, and it neither begins nor ends with white space
    ([trim] leaves it as it is). *)
Theorem caption_paragraph_single_trimmed_line (vttContent : jstring) :
  (10 ∉ Vtt.fullParagraph vttContent)
  ∧ trim (Vtt.fullParagraph vttContent) = Vtt.fullParagraph vttContent.
Proof.
  unfold Vtt.fullParagraph. split.
  - intros [H | (y & Hy & Hx)]%elem_of_join.
    + by apply list_elem_of_singleton in H.
    + apply elem_of_newSet, elem_of_textLines in Hy
        as (_ & line & Hline & _ & ->).
      apply cleanLine_subset, trim_subset in Hx.
      by apply (splitLinesAux_noLF [] vttContent line (not_elem_of_nil _)).
  - destruct (newSet (Vtt.textLines (splitLines vttContent))) as [| y r] eqn:E;
      [done |].
    destruct (join_clean (lit " ") (y :: r)) as (_ & Hs & He); [done | |].
    + rewrite <- E. apply Forall_forall. intros x Hx.
      apply elem_of_newSet, elem_of_textLines in Hx
        as (Hne & line & _ & _ & ->).
      split; [done |]. unfold Vtt.cleanLine.
      split; [apply trim_startsClean | apply trim_endsClean].
    + by apply clean_trim.
Qed.

(** X9.  Line endings do not matter: the same lines joined by CR LF
    (as a file written on Windows has them) and joined by LF alone give
    the same paragraph. *)
Theorem caption_paragraph_ignores_crlf (lines : list jstring) :
  Vtt.fullParagraph (join [13; 10] lines) = Vtt.fullParagraph (join [10] lines).
Proof.
  unfold Vtt.fullParagraph.
  by rewrite (textLines_sameTrim _ _ (splitLines_crlf lines)).
Qed.

Section Strings.

Implicit Types (p s r : jstring).

Lemma startsWith_app p r : startsWith p (p ++ r) = true.
Proof. induction p as [| a p IH]; [done |]. simpl. by rewrite N.eqb_refl. Qed.

Lemma startsWith_spec p s : startsWith p s = true ↔ ∃ r, s = p ++ r.
Proof.
  split.
  - revert s. induction p as [| a p IH]; intros s H.
    + by exists s.
    + destruct s as [| b s]; [done |]. simpl in H.
      apply andb_true_iff in H as [Hab H]. apply N.eqb_eq in Hab as ->.
      destruct (IH _ H) as [r ->]. by exists r.
  - intros [r ->]. apply startsWith_app.
Qed.

Lemma includes_cons p c s : includes p s = true → includes p (c :: s) = true.
Proof. intros H. simpl. rewrite H. apply orb_true_r. Qed.

Lemma includes_here p s : startsWith p s = true → includes p s = true.
Proof. intros H. destruct s; simpl in *; by rewrite H. Qed.

Lemma includes_app p pre post : includes p (pre ++ p ++ post) = true.
Proof.
  induction pre as [| c pre IH].
  - apply includes_here. simpl. apply startsWith_app.
  - by apply includes_cons.
Qed.

Lemma includes_spec p s :
  includes p s = true ↔ ∃ pre post, s = pre ++ p ++ post.
Proof.
  split.
  - induction s as [| c s IH]; simpl.
    + rewrite orb_false_r. intros [r ->]%startsWith_spec. by exists [], r.
    + intros [H | H]%orb_true_iff.
      * apply startsWith_spec in H as [r ->]. by exists [], r.
      * destruct (IH H) as (pre & post & ->). by exists (c :: pre), post.
  - intros (pre & post & ->). apply includes_app.
Qed.

End Strings.

Section VideoId.

Import ManualHelper.
Implicit Types (s id rest url : jstring).

Lemma idRun_split s :
  ∃ rest, s = idRun s ++ rest
          ∧ (∀ c, c ∈ idRun s → isIdStop c = false)
          ∧ stopsHere rest.
Proof.
  induction s as [| c r (rest & Hs & Hrun & Hrest)]; simpl.
  - exists []. split; [done |]. split; [by intros ? ?%elem_of_nil | done].
  - destruct (isIdStop c) eqn:E.
    + exists (c :: r). split; [done |].
      split; [by intros ? ?%elem_of_nil | done].
    + exists rest. split; [simpl; by f_equal |].
      split; [| done].
      intros x [-> | Hx]%elem_of_cons; [done | by apply Hrun].
Qed.

Lemma idRun_app id rest :
  (∀ c, c ∈ id → isIdStop c = false) → stopsHere rest →
  idRun (id ++ rest) = id.
Proof.
  intros Hid Hrest. induction id as [| c id IH]; simpl.
  - destruct rest as [| c r]; [done |]. simpl in *. by rewrite Hrest.
  - rewrite (Hid c) by apply list_elem_of_here. f_equal.
    apply IH. intros x Hx. by apply Hid, list_elem_of_further.
Qed.

Lemma matchHere_sound alternatives s id :
  matchHere alternatives s = Some id →
  id ≠ [] ∧ (∀ c, c ∈ id → isIdStop c = false)
  ∧ ∃ marker rest, marker ∈ alternatives ∧ s = marker ++ id ++ rest
                   ∧ stopsHere rest.
Proof.
  induction alternatives as [| m alts IH]; simpl; [done |].
  assert (matchHere alts s = Some id →
          id ≠ [] ∧ (∀ c, c ∈ id → isIdStop c = false)
          ∧ ∃ marker rest, marker ∈ m :: alts ∧ s = marker ++ id ++ rest
                           ∧ stopsHere rest) as Hrec.
  { intros H. destruct (IH H) as (H1 & H2 & marker & rest & Hin & Hs & Hr).
    split; [done |]. split; [done |].
    exists marker, rest. split; [by apply list_elem_of_further | done]. }
  destruct (startsWith m s) eqn:Hm; [| done].
  apply startsWith_spec in Hm as [r ->].
  rewrite drop_app_length.
  destruct (idRun_split r) as (rest & Hr & Hrun & Hrest).
  destruct (idRun r) as [| c run] eqn:E; [done |].
  intros [= <-]. split; [done |]. split; [done |].
  exists m, rest. split; [apply list_elem_of_here |]. by rewrite <- Hr.
Qed.

Lemma firstMatch_sound alternatives s id :
  firstMatch alternatives s = Some id →
  id ≠ [] ∧ (∀ c, c ∈ id → isIdStop c = false)
  ∧ ∃ pre marker rest, marker ∈ alternatives
                       ∧ s = pre ++ marker ++ id ++ rest ∧ stopsHere rest.
Proof.
  induction s as [| c s IH]; simpl.
  - destruct (matchHere alternatives []) eqn:E; [| done].
    intros [= ->]. destruct (matchHere_sound _ _ _ E)
      as (H1 & H2 & marker & rest & Hin & Hs & Hr).
    split; [done |]. split; [done |]. by exists [], marker, rest.
  - destruct (matchHere alternatives (c :: s)) eqn:E.
    + intros [= ->]. destruct (matchHere_sound _ _ _ E)
        as (H1 & H2 & marker & rest & Hin & Hs & Hr).
      split; [done |]. split; [done |]. by exists [], marker, rest.
    + intros H. destruct (IH H) as (H1 & H2 & pre & marker & rest & Hin & -> & Hr).
      split; [done |]. split; [done |]. by exists (c :: pre), marker, rest.
Qed.

Lemma matchHere_watch_other c s :
  c ≠ 121 → matchHere watchMarkers (c :: s) = None.
Proof.
  intros Hc.
  assert (∀ p, head p = Some 121 → startsWith p (c :: s) = false) as H.
  { intros [| a p] [= ->]. cbn [startsWith].
    by rewrite (proj2 (N.eqb_neq 121 c)) by done. }
  unfold watchMarkers. cbn [matchHere]. by rewrite !H by reflexivity.
Qed.

Lemma firstMatch_watch_skip pre s :
  121 ∉ pre →
  firstMatch watchMarkers (pre ++ s) = firstMatch watchMarkers s.
Proof.
  induction pre as [| c pre IH]; intros Hpre; [done |].
  change ((c :: pre) ++ s) with (c :: (pre ++ s)).
  cbn [firstMatch]. rewrite matchHere_watch_other.
  - apply IH. intros H. by apply Hpre, list_elem_of_further.
  - intros ->. apply Hpre, list_elem_of_here.
Qed.

Lemma firstMatch_here alternatives s id :
  matchHere alternatives s = Some id → firstMatch alternatives s = Some id.
Proof. intros H. destruct s; simpl in *; by rewrite H. Qed.

Lemma matchHere_watch marker id rest :
  marker ∈ watchMarkers → id ≠ [] →
  (∀ c, c ∈ id → isIdStop c = false) → stopsHere rest →
  matchHere watchMarkers (marker ++ id ++ rest) = Some id.
Proof.
  intros Hm Hne Hid Hrest.
  pose proof (idRun_app id rest Hid Hrest) as Hrun.
  destruct id as [| c id]; [done |].
  unfold watchMarkers in *.
  apply elem_of_cons in Hm as [-> | Hm];
    [| apply elem_of_cons in Hm as [-> | Hm];
       [| apply list_elem_of_singleton in Hm as ->]].
  - cbn [matchHere]. rewrite startsWith_app, drop_app_length. by rewrite Hrun.
  - cbn [matchHere].
    replace (startsWith (lit "youtube.com/watch?v=")
               (lit "youtu.be/" ++ (c :: id) ++ rest)) with false
      by reflexivity.
    rewrite startsWith_app, drop_app_length. by rewrite Hrun.
  - cbn [matchHere].
    replace (startsWith (lit "youtube.com/watch?v=")
               (lit "youtube.com/embed/" ++ (c :: id) ++ rest)) with false
      by reflexivity.
    replace (startsWith (lit "youtu.be/")
               (lit "youtube.com/embed/" ++ (c :: id) ++ rest)) with false
      by reflexivity.
    rewrite startsWith_app, drop_app_length. by rewrite Hrun.
Qed.

End VideoId.

Lemma extractVideoId_youtu (url id : jstring) :
  ManualHelper.extractVideoId url = Some id →
  ∃ pre post, url = pre ++ lit "youtu" ++ post.
Proof.
  unfold ManualHelper.extractVideoId, ManualHelper.patterns.
  cbn [ManualHelper.tryPatterns].
  assert (∀ alternatives,
            (∀ marker, marker ∈ alternatives →
                       ∃ tail, marker = lit "youtu" ++ tail) →
            ManualHelper.firstMatch alternatives url = Some id →
            ∃ pre post, url = pre ++ lit "youtu" ++ post) as Hone.
  { intros alternatives Halt H.
    destruct (firstMatch_sound _ _ _ H)
      as (_ & _ & pre & marker & rest & Hin & -> & _).
    destruct (Halt marker Hin) as [tail ->].
    exists pre, (tail ++ id ++ rest). by rewrite <- !app_assoc. }
  destruct (ManualHelper.firstMatch _ url) as [id1 |] eqn:E1.
  - intros [= ->]. apply (Hone _) in E1; [done |].
    intros marker Hin. rewrite !elem_of_cons in Hin.
    destruct Hin as [-> | [-> | [-> | Hin]]];
      [by eexists | by eexists | by eexists | by apply elem_of_nil in Hin].
  - destruct (ManualHelper.firstMatch [lit "youtube.com/v/"] url)
      as [id2 |] eqn:E2; [| done].
    intros [= ->]. apply (Hone _) in E2; [done |].
    intros marker ->%list_elem_of_singleton. by eexists.
Qed.

(** X10.  What [extractVideoId] returns is never empty and holds none of
    [&], line feed, [?] and [#]; it is the text that follows one of the
    four markers ([youtube.com/watch?v=], [youtu.be/], [youtube.com/embed/],
    [youtube.com/v/]) in the URL, up to the end of the URL or to the first
    of those four code units. *)
Theorem extractVideoId_sound (url id : jstring) :
  ManualHelper.extractVideoId url = Some id →
  id ≠ []
  ∧ (∀ c, c ∈ id → ManualHelper.isIdStop c = false)
  ∧ ∃ pre marker rest,
      marker ∈ concat ManualHelper.patterns
      ∧ url = pre ++ marker ++ id ++ rest
      ∧ stopsHere rest.
Proof.
  unfold ManualHelper.extractVideoId, ManualHelper.patterns.
  cbn [ManualHelper.tryPatterns].
  destruct (ManualHelper.firstMatch _ url) as [id1 |] eqn:E1.
  - intros [= ->].
    destruct (firstMatch_sound _ _ _ E1)
      as (H1 & H2 & pre & marker & rest & Hin & Hs & Hr).
    split; [done |]. split; [done |]. exists pre, marker, rest.
    split; [| done].
    change (concat ManualHelper.patterns)
      with (watchMarkers ++ [lit "youtube.com/v/"]).
    apply elem_of_app. by left.
  - destruct (ManualHelper.firstMatch [lit "youtube.com/v/"] url)
      as [id2 |] eqn:E2; [| done].
    intros [= ->].
    destruct (firstMatch_sound _ _ _ E2)
      as (H1 & H2 & pre & marker & rest & Hin & Hs & Hr).
    split; [done |]. split; [done |]. exists pre, marker, rest.
    split; [| done].
    change (concat ManualHelper.patterns)
      with (watchMarkers ++ [lit "youtube.com/v/"]).
    apply elem_of_app. by right.
Qed.

(** X10, at a watch URL with a time parameter. *)
Lemma extractVideoId_sound_witness :
  lit "dQw4w9WgXcQ" ≠ []
  ∧ (∀ c, c ∈ lit "dQw4w9WgXcQ" → ManualHelper.isIdStop c = false)
  ∧ ∃ pre marker rest,
      marker ∈ concat ManualHelper.patterns
      ∧ lit "https://www.youtube.com/watch?v=dQw4w9WgXcQ&t=42s"
        = pre ++ marker ++ lit "dQw4w9WgXcQ" ++ rest
      ∧ stopsHere rest.
Proof.
  apply (extractVideoId_sound
           (lit "https://www.youtube.com/watch?v=dQw4w9WgXcQ&t=42s")).
  vm_compute. reflexivity.
Defined.

(** X11.  A URL made of a prefix without the letter [y] (a scheme and a
    host prefix such as [https://www.] or [https://m.]), one of the
    markers [youtube.com/watch?v=], [youtu.be/], [youtube.com/embed/], a
    non-empty identifier free of [&], line feed, [?] and [#], and a
    remainder that is empty or begins with one of those, gives back the
    identifier. *)
Theorem extractVideoId_of_url (pre marker id rest : jstring) :
  121 ∉ pre →
  marker ∈ watchMarkers →
  id ≠ [] →
  (∀ c, c ∈ id → ManualHelper.isIdStop c = false) →
  stopsHere rest →
  ManualHelper.extractVideoId (pre ++ marker ++ id ++ rest) = Some id.
Proof.
  intros Hpre Hm Hne Hid Hrest.
  unfold ManualHelper.extractVideoId, ManualHelper.patterns.
  cbn [ManualHelper.tryPatterns].
  change [lit "youtube.com/watch?v="; lit "youtu.be/"; lit "youtube.com/embed/"]
    with watchMarkers.
  rewrite (firstMatch_watch_skip pre _ Hpre).
  by rewrite (firstMatch_here _ _ _ (matchHere_watch marker id rest Hm Hne Hid Hrest)).
Qed.

(** X11, at a short link with a query. *)
Lemma extractVideoId_of_url_witness :
  ManualHelper.extractVideoId
    (lit "https://" ++ lit "youtu.be/" ++ lit "dQw4w9WgXcQ" ++ lit "?si=abc")
  = Some (lit "dQw4w9WgXcQ").
Proof.
  apply (extractVideoId_of_url (lit "https://") (lit "youtu.be/")
           (lit "dQw4w9WgXcQ") (lit "?si=abc")).
  - vm_compute. intros H. by repeat (apply elem_of_cons in H as [H | H]; [done |]);
      apply elem_of_nil in H.
  - unfold watchMarkers. apply list_elem_of_further, list_elem_of_here.
  - discriminate.
  - intros c H. vm_compute in H.
    repeat (apply elem_of_cons in H as [-> | H]; [reflexivity |]).
    by apply elem_of_nil in H.
  - reflexivity.
Defined.

(** X12.  A URL that does not hold the text [youtu] has no video
    identifier: [extractVideoId] returns [null]. *)
Theorem extractVideoId_needs_youtu (url : jstring) :
  includes (lit "youtu") url = false →
  ManualHelper.extractVideoId url = None.
Proof.
  intros H. destruct (ManualHelper.extractVideoId url) as [id |] eqn:E; [| done].
  destruct (extractVideoId_youtu url id E) as (pre & post & ->).
  by rewrite includes_app in H.
Qed.

(** X12, at a link to another site. *)
Lemma extractVideoId_needs_youtu_witness :
  ManualHelper.extractVideoId (lit "https://vimeo.com/watch?v=12345") = None.
Proof.
  apply (extractVideoId_needs_youtu (lit "https://vimeo.com/watch?v=12345")).
  vm_compute. reflexivity.
Defined.

Section FileNames.

Import ListOutputs.
Implicit Types (s id ext rest fileName : jstring).

Lemma idThen_sound stop s id :
  idThen stop s = Some id →
  length id = 11%nat ∧ forallb isIdChar id = true
  ∧ ∃ post, s = id ++ stop :: post.
Proof.
  unfold idThen. destruct (drop 11 s) as [| c post] eqn:Hd; [done |].
  destruct (forallb isIdChar (take 11 s)) eqn:Hall; [| done].
  destruct (N.eqb_spec c stop) as [-> | _]; [| done].
  simpl. intros [= <-].
  assert (length s ≥ 12)%nat as Hlen.
  { apply (f_equal length) in Hd. rewrite length_drop in Hd. simpl in Hd. lia. }
  split; [rewrite length_take; lia |]. split; [done |].
  exists post. by rewrite <- Hd, take_drop.
Qed.

Lemma idThen_here stop id post :
  length id = 11%nat → forallb isIdChar id = true →
  idThen stop (id ++ stop :: post) = Some id.
Proof.
  intros Hlen Hall. unfold idThen.
  rewrite <- Hlen, drop_app_length, take_app_length, Hall, N.eqb_refl. done.
Qed.

Lemma idInMiddle_sound s id :
  idInMiddle s = Some id →
  length id = 11%nat ∧ forallb isIdChar id = true
  ∧ ∃ pre post, s = pre ++ id ++ 95 :: post.
Proof.
  induction s as [| c s IH]; simpl; [done |].
  destruct (if c =? 95 then idThen 95 s else None) as [id' |] eqn:E.
  - intros [= ->]. destruct (c =? 95); [| done].
    destruct (idThen_sound _ _ _ E) as (H1 & H2 & post & ->).
    split; [done |]. split; [done |]. by exists [c], post.
  - intros H. destruct (IH H) as (H1 & H2 & pre & post & ->).
    split; [done |]. split; [done |]. by exists (c :: pre), post.
Qed.

Lemma idBeforeDot_sound s id :
  idBeforeDot s = Some id →
  length id = 11%nat ∧ forallb isIdChar id = true
  ∧ ∃ pre post, s = pre ++ id ++ 46 :: post.
Proof.
  induction s as [| c s IH]; simpl.
  - done.
  - destruct (idThen 46 (c :: s)) as [id' |] eqn:E.
    + intros [= ->]. destruct (idThen_sound _ _ _ E) as (H1 & H2 & post & Hs).
      split; [done |]. split; [done |]. exists [], post. by rewrite Hs.
    + intros H. destruct (IH H) as (H1 & H2 & pre & post & ->).
      split; [done |]. split; [done |]. by exists (c :: pre), post.
Qed.

Lemma extractVideoIdFromFilename_start id rest :
  length id = 11%nat → forallb isIdChar id = true →
  extractVideoIdFromFilename (id ++ 95 :: rest) = Some id.
Proof.
  intros Hlen Hall. unfold extractVideoIdFromFilename, idAtStart.
  by rewrite idThen_here.
Qed.

(** A code unit outside the class among the first eleven makes the
    attempt fail. *)
Lemma idThen_blocked stop a c post :
  (length a < 11)%nat → isIdChar c = false →
  idThen stop (a ++ c :: post) = None.
Proof.
  intros Hlen Hc. unfold idThen.
  destruct (drop 11 (a ++ c :: post)) as [| x r]; [done |].
  replace (forallb isIdChar (take 11 (a ++ c :: post))) with false; [done |].
  symmetry. apply not_true_is_false. intros Hall.
  rewrite forallb_forall in Hall.
  rewrite (Hall c) in Hc; [done |].
  apply list_elem_of_In.
  rewrite take_app_ge by lia.
  apply elem_of_app. right.
  destruct (11 - length a)%nat as [| n] eqn:E; [lia |].
  simpl. apply list_elem_of_here.
Qed.

Lemma idInMiddle_none s : 95 ∉ s → idInMiddle s = None.
Proof.
  induction s as [| c s IH]; [done |]. intros H. simpl.
  destruct (N.eqb_spec c 95) as [-> | _].
  - destruct H. apply list_elem_of_here.
  - apply IH. intros ?. by apply H, list_elem_of_further.
Qed.

Lemma idInMiddle_blocked a ext :
  (length a ≤ 11)%nat → 95 ∉ ext → idInMiddle (a ++ 46 :: ext) = None.
Proof.
  intros Hlen Hext. induction a as [| c a IH]; simpl.
  - by apply idInMiddle_none.
  - simpl in Hlen.
    rewrite IH by lia.
    destruct (c =? 95); [| done].
    by rewrite idThen_blocked by (done || lia).
Qed.

End FileNames.

(** X13.  What [extractVideoIdFromFilename] returns is made of eleven code
    units, each a letter, a digit, [_] or [-], and it stands in the file
    name just before a [_] or a [.]. *)
Theorem extractVideoIdFromFilename_sound (fileName id : jstring) :
  ListOutputs.extractVideoIdFromFilename fileName = Some id →
  length id = 11%nat
  ∧ forallb ListOutputs.isIdChar id = true
  ∧ ∃ pre c post, fileName = pre ++ id ++ c :: post ∧ (c = 95 ∨ c = 46).
Proof.
  unfold ListOutputs.extractVideoIdFromFilename, ListOutputs.idAtStart.
  destruct (ListOutputs.idThen 95 fileName) as [id1 |] eqn:E1.
  - intros [= ->]. destruct (idThen_sound _ _ _ E1) as (H1 & H2 & post & ->).
    split; [done |]. split; [done |]. exists [], 95, post. split; [done | by left].
  - destruct (ListOutputs.idInMiddle fileName) as [id2 |] eqn:E2.
    + intros [= ->].
      destruct (idInMiddle_sound _ _ E2) as (H1 & H2 & pre & post & ->).
      split; [done |]. split; [done |]. exists pre, 95, post.
      split; [done | by left].
    + intros H.
      destruct (idBeforeDot_sound _ _ H) as (H1 & H2 & pre & post & ->).
      split; [done |]. split; [done |]. exists pre, 46, post.
      split; [done | by right].
Qed.

(** X13, at a summary named after its video. *)
Lemma extractVideoIdFromFilename_sound_witness :
  length (lit "dQw4w9WgXcQ") = 11%nat
  ∧ forallb ListOutputs.isIdChar (lit "dQw4w9WgXcQ") = true
  ∧ ∃ pre c post,
      lit "summary_dQw4w9WgXcQ_detailed.md"
      = pre ++ lit "dQw4w9WgXcQ" ++ c :: post
      ∧ (c = 95 ∨ c = 46).
Proof.
  apply (extractVideoIdFromFilename_sound (lit "summary_dQw4w9WgXcQ_detailed.md")).
  vm_compute. reflexivity.
Defined.

(** X14.  A transcript saved by the manual helper is found again by the
    listing: when the video identifier has the eleven characters of a
    YouTube identifier, [extractVideoIdFromFilename] reads it back from the
    file name that [saveTranscript] builds, whatever the title and the
    time. *)
Theorem saved_transcript_is_listed_under_its_video
    (videoId : jstring) (title : option jstring) (iso : jstring) :
  length videoId = 11%nat →
  forallb ListOutputs.isIdChar videoId = true →
  ListOutputs.extractVideoIdFromFilename (ManualHelper.filename videoId title iso)
  = Some videoId.
Proof.
  intros Hlen Hall. unfold ManualHelper.filename.
  destruct (ManualHelper.safeTitle title);
    by apply extractVideoIdFromFilename_start.
Qed.

(** X14, with a title. *)
Lemma saved_transcript_is_listed_under_its_video_witness :
  ListOutputs.extractVideoIdFromFilename
    (ManualHelper.filename (lit "dQw4w9WgXcQ") (Some (lit "What is 2/3?"))
       (lit "2024-05-01T10:20:30.123Z"))
  = Some (lit "dQw4w9WgXcQ").
Proof.
  apply (saved_transcript_is_listed_under_its_video (lit "dQw4w9WgXcQ")
           (Some (lit "What is 2/3?")) (lit "2024-05-01T10:20:30.123Z")).
  - reflexivity.
  - reflexivity.
Defined.

(** X15.  A file named by an eleven-character identifier followed by a
    dot and an extension without [_] (as the audio file [<id>.mp4] and the
    subtitle file [<id>.en.vtt] of the pipeline are) is attributed to that
    identifier. *)
Theorem file_named_by_id_is_listed_under_it (videoId ext : jstring) :
  length videoId = 11%nat →
  forallb ListOutputs.isIdChar videoId = true →
  95 ∉ ext →
  ListOutputs.extractVideoIdFromFilename (videoId ++ 46 :: ext) = Some videoId.
Proof.
  intros Hlen Hall Hext.
  unfold ListOutputs.extractVideoIdFromFilename, ListOutputs.idAtStart.
  replace (ListOutputs.idThen 95 (videoId ++ 46 :: ext)) with (@None jstring).
  - rewrite idInMiddle_blocked by (done || lia).
    destruct videoId as [| c r]; [done |].
    change ((c :: r) ++ 46 :: ext) with (c :: (r ++ 46 :: ext)).
    cbn [ListOutputs.idBeforeDot].
    change (c :: (r ++ 46 :: ext)) with ((c :: r) ++ 46 :: ext).
    by rewrite idThen_here.
  - unfold ListOutputs.idThen.
    rewrite <- Hlen, drop_app_length, take_app_length, Hall. done.
Qed.

(** X15, at the subtitle file of the caption path. *)
Lemma file_named_by_id_is_listed_under_it_witness :
  ListOutputs.extractVideoIdFromFilename (lit "dQw4w9WgXcQ" ++ 46 :: lit "en.vtt")
  = Some (lit "dQw4w9WgXcQ").
Proof.
  apply (file_named_by_id_is_listed_under_it (lit "dQw4w9WgXcQ") (lit "en.vtt")).
  - reflexivity.
  - reflexivity.
  - vm_compute. intros H.
    by repeat (apply elem_of_cons in H as [H | H]; [done |]);
      apply elem_of_nil in H.
Defined.

Section SavedFile.

Import ManualHelper.
Implicit Types (s t videoId iso : jstring) (title : option jstring).

Lemma elem_of_map_inv (f : N → N) (l : list N) c :
  c ∈ List.map f l → ∃ x, x ∈ l ∧ c = f x.
Proof.
  rewrite list_elem_of_In, in_map_iff. intros (x & <- & Hx).
  exists x. by rewrite list_elem_of_In.
Qed.

Lemma safeTitle_safe title c :
  c ∈ safeTitle title → isUnsafeInFileName c = false.
Proof.
  unfold safeTitle. destruct title as [[| a r] |]; [by intros ?%elem_of_nil | |
    by intros ?%elem_of_nil].
  intros H. apply (subseteq_take 50) in H.
  apply elem_of_map_inv in H as (x & _ & ->).
  by destruct (isUnsafeInFileName x) eqn:E.
Qed.

Lemma safeTitle_length title : (length (safeTitle title) ≤ 50)%nat.
Proof.
  unfold safeTitle. destruct title as [[| a r] |]; simpl; [lia | | lia].
  rewrite length_take. lia.
Qed.

Lemma dashColonsAndDots_safe iso c :
  (∀ x, x ∈ iso → isUnsafeInFileName x = true → x = 58) →
  c ∈ dashColonsAndDots iso → isUnsafeInFileName c = false.
Proof.
  intros Hiso (x & Hx & ->)%elem_of_map_inv.
  destruct (N.eqb_spec x 58) as [-> | Hne]; [done |]. simpl.
  destruct (x =? 46); [done |].
  destruct (isUnsafeInFileName x) eqn:E; [| done].
  by destruct (Hne (Hiso x Hx E)).
Qed.

Lemma dashColonsAndDots_length iso :
  length (dashColonsAndDots iso) = length iso.
Proof. apply length_map. Qed.

(** *** Pieces and words *)

Lemma splitSpaceAux_length cur s :
  (length (concat (splitSpaceAux cur s)) + length (splitSpaceAux cur s)
   = length cur + length s + 1)%nat.
Proof.
  revert cur. induction s as [| c r IH]; intros cur; simpl.
  - rewrite app_nil_r, length_rev. lia.
  - destruct (c =? 32); simpl.
    + rewrite length_app, length_rev.
      specialize (IH []). simpl in IH. lia.
    + rewrite IH. simpl. lia.
Qed.

Lemma words_le_pieces (l : list jstring) :
  (length (List.filter (fun word => (0 <? length word)%nat) l) ≤ length l)%nat.
Proof.
  induction l as [| x l IH]; simpl; [lia |].
  destruct (0 <? length x)%nat; simpl; lia.
Qed.

Lemma words_le_chars (l : list jstring) :
  (length (List.filter (fun word => (0 <? length word)%nat) l)
   ≤ length (concat l))%nat.
Proof.
  induction l as [| x l IH]; simpl; [lia |].
  rewrite length_app.
  destruct (Nat.ltb_spec 0 (length x)); simpl; lia.
Qed.

Lemma words_eq_pieces (l : list jstring) :
  length (List.filter (fun word => (0 <? length word)%nat) l) = length l
  ↔ [] ∉ l.
Proof.
  induction l as [| x l IH]; simpl.
  - split; [intros _; apply not_elem_of_nil | done].
  - pose proof (words_le_pieces l) as Hle.
    rewrite not_elem_of_cons.
    destruct x as [| c x]; simpl.
    + split; [lia | by intros [? _]].
    + rewrite <- IH. split; [intros H; split; [done | lia] | intros [_ ->]; done].
Qed.

End SavedFile.

(** X16.  Whatever the title, the name of the file that [saveTranscript]
    writes holds none of [<], [>], [:], the double quote, [/], the
    backslash, [|], [?] and [*], provided the video identifier holds none
    and the clock string holds no other than [:]; and the title adds at
    most fifty code units to it. *)
Theorem saved_file_name_is_safe
    (videoId : jstring) (title : option jstring) (iso : jstring) :
  (∀ c, c ∈ videoId → ManualHelper.isUnsafeInFileName c = false) →
  (∀ c, c ∈ iso → ManualHelper.isUnsafeInFileName c = true → c = 58) →
  (∀ c, c ∈ ManualHelper.filename videoId title iso →
        ManualHelper.isUnsafeInFileName c = false)
  ∧ (length (ManualHelper.filename videoId title iso)
     ≤ length videoId + length iso + 56)%nat.
Proof.
  intros Hid Hiso. unfold ManualHelper.filename.
  pose proof (safeTitle_safe title) as Hsafe.
  pose proof (safeTitle_length title) as Hlen.
  destruct (ManualHelper.safeTitle title) as [| a r]; split.
  - intros c. rewrite !elem_of_app.
    intros [H | [H | [H | H]]].
    + by apply Hid.
    + vm_compute in H.
      by repeat (apply elem_of_cons in H as [-> | H]; [done |]);
        apply elem_of_nil in H.
    + by apply (dashColonsAndDots_safe iso).
    + vm_compute in H.
      by repeat (apply elem_of_cons in H as [-> | H]; [done |]);
        apply elem_of_nil in H.
  - rewrite !length_app, dashColonsAndDots_length. simpl. lia.
  - intros c. rewrite !elem_of_app.
    intros [H | [H | [H | [H | [H | H]]]]].
    + by apply Hid.
    + apply list_elem_of_singleton in H as ->. done.
    + by apply Hsafe.
    + apply list_elem_of_singleton in H as ->. done.
    + by apply (dashColonsAndDots_safe iso).
    + vm_compute in H.
      by repeat (apply elem_of_cons in H as [-> | H]; [done |]);
        apply elem_of_nil in H.
  - rewrite !length_app, dashColonsAndDots_length. simpl in *. lia.
Qed.

(** X16, with a title that holds a slash and a question mark. *)
Lemma saved_file_name_is_safe_witness :
  (∀ c, c ∈ ManualHelper.filename (lit "abc") (Some (lit "What is 2/3?"))
              (lit "2024-05-01T10:20:30.123Z") →
        ManualHelper.isUnsafeInFileName c = false)
  ∧ (length (ManualHelper.filename (lit "abc") (Some (lit "What is 2/3?"))
               (lit "2024-05-01T10:20:30.123Z"))
     ≤ length (lit "abc") + length (lit "2024-05-01T10:20:30.123Z") + 56)%nat.
Proof.
  apply (saved_file_name_is_safe (lit "abc") (Some (lit "What is 2/3?"))
           (lit "2024-05-01T10:20:30.123Z")).
  - intros c H. vm_compute in H.
    repeat (apply elem_of_cons in H as [-> | H]; [reflexivity |]).
    by apply elem_of_nil in H.
  - intros c H. vm_compute in H.
    repeat (apply elem_of_cons in H as [-> | H];
            [first [reflexivity | discriminate] |]).
    by apply elem_of_nil in H.
Defined.

(** X17.  When creating the directory and writing the file do not fail,
    [saveTranscript] returns the path [transcripts/<file name>], that file
    then holds the header followed by the transcript, every other file is
    as it was, and [transcripts] exists afterwards. *)
Theorem saveTranscript_writes_the_file
    (w : World) (iso1 iso2 : jstring)
    (writeFileSync_throws : jstring → option JsError)
    (videoId transcript : jstring) (title : option jstring) (st : State) :
  let filepath :=
    path_join w (lit "transcripts") (ManualHelper.filename videoId title iso1) in
  let r := ManualHelper.saveTranscript w iso1 iso2 writeFileSync_throws
             videoId transcript title st in
  mkdirSync_throws w (lit "transcripts") = None →
  writeFileSync_throws filepath = None →
  fst r = Returned filepath
  ∧ files (snd r) !! filepath
    = Some (ManualHelper.fileContent videoId transcript title iso2)
  ∧ (∀ q, q ≠ filepath → files (snd r) !! q = files st !! q)
  ∧ (lit "transcripts" ∈ dirs (snd r)
     ∨ is_Some (files st !! lit "transcripts")).
Proof.
  intros filepath r Hmk Hwr. subst r.
  unfold ManualHelper.saveTranscript, ManualHelper.pathExists,
    ManualHelper.writeFileSync, existsSync, lookupFile, hasDir, mkdirSync.
  fold filepath. rewrite Hmk, Hwr.
  unfold bind, ret, emit, addDir, modifyFiles. cbn [fst snd files dirs trace].
  destruct (bool_decide (lit "transcripts" ∈ dirs st)) eqn:Hd;
    destruct (bool_decide (is_Some (files st !! lit "transcripts"))) eqn:Hf;
    cbn [orb fst snd files dirs trace].
  all: split; [done |].
  all: split; [by rewrite lookup_insert_eq |].
  all: split; [by intros q Hq; rewrite lookup_insert_ne |].
  - left. by apply bool_decide_eq_true in Hd.
  - left. by apply bool_decide_eq_true in Hd.
  - right. by apply bool_decide_eq_true in Hf.
  - left. set_solver.
Qed.

(** X17, in the empty file system. *)
Lemma saveTranscript_writes_the_file_witness :
  fst (ManualHelper.saveTranscript Examples.wCaptions
         (lit "2024-05-01T10:20:30.123Z") (lit "2024-05-01T10:20:30.124Z")
         (fun _ => None) (lit "dQw4w9WgXcQ") (lit "hello world") None
         Examples.fresh)
  = Returned (path_join Examples.wCaptions (lit "transcripts")
                (ManualHelper.filename (lit "dQw4w9WgXcQ") None
                   (lit "2024-05-01T10:20:30.123Z"))).
Proof.
  apply (saveTranscript_writes_the_file Examples.wCaptions
           (lit "2024-05-01T10:20:30.123Z") (lit "2024-05-01T10:20:30.124Z")
           (fun _ => None) (lit "dQw4w9WgXcQ") (lit "hello world") None
           Examples.fresh).
  - reflexivity.
  - reflexivity.
Defined.

(** X18.  [saveTranscript] catches nothing.  It throws exactly when
    [transcripts] is missing and cannot be created, or when the file cannot
    be written, and then it throws that very error; when the directory
    cannot be created, no file is written. *)
Theorem saveTranscript_throws
    (w : World) (iso1 iso2 : jstring)
    (writeFileSync_throws : jstring → option JsError)
    (videoId transcript : jstring) (title : option jstring) (st : State)
    (e : JsError) :
  let filepath :=
    path_join w (lit "transcripts") (ManualHelper.filename videoId title iso1) in
  let r := ManualHelper.saveTranscript w iso1 iso2 writeFileSync_throws
             videoId transcript title st in
  let missing :=
    (lit "transcripts" ∉ dirs st) ∧ files st !! lit "transcripts" = None in
  (fst r = Thrown e ↔
   (missing ∧ mkdirSync_throws w (lit "transcripts") = Some e)
   ∨ (¬ (missing ∧ is_Some (mkdirSync_throws w (lit "transcripts")))
      ∧ writeFileSync_throws filepath = Some e))
  ∧ (missing → is_Some (mkdirSync_throws w (lit "transcripts")) →
     files (snd r) = files st).
Proof.
  intros filepath r missing. subst r missing.
  unfold ManualHelper.saveTranscript, ManualHelper.pathExists,
    ManualHelper.writeFileSync, existsSync, lookupFile, hasDir, mkdirSync.
  fold filepath.
  unfold bind, ret, emit, addDir, modifyFiles, throw.
  cbn [fst snd files dirs trace].
  destruct (decide (lit "transcripts" ∈ dirs st)) as [Hd | Hd].
  - rewrite (bool_decide_eq_true_2 _ Hd). cbn [orb fst snd files dirs trace].
    destruct (writeFileSync_throws filepath) as [e' |];
      cbn [fst snd files dirs trace]; split; try tauto.
    + split; [intros [= ->]; right; tauto | intros [[[? _] _] | [_ [= ->]]]; done].
    + split; [done | intros [[[? _] _] | [_ ?]]; done].
  - rewrite (bool_decide_eq_false_2 _ Hd).
    destruct (files st !! lit "transcripts") as [c |] eqn:Hf.
    + rewrite bool_decide_eq_true_2 by by eexists.
      cbn [orb fst snd files dirs trace].
      destruct (writeFileSync_throws filepath) as [e' |];
        cbn [fst snd files dirs trace]; split; try (intros [_ ?]; done).
      * split; [intros [= ->]; right; split; [intros [[_ ?] _] |]; done
               | intros [[[_ ?] _] | [_ [= ->]]]; done].
      * split; [done | intros [[[_ ?] _] | [_ ?]]; done].
    + rewrite bool_decide_eq_false_2 by (intros [? ?]; done).
      cbn [orb fst snd files dirs trace].
      destruct (mkdirSync_throws w (lit "transcripts")) as [e0 |];
        cbn [fst snd files dirs trace].
      * split; [| done].
        split; [intros [= ->]; by left |].
        intros [[_ [= ->]] | [Hn _]]; [done |].
        destruct Hn. split; [done | by eexists].
      * destruct (writeFileSync_throws filepath) as [e' |];
          cbn [fst snd files dirs trace]; split; try (intros _ [? ?]; done).
        -- split; [intros [= ->]; right; split; [intros [_ [? ?]] |]; done
                  | intros [[_ ?] | [_ [= ->]]]; done].
        -- split; [done | intros [[_ ?] | [_ ?]]; done].
Qed.

(** X19.  A transcript that [validateTranscript] accepts has at least 100
    code units and at least 20 words, and no issue is reported for it,
    whatever the two checks on repetition and on meaningful words say. *)
Theorem valid_transcript_is_long_enough
    (toLowerCase : jstring → jstring)
    (quotientBelowThreeTenths belowThreeTenthsOf : nat → nat → bool)
    (transcript : jstring) :
  let v := ManualHelper.validateTranscript toLowerCase
             quotientBelowThreeTenths belowThreeTenthsOf transcript in
  ManualHelper.isValid v = true →
  (100 ≤ length transcript)%nat
  ∧ (20 ≤ ManualHelper.wordCount v)%nat
  ∧ ManualHelper.issues v = [].
Proof.
  intros v. subst v. unfold ManualHelper.validateTranscript.
  cbn [ManualHelper.isValid ManualHelper.wordCount ManualHelper.issues].
  set (words := length (List.filter _ (ManualHelper.splitSpace transcript))).
  destruct (Nat.ltb_spec (length transcript) 100) as [H1 | H1];
    destruct (Nat.ltb_spec words 20) as [H2 | H2];
    destruct (quotientBelowThreeTenths _ _);
    destruct (belowThreeTenthsOf _ _);
    cbn; intros H; try discriminate H.
  done.
Qed.

(** X19, at twenty words of five code units. *)
Lemma valid_transcript_is_long_enough_witness :
  (100 ≤ length (concat (replicate 20 (lit "word "))))%nat
  ∧ (20 ≤ ManualHelper.wordCount
            (ManualHelper.validateTranscript (fun s => s)
               (fun _ _ => false) (fun _ _ => false)
               (concat (replicate 20 (lit "word ")))))%nat
  ∧ ManualHelper.issues
      (ManualHelper.validateTranscript (fun s => s)
         (fun _ _ => false) (fun _ _ => false)
         (concat (replicate 20 (lit "word "))))
    = [].
Proof.
  apply (valid_transcript_is_long_enough (fun s => s)
           (fun _ _ => false) (fun _ _ => false)
           (concat (replicate 20 (lit "word ")))).
  vm_compute. reflexivity.
Defined.

(** X20.  The number of words that [validateTranscript] reports never
    exceeds the word count that [saveTranscript] writes in the header of
    the file, which is the number of pieces of [transcript.split(' ')]; the
    two agree exactly when no piece is empty (no leading, trailing or
    doubled space, and a transcript that is not empty).  And [n] words
    take at least [2n - 1] code units. *)
Theorem word_counts_compare
    (toLowerCase : jstring → jstring)
    (quotientBelowThreeTenths belowThreeTenthsOf : nat → nat → bool)
    (transcript : jstring) :
  let v := ManualHelper.validateTranscript toLowerCase
             quotientBelowThreeTenths belowThreeTenthsOf transcript in
  (ManualHelper.wordCount v ≤ length (ManualHelper.splitSpace transcript))%nat
  ∧ (ManualHelper.wordCount v = length (ManualHelper.splitSpace transcript)
     ↔ [] ∉ ManualHelper.splitSpace transcript)
  ∧ (2 * ManualHelper.wordCount v ≤ ManualHelper.charCount v + 1)%nat.
Proof.
  intros v. subst v. unfold ManualHelper.validateTranscript.
  cbn [ManualHelper.wordCount ManualHelper.charCount].
  split; [apply words_le_pieces |]. split; [apply words_eq_pieces |].
  pose proof (words_le_pieces (ManualHelper.splitSpace transcript)).
  pose proof (words_le_chars (ManualHelper.splitSpace transcript)).
  pose proof (splitSpaceAux_length [] transcript) as Hlen.
  unfold ManualHelper.splitSpace in *. simpl in Hlen. lia.
Qed.

Section Statistics.

Import ListOutputs.
Implicit Types (t : FileType) (counts : list (FileType * nat))
  (files : list FileInfo) (groups : list (jstring * list FileInfo)).

Lemma FileType_eqb_eq a b : FileType_eqb a b = true ↔ a = b.
Proof. by destruct a, b. Qed.

Lemma FileType_eqb_refl a : FileType_eqb a a = true.
Proof. by destruct a. Qed.

Lemma countFor_countOne t t' counts :
  countFor t' (countOne t counts)
  = (countFor t' counts + if FileType_eqb t t' then 1 else 0)%nat.
Proof.
  induction counts as [| [k n] r IH]; simpl.
  - destruct (FileType_eqb t t'); lia.
  - destruct (FileType_eqb k t) eqn:Ekt; simpl.
    + apply FileType_eqb_eq in Ekt as ->.
      destruct (FileType_eqb t t'); lia.
    + destruct (FileType_eqb k t') eqn:Ekt'; [| done].
      apply FileType_eqb_eq in Ekt' as ->.
      destruct (FileType_eqb t t') eqn:E; [| lia].
      apply FileType_eqb_eq in E as ->. by rewrite FileType_eqb_refl in Ekt.
Qed.

Lemma countOne_keys t counts :
  NoDup (List.map fst counts) → NoDup (List.map fst (countOne t counts))
  ∧ ∀ k, k ∈ List.map fst (countOne t counts)
         ↔ k = t ∨ k ∈ List.map fst counts.
Proof.
  induction counts as [| [k n] r IH]; simpl; intros Hnd.
  - split; [apply NoDup_singleton |].
    intros k'. rewrite list_elem_of_singleton, elem_of_nil. tauto.
  - apply NoDup_cons in Hnd as [Hk Hnd].
    destruct (FileType_eqb k t) eqn:E; simpl.
    + apply FileType_eqb_eq in E as ->.
      split; [by apply NoDup_cons |].
      intros k'. rewrite elem_of_cons. tauto.
    + destruct (IH Hnd) as [Hnd' Hin]. split.
      * apply NoDup_cons. split; [| done].
        rewrite Hin. intros [-> | ?]; [| done].
        by rewrite FileType_eqb_refl in E.
      * intros k'. rewrite !elem_of_cons, Hin. tauto.
Qed.

Lemma countOne_positive t counts :
  Forall (fun p => (0 < snd p)%nat) counts →
  Forall (fun p => (0 < snd p)%nat) (countOne t counts).
Proof.
  induction counts as [| [k n] r IH]; simpl; intros H.
  - repeat constructor.
  - apply Forall_cons in H as [Hn H]. simpl in Hn.
    destruct (FileType_eqb k t); constructor; simpl; auto with lia.
Qed.

Lemma countOne_sum t counts :
  sum_list (List.map snd (countOne t counts))
  = S (sum_list (List.map snd counts)).
Proof.
  induction counts as [| [k n] r IH]; simpl; [done |].
  destruct (FileType_eqb k t); simpl; lia.
Qed.

(** The loop of [calculateStats], one component at a time. *)
Lemma stats_loop files total dates counts :
  fold_left
    (fun '(total, dates, byType) file =>
       (total + size file, dates ++ [modified file],
        countOne (type file) byType))
    files (total, dates, counts)
  = (fold_left (fun a file => a + size file) files total,
     dates ++ List.map modified files,
     fold_left (fun c file => countOne (type file) c) files counts).
Proof.
  revert total dates counts.
  induction files as [| f files IH]; intros total dates counts; simpl.
  - by rewrite app_nil_r.
  - by rewrite IH, <- app_assoc.
Qed.

Lemma sizes_loop files a :
  fold_left (fun a file => a + size file) files a
  = a + fold_right N.add 0 (List.map size files).
Proof.
  revert a. induction files as [| f files IH]; intros a; simpl; [lia |].
  rewrite IH. lia.
Qed.

Lemma counts_loop files :
  let counts := fold_left (fun c file => countOne (type file) c) files [] in
  NoDup (List.map fst counts)
  ∧ Forall (fun p => (0 < snd p)%nat) counts
  ∧ (∀ t, countFor t counts = length (ofType t files))
  ∧ sum_list (List.map snd counts) = length files.
Proof.
  induction files as [| f files IH] using rev_ind; simpl.
  - split; [constructor |]. split; [constructor |]. done.
  - rewrite fold_left_app. simpl.
    destruct IH as (Hnd & Hpos & Hcount & Hsum).
    split; [by apply countOne_keys |].
    split; [by apply countOne_positive |]. split.
    + intros t. rewrite countFor_countOne, Hcount.
      unfold ofType. rewrite List.filter_app, length_app. simpl.
      by destruct (FileType_eqb (type f) t).
    + rewrite countOne_sum, Hsum, length_app. simpl. lia.
Qed.

Lemma minimum_spec d ds :
  minimum d ds ∈ d :: ds ∧ ∀ x, x ∈ d :: ds → (minimum d ds ≤ x)%Z.
Proof.
  unfold minimum. revert d. induction ds as [| y ds IH]; intros d; simpl.
  - split; [apply list_elem_of_here |].
    intros x ->%list_elem_of_singleton. lia.
  - destruct (IH (Z.min d y)) as [Hin Hle]. split.
    + apply elem_of_cons in Hin as [-> | Hin].
      * destruct (Z.min_spec d y) as [[_ ->] | [_ ->]];
          [apply list_elem_of_here |
           apply list_elem_of_further, list_elem_of_here].
      * by do 2 apply list_elem_of_further.
    + intros x [-> | [-> | Hx]%elem_of_cons]%elem_of_cons.
      * specialize (Hle _ (list_elem_of_here _ _)). lia.
      * specialize (Hle _ (list_elem_of_here _ _)). lia.
      * by apply Hle, list_elem_of_further.
Qed.

Lemma maximum_spec d ds :
  maximum d ds ∈ d :: ds ∧ ∀ x, x ∈ d :: ds → (x ≤ maximum d ds)%Z.
Proof.
  unfold maximum. revert d. induction ds as [| y ds IH]; intros d; simpl.
  - split; [apply list_elem_of_here |].
    intros x ->%list_elem_of_singleton. lia.
  - destruct (IH (Z.max d y)) as [Hin Hle]. split.
    + apply elem_of_cons in Hin as [-> | Hin].
      * destruct (Z.max_spec d y) as [[_ ->] | [_ ->]];
          [apply list_elem_of_further, list_elem_of_here |
           apply list_elem_of_here].
      * by do 2 apply list_elem_of_further.
    + intros x [-> | [-> | Hx]%elem_of_cons]%elem_of_cons.
      * specialize (Hle _ (list_elem_of_here _ _)). lia.
      * specialize (Hle _ (list_elem_of_here _ _)). lia.
      * by apply Hle, list_elem_of_further.
Qed.

Lemma calculateStats_eq (formatFileSize : N → jstring) files :
  calculateStats formatFileSize files
  = let total := fold_left (fun a file => a + size file) files 0 in
    let dates := List.map modified files in
    {| totalFiles := length files;
       totalSize := total;
       totalSizeFormatted := formatFileSize total;
       filesByType := fold_left (fun c file => countOne (type file) c) files [];
       oldestFile := match dates with
                     | [] => None
                     | d :: ds => Some (minimum d ds)
                     end;
       newestFile := match dates with
                     | [] => None
                     | d :: ds => Some (maximum d ds)
                     end |}.
Proof. unfold calculateStats. by rewrite stats_loop. Qed.

(** *** Groups *)

Lemma pushTo_keys key file groups :
  List.map fst (pushTo key file groups) = setAdd (List.map fst groups) key.
Proof.
  unfold setAdd.
  induction groups as [| [k fs] r IH]; simpl; [done |].
  unfold str_eqb in *.
  destruct (decide (k = key)) as [-> | Hne].
  - rewrite !bool_decide_eq_true_2 by done. done.
  - rewrite (bool_decide_eq_false_2 (k = key)) by done.
    rewrite (bool_decide_eq_false_2 (key = k)) by done.
    simpl. rewrite IH. by destruct (existsb _ _).
Qed.

Lemma groupOf_pushTo key key' file groups :
  groupOf key' (pushTo key file groups)
  = groupOf key' groups ++ if str_eqb key key' then [file] else [].
Proof.
  induction groups as [| [k fs] r IH]; simpl.
  - unfold str_eqb. by destruct (bool_decide (key = key')).
  - unfold str_eqb in *.
    destruct (decide (k = key)) as [-> | Hne].
    + rewrite (bool_decide_eq_true_2 (key = key)) by done. simpl.
      unfold str_eqb.
      destruct (bool_decide (key = key')); [done | by rewrite app_nil_r].
    + rewrite (bool_decide_eq_false_2 (k = key)) by done. simpl.
      unfold str_eqb.
      destruct (decide (k = key')) as [-> | Hne'].
      * rewrite (bool_decide_eq_true_2 (key' = key')) by done.
        rewrite (bool_decide_eq_false_2 (key = key')) by done.
        by rewrite app_nil_r.
      * by rewrite (bool_decide_eq_false_2 (k = key')) by done.
Qed.

Lemma pushTo_concat key file groups :
  concat (List.map snd (pushTo key file groups))
  ≡ₚ concat (List.map snd groups) ++ [file].
Proof.
  induction groups as [| [k fs] r IH]; simpl; [done |].
  destruct (str_eqb k key); simpl.
  - rewrite <- !app_assoc. apply Permutation_app_head, Permutation_app_comm.
  - by rewrite IH, app_assoc.
Qed.

Lemma groupOf_elem key fs groups :
  NoDup (List.map fst groups) → (key, fs) ∈ groups → groupOf key groups = fs.
Proof.
  induction groups as [| [k g] r IH]; simpl; [by intros _ ?%elem_of_nil |].
  intros [Hk Hnd]%NoDup_cons [[= -> ->] | Hin]%elem_of_cons.
  - unfold str_eqb. by rewrite bool_decide_eq_true_2.
  - unfold str_eqb. rewrite bool_decide_eq_false_2; [by apply IH |].
    intros ->. apply Hk.
    apply list_elem_of_In, in_map_iff. exists (key, fs).
    split; [done | by apply list_elem_of_In].
Qed.

Lemma groups_loop files :
  let groups := groupFilesByVideo files in
  List.map fst groups = newSet (List.map groupKey files)
  ∧ (∀ key, groupOf key groups = ofVideo key files)
  ∧ concat (List.map snd groups) ≡ₚ files.
Proof.
  unfold groupFilesByVideo.
  induction files as [| f files IH] using rev_ind; simpl.
  - done.
  - rewrite fold_left_app. simpl. destruct IH as (Hkeys & Hget & Hperm).
    split; [| split].
    + rewrite pushTo_keys, Hkeys, List.map_app. simpl. by rewrite newSet_snoc.
    + intros key. rewrite groupOf_pushTo, Hget.
      unfold ofVideo. rewrite List.filter_app. simpl.
      by destruct (str_eqb (groupKey f) key).
    + by rewrite pushTo_concat, Hperm.
Qed.

End Statistics.

(** X21.  In the statistics of [calculateStats], the count kept for a type
    is the number of files of that type; no type is listed twice and no
    listed count is zero; the counts add up to [totalFiles], which is the
    number of files; and [totalSize] is the sum of their sizes. *)
Theorem calculateStats_counts
    (formatFileSize : N → jstring) (files : list ListOutputs.FileInfo) :
  let stats := ListOutputs.calculateStats formatFileSize files in
  (∀ t, countFor t (ListOutputs.filesByType stats) = length (ofType t files))
  ∧ NoDup (List.map fst (ListOutputs.filesByType stats))
  ∧ Forall (fun p => (0 < snd p)%nat) (ListOutputs.filesByType stats)
  ∧ sum_list (List.map snd (ListOutputs.filesByType stats))
    = ListOutputs.totalFiles stats
  ∧ ListOutputs.totalFiles stats = length files
  ∧ ListOutputs.totalSize stats
    = fold_right N.add 0 (List.map ListOutputs.size files).
Proof.
  intros stats. subst stats. rewrite calculateStats_eq.
  cbn [ListOutputs.filesByType ListOutputs.totalFiles ListOutputs.totalSize].
  destruct (counts_loop files) as (Hnd & Hpos & Hcount & Hsum).
  repeat split; try done.
  by rewrite sizes_loop, N.add_0_l.
Qed.

(** X22.  [calculateStats] reports no oldest and no newest date for an
    empty list; otherwise both are modification times of listed files, and
    every file was modified between the two. *)
Theorem calculateStats_date_range
    (formatFileSize : N → jstring) (files : list ListOutputs.FileInfo) :
  let stats := ListOutputs.calculateStats formatFileSize files in
  match files with
  | [] =>
      ListOutputs.oldestFile stats = None ∧ ListOutputs.newestFile stats = None
  | _ :: _ =>
      ∃ oldest newest,
        ListOutputs.oldestFile stats = Some oldest
        ∧ ListOutputs.newestFile stats = Some newest
        ∧ oldest ∈ List.map ListOutputs.modified files
        ∧ newest ∈ List.map ListOutputs.modified files
        ∧ ∀ f, f ∈ files →
               (oldest ≤ ListOutputs.modified f ≤ newest)%Z
  end.
Proof.
  intros stats. subst stats. rewrite calculateStats_eq.
  cbn [ListOutputs.oldestFile ListOutputs.newestFile].
  destruct files as [| f files]; [done |].
  cbn [List.map].
  destruct (minimum_spec (ListOutputs.modified f)
              (List.map ListOutputs.modified files)) as [Hmin Hle].
  destruct (maximum_spec (ListOutputs.modified f)
              (List.map ListOutputs.modified files)) as [Hmax Hge].
  eexists _, _. split; [done |]. split; [done |].
  split; [done |]. split; [done |].
  intros g Hg.
  assert (ListOutputs.modified g
          ∈ ListOutputs.modified f :: List.map ListOutputs.modified files) as Hin.
  { change (ListOutputs.modified g ∈ List.map ListOutputs.modified (f :: files)).
    apply list_elem_of_In, in_map, list_elem_of_In. done. }
  split; [by apply Hle | by apply Hge].
Qed.

(** X23.  [groupFilesByVideo] partitions the files: the keys are the
    distinct video identifiers (or [unknown]) in the order of their first
    file; the group of a key holds exactly the files of that key, in the
    order of the list, and is never empty; all the groups together hold
    each file once. *)
Theorem groupFilesByVideo_partitions (files : list ListOutputs.FileInfo) :
  let groups := ListOutputs.groupFilesByVideo files in
  List.map fst groups = newSet (List.map ListOutputs.groupKey files)
  ∧ (∀ key fs, (key, fs) ∈ groups → fs = ofVideo key files ∧ fs ≠ [])
  ∧ concat (List.map snd groups) ≡ₚ files.
Proof.
  intros groups. subst groups.
  destruct (groups_loop files) as (Hkeys & Hget & Hperm).
  split; [done |]. split; [| done].
  intros key fs Hin.
  assert (fs = ofVideo key files) as ->.
  { rewrite <- Hget. symmetry. apply groupOf_elem; [| done].
    rewrite Hkeys. apply NoDup_newSet. }
  split; [done |].
  assert (key ∈ List.map ListOutputs.groupKey files) as Hkey.
  { apply elem_of_newSet. rewrite <- Hkeys.
    apply list_elem_of_In, in_map_iff. exists (key, ofVideo key files).
    split; [done | by apply list_elem_of_In]. }
  apply list_elem_of_In, in_map_iff in Hkey as (f & Hf & Hin').
  intros Hempty.
  assert (In f (ofVideo key files)) as Hmem.
  { unfold ofVideo. apply filter_In. split; [done |].
    unfold str_eqb. by apply bool_decide_eq_true_2. }
  by rewrite Hempty in Hmem.
Qed.

(** X24.  [getRelativeTime] depends on the age of the date in
    milliseconds only, with these thresholds: under a minute (a date in
    the future included) it answers [just now]; under an hour, the whole
    minutes; under a day, the whole hours; under a week, the whole days,
    [hour] and [day] in the singular for exactly one; and from a week on
    the local date. *)
Theorem getRelativeTime_thresholds
    (now : Z) (toLocaleDateString : Z → jstring) (date : Z) :
  let age := (now - date)%Z in
  let answer := ListOutputs.getRelativeTime now toLocaleDateString date in
  ((age < 60000)%Z → answer = lit "just now")
  ∧ ((60000 ≤ age < 3600000)%Z →
     answer = decimal (Z.to_N (age / 60000)) ++ lit " min ago")
  ∧ ((3600000 ≤ age < 7200000)%Z → answer = lit "1 hour ago")
  ∧ ((7200000 ≤ age < 86400000)%Z →
     answer = decimal (Z.to_N (age / 3600000)) ++ lit " hours ago")
  ∧ ((86400000 ≤ age < 172800000)%Z → answer = lit "1 day ago")
  ∧ ((172800000 ≤ age < 604800000)%Z →
     answer = decimal (Z.to_N (age / 86400000)) ++ lit " days ago")
  ∧ ((604800000 ≤ age)%Z → answer = toLocaleDateString date).
Proof.
  intros age answer. subst answer. unfold ListOutputs.getRelativeTime.
  fold age. change (1000 * 60)%Z with 60000%Z.
  assert (age / 60000 / 60 = age / 3600000)%Z as Hh
    by (rewrite Z.div_div by lia; done).
  assert (age / 60000 / 60 / 24 = age / 86400000)%Z as Hd
    by (rewrite !Z.div_div by lia; done).
  rewrite Hd, Hh.
  pose proof (Z.div_mod age 60000 ltac:(lia)) as E1.
  pose proof (Z.mod_pos_bound age 60000 ltac:(lia)) as B1.
  pose proof (Z.div_mod age 3600000 ltac:(lia)) as E2.
  pose proof (Z.mod_pos_bound age 3600000 ltac:(lia)) as B2.
  pose proof (Z.div_mod age 86400000 ltac:(lia)) as E3.
  pose proof (Z.mod_pos_bound age 86400000 ltac:(lia)) as B3.
  repeat split; intros Hage.
  - destruct (Z.ltb_spec (age / 60000) 1); [done | lia].
  - destruct (Z.ltb_spec (age / 60000) 1); [lia |].
    destruct (Z.ltb_spec (age / 60000) 60); [done | lia].
  - destruct (Z.ltb_spec (age / 60000) 1); [lia |].
    destruct (Z.ltb_spec (age / 60000) 60); [lia |].
    assert (age / 3600000 = 1)%Z as -> by lia. reflexivity.
  - destruct (Z.ltb_spec (age / 60000) 1); [lia |].
    destruct (Z.ltb_spec (age / 60000) 60); [lia |].
    destruct (Z.ltb_spec (age / 3600000) 24); [| lia].
    destruct (Z.ltb_spec 1 (age / 3600000)); [| lia].
    reflexivity.
  - destruct (Z.ltb_spec (age / 60000) 1); [lia |].
    destruct (Z.ltb_spec (age / 60000) 60); [lia |].
    destruct (Z.ltb_spec (age / 3600000) 24); [lia |].
    assert (age / 86400000 = 1)%Z as -> by lia. reflexivity.
  - destruct (Z.ltb_spec (age / 60000) 1); [lia |].
    destruct (Z.ltb_spec (age / 60000) 60); [lia |].
    destruct (Z.ltb_spec (age / 3600000) 24); [lia |].
    destruct (Z.ltb_spec (age / 86400000) 7); [| lia].
    destruct (Z.ltb_spec 1 (age / 86400000)); [| lia].
    reflexivity.
  - destruct (Z.ltb_spec (age / 60000) 1); [lia |].
    destruct (Z.ltb_spec (age / 60000) 60); [lia |].
    destruct (Z.ltb_spec (age / 3600000) 24); [lia |].
    destruct (Z.ltb_spec (age / 86400000) 7); [lia | done].
Qed.

(** X24, ninety minutes after the date. *)
Lemma getRelativeTime_thresholds_witness :
  ListOutputs.getRelativeTime 1700000000000 (fun _ => [])
    (1700000000000 - 5400000)
  = lit "1 hour ago".
Proof.
  apply (getRelativeTime_thresholds 1700000000000 (fun _ => [])
           (1700000000000 - 5400000)).
  lia.
Defined.

Section ApiKeys.

Import Setup.
Implicit Types (key envContent : jstring).

Lemma assigned_spec key envContent :
  assigned key envContent = true
  ↔ ∃ pre c post, envContent = pre ++ key ++ lit "=" ++ c :: post
                  ∧ isLineTerminator c = false.
Proof.
  split.
  - induction envContent as [| x s IH]; cbn [assigned].
    + rewrite orb_false_r, andb_true_iff. rewrite drop_nil. by intros [_ ?].
    + intros [[H1 H2]%andb_true_iff | H]%orb_true_iff.
      * apply startsWith_spec in H1 as [r Hr]. rewrite Hr in H2 |- *.
        rewrite <- app_assoc in *.
        replace (length key + 1)%nat with (length (key ++ lit "="))
          in H2 by (rewrite length_app; done).
        rewrite app_assoc, drop_app_length in H2.
        destruct r as [| c post]; [done |].
        exists [], c, post. split; [done |]. by apply negb_true_iff.
      * destruct (IH H) as (pre & c & post & -> & Hc).
        by exists (x :: pre), c, post.
  - intros (pre & c & post & -> & Hc).
    induction pre as [| x pre IH].
    + assert (assigned key (key ++ lit "=" ++ c :: post) = true) as H.
      { assert (startsWith (key ++ lit "=") (key ++ lit "=" ++ c :: post)
                  && match drop (length key + 1) (key ++ lit "=" ++ c :: post)
                     with
                     | c :: _ => negb (isLineTerminator c)
                     | [] => false
                     end = true) as Hhere.
        { rewrite app_assoc, startsWith_app.
          replace (length key + 1)%nat with (length (key ++ lit "="))
            by (rewrite length_app; done).
          rewrite drop_app_length. simpl. by rewrite Hc. }
        destruct (key ++ lit "=" ++ c :: post); cbn [assigned] in *;
          by rewrite Hhere. }
      exact H.
    + change ((x :: pre) ++ key ++ lit "=" ++ c :: post)
        with (x :: (pre ++ key ++ lit "=" ++ c :: post)).
      cbn [assigned]. rewrite IH. apply orb_true_r.
Qed.

End ApiKeys.

(** X25.  The set-up script never reports a required key as configured:
    whatever the [.env] file holds, a key set to a value included, the
    check prints that [GEMINI_API_KEY] needs to be configured. *)
Theorem required_key_never_reported_configured (envContent : jstring) :
  (∀ key, Setup.requiredKeyConfigured envContent key = false)
  ∧ Setup.NeedsToBeConfigured (lit "GEMINI_API_KEY")
    ∈ Setup.checkApiKeys envContent
  ∧ ∀ key, Setup.IsConfigured key ∉ Setup.checkApiKeys envContent.
Proof.
  assert (∀ key, Setup.requiredKeyConfigured envContent key = false) as Hnever.
  { intros key. unfold Setup.requiredKeyConfigured.
    destruct (Setup.assigned key envContent) eqn:E;
      [| by rewrite andb_false_r].
    apply assigned_spec in E as (pre & c & post & -> & _).
    rewrite (app_assoc key).
    rewrite (includes_app (key ++ lit "=")). simpl.
    by rewrite andb_false_r. }
  split; [done |].
  unfold Setup.checkApiKeys, Setup.requiredKeys, Setup.optionalKeys.
  cbn [List.map app]. rewrite Hnever. split.
  - apply list_elem_of_here.
  - intros key H.
    apply elem_of_cons in H as [H | H]; [done |].
    apply elem_of_cons in H as [H | H];
      [by destruct (Setup.optionalKeyConfigured _ _) |].
    apply elem_of_cons in H as [H | H];
      [by destruct (Setup.optionalKeyConfigured _ _) |].
    by apply elem_of_nil in H.
Qed.

(** X26.  The set-up script reports an optional key as configured exactly
    when the [.env] file holds the key followed by [=] and by at least one
    character on the same line; the placeholder value of the template
    counts as one, an empty value does not. *)
Theorem optional_key_configured_iff (envContent key : jstring) :
  Setup.optionalKeyConfigured envContent key = true
  ↔ ∃ pre c post,
      envContent = pre ++ key ++ lit "=" ++ c :: post
      ∧ isLineTerminator c = false.
Proof.
  unfold Setup.optionalKeyConfigured. rewrite andb_true_iff, assigned_spec.
  split; [by intros [_ ?] |].
  intros (pre & c & post & -> & Hc). split.
  - apply includes_app.
  - by exists pre, c, post.
Qed.

Section Cleaning.

Import ManualHelper.
Implicit Types (s t rep : jstring) (prev : option N) (skip : nat).

Lemma endsClean_last s :
  endsClean s ↔ match last s with
                | Some x => isWhiteSpace x = false
                | None => True
                end.
Proof.
  unfold endsClean. destruct s as [| c r] using rev_ind; [done |].
  by rewrite rev_app_distr, last_snoc.
Qed.

Lemma last_cons_some {A} (c : A) (t : list A) x :
  last t = Some x → last (c :: t) = Some x.
Proof. destruct t; [done |]. done. Qed.

Lemma last_app_some {A} (l t : list A) x :
  last t = Some x → last (l ++ t) = Some x.
Proof.
  intros H. induction l as [| c l IH]; [done |].
  simpl. by apply last_cons_some.
Qed.

(** *** The replacement of white space *)

Lemma whiteSpaceRun_white c r prev :
  isWhiteSpace c = true →
  whiteSpaceRun prev (c :: r) = Some (S (spanLength isWhiteSpace r)).
Proof. intros H. unfold whiteSpaceRun. simpl. by rewrite H. Qed.

Lemma whiteSpaceRun_other c r prev :
  isWhiteSpace c = false → whiteSpaceRun prev (c :: r) = None.
Proof. intros H. unfold whiteSpaceRun. simpl. by rewrite H. Qed.

Lemma replaceAll_collapse s :
  (∀ prev, replaceAll whiteSpaceRun (lit " ") 0 prev s = collapse false s)
  ∧ (∀ prev, replaceAll whiteSpaceRun (lit " ")
               (spanLength isWhiteSpace s) prev s = collapse true s).
Proof.
  induction s as [| c r [IH0 IH1]]; [done |].
  destruct (isWhiteSpace c) eqn:E.
  - split; intros prev.
    + cbn [replaceAll]. rewrite (whiteSpaceRun_white _ _ _ E).
      cbn [collapse]. rewrite E, IH1. done.
    + cbn [spanLength replaceAll collapse]. rewrite E.
      cbn [replaceAll]. by rewrite IH1.
  - assert (∀ prev, replaceAll whiteSpaceRun (lit " ") 0 prev (c :: r)
                    = c :: collapse false r) as H.
    { intros prev. cbn [replaceAll].
      by rewrite (whiteSpaceRun_other _ _ _ E), IH0. }
    split; intros prev.
    + cbn [collapse]. by rewrite E, H.
    + cbn [spanLength collapse]. by rewrite E, H.
Qed.

Lemma collapseWhiteSpace_eq s : collapseWhiteSpace s = collapse false s.
Proof. apply replaceAll_collapse. Qed.

Lemma collapse_spaces b s c :
  c ∈ collapse b s → isWhiteSpace c = true → c = 32.
Proof.
  revert b. induction s as [| x r IH]; intros b; simpl;
    [by intros ?%elem_of_nil |].
  destruct (isWhiteSpace x) eqn:E.
  - destruct b; [apply IH |].
    intros [-> | H]%elem_of_cons; [done | by eapply IH].
  - intros [-> | H]%elem_of_cons; [by rewrite E | by eapply IH].
Qed.

Lemma collapse_true_startsClean s : startsClean (collapse true s).
Proof.
  induction s as [| x r IH]; simpl; [done |].
  destruct (isWhiteSpace x) eqn:E; [done | by simpl].
Qed.

Lemma collapse_no_double b s : includes [32; 32] (collapse b s) = false.
Proof.
  revert b. induction s as [| x r IH]; intros b; [done |].
  cbn [collapse]. destruct (isWhiteSpace x) eqn:E.
  - destruct b; [apply IH |].
    cbn [includes]. rewrite IH, orb_false_r.
    pose proof (collapse_true_startsClean r) as Hs.
    destruct (collapse true r) as [| y t]; [done |].
    simpl in Hs. cbn [startsWith].
    destruct (N.eqb_spec 32 y) as [<- | _]; [done |].
    by rewrite andb_false_r.
  - cbn [includes]. rewrite IH, orb_false_r.
    cbn [startsWith]. destruct (N.eqb_spec 32 x) as [H | _]; [| done].
    rewrite <- H in E. by vm_compute in E.
Qed.

Lemma collapse_startsClean s : startsClean s → startsClean (collapse false s).
Proof. destruct s as [| c r]; [done |]. simpl. intros H. by rewrite H. Qed.

Lemma collapse_last b s x :
  last s = Some x → isWhiteSpace x = false → last (collapse b s) = Some x.
Proof.
  intros Hlast Hx. revert b.
  induction s as [| c r IH]; intros b; [done |].
  rewrite last_cons in Hlast. destruct (last r) as [y |] eqn:Er.
  - specialize (IH Hlast). cbn [collapse].
    destruct (isWhiteSpace c); [destruct b |];
      [apply IH | apply last_cons_some, IH | apply last_cons_some, IH].
  - apply last_None in Er as ->. injection Hlast as ->.
    simpl. by rewrite Hx.
Qed.

Lemma collapse_endsClean b s : endsClean s → endsClean (collapse b s).
Proof.
  rewrite !endsClean_last. destruct (last s) as [x |] eqn:E.
  - intros Hx. by rewrite (collapse_last b s x E Hx).
  - apply last_None in E as ->. done.
Qed.

(** *** A replacement inside the white space keeps the ends *)

Section WhiteMatches.

Variable matchAt : option N → jstring → option nat.
Hypothesis matchAt_white :
  ∀ prev s n, matchAt prev s = Some n →
              (n ≤ spanLength isWhiteSpace s)%nat.

Lemma replaceAll_startsClean rep prev s :
  startsClean s → startsClean (replaceAll matchAt rep 0 prev s).
Proof using matchAt_white.
  destruct s as [| c r]; [done |]. simpl. intros Hc.
  destruct (matchAt prev (c :: r)) as [[| n] |] eqn:E; try done.
  apply matchAt_white in E. simpl in E. rewrite Hc in E. lia.
Qed.

Lemma replaceAll_last rep skip prev s x :
  last s = Some x → isWhiteSpace x = false →
  (skip ≤ spanLength isWhiteSpace s)%nat →
  last (replaceAll matchAt rep skip prev s) = Some x.
Proof using matchAt_white.
  intros Hlast Hx. revert skip prev.
  induction s as [| c r IH]; intros skip prev Hskip; [done |].
  rewrite last_cons in Hlast. destruct (last r) as [y |] eqn:Er.
  - specialize (IH Hlast). cbn [replaceAll].
    cbn [spanLength] in Hskip.
    destruct skip as [| k].
    + destruct (matchAt prev (c :: r)) as [[| n] |] eqn:E.
      * apply last_cons_some, IH. lia.
      * apply matchAt_white in E. cbn [spanLength] in E.
        destruct (isWhiteSpace c); [| lia].
        apply last_app_some, IH. lia.
      * apply last_cons_some, IH. lia.
    + destruct (isWhiteSpace c); [| lia]. apply IH. lia.
  - apply last_None in Er as ->. injection Hlast as ->.
    simpl in Hskip. rewrite Hx in Hskip.
    assert (skip = 0)%nat as -> by lia. cbn [replaceAll].
    destruct (matchAt prev [x]) as [[| n] |] eqn:E; try done.
    apply matchAt_white in E. simpl in E. rewrite Hx in E. lia.
Qed.

Lemma replaceAll_endsClean rep prev s :
  endsClean s → endsClean (replaceAll matchAt rep 0 prev s).
Proof using matchAt_white.
  rewrite !endsClean_last. destruct (last s) as [x |] eqn:E.
  - intros Hx. rewrite (replaceAll_last rep 0 prev s x E Hx); [done | lia].
  - apply last_None in E as ->. done.
Qed.

End WhiteMatches.

Lemma lastLineFeed_lt run i : lastLineFeed run = Some i → (i < length run)%nat.
Proof.
  revert i. induction run as [| c r IH]; intros i; simpl; [done |].
  destruct (lastLineFeed r) as [j |].
  - intros [= <-]. specialize (IH j eq_refl). lia.
  - destruct (c =? 10); [| done]. intros [= <-]. lia.
Qed.

Lemma blankLines_white prev s n :
  blankLines prev s = Some n → (n ≤ spanLength isWhiteSpace s)%nat.
Proof.
  destruct s as [| c r]; [done |]. unfold blankLines.
  destruct (N.eqb_spec c 10) as [-> | _]; [| done].
  destruct (lastLineFeed _) as [i |] eqn:E; [| done].
  intros [= <-]. apply lastLineFeed_lt in E.
  rewrite length_take in E. cbn [spanLength].
  replace (isWhiteSpace 10) with true by reflexivity. lia.
Qed.

Lemma lineFeedsToSpaces_startsClean s :
  startsClean s → startsClean (lineFeedsToSpaces s).
Proof.
  destruct s as [| c r]; [done |]. simpl. intros Hc.
  destruct (N.eqb_spec c 10) as [-> | _]; done.
Qed.

Lemma lineFeedsToSpaces_endsClean s :
  endsClean s → endsClean (lineFeedsToSpaces s).
Proof.
  unfold endsClean, lineFeedsToSpaces. rewrite <- map_rev.
  apply lineFeedsToSpaces_startsClean.
Qed.

Lemma cleanTranscriptText_shape rawText :
  let t := cleanTranscriptText rawText in
  startsClean t ∧ endsClean t
  ∧ (∀ c, c ∈ t → isWhiteSpace c = true → c = 32)
  ∧ includes [32; 32] t = false.
Proof.
  unfold cleanTranscriptText.
  set (s9 := replaceAll (filler 101 114) [] 0 None _).
  rewrite (collapseWhiteSpace_eq (lineFeedsToSpaces _)).
  split; [| split; [| split]].
  - apply collapse_startsClean, lineFeedsToSpaces_startsClean,
      (replaceAll_startsClean _ blankLines_white), trim_startsClean.
  - apply collapse_endsClean, lineFeedsToSpaces_endsClean,
      (replaceAll_endsClean _ blankLines_white), trim_endsClean.
  - intros c. apply collapse_spaces.
  - apply collapse_no_double.
Qed.

(** *** Pieces of a single-spaced text *)

Lemma rev_nil_inv (cur : jstring) : [] = rev cur → cur = [].
Proof. intros H. by rewrite <- (rev_involutive cur), <- H. Qed.

Lemma splitSpaceAux_no_empty cur s :
  cur ≠ [] ∨ (∃ c r, s = c :: r ∧ c ≠ 32) →
  includes [32; 32] s = false →
  last s ≠ Some 32 →
  [] ∉ splitSpaceAux cur s.
Proof.
  revert cur. induction s as [| c r IH]; intros cur Hcur Hdouble Hlast.
  - simpl. intros H%list_elem_of_singleton%rev_nil_inv.
    destruct Hcur as [Hcur | (? & ? & ? & _)]; done.
  - cbn [includes] in Hdouble.
    apply orb_false_iff in Hdouble as [Hhere Hdouble].
    cbn [splitSpaceAux]. destruct (N.eqb_spec c 32) as [-> | Hc].
    + intros [Hempty%rev_nil_inv | Hin]%elem_of_cons.
      * destruct Hcur as [Hcur | (? & ? & [= <- <-] & ?)]; done.
      * destruct r as [| c' r']; [done |].
        revert Hin. apply IH; [| done | done].
        right. exists c', r'. split; [done |].
        intros ->. cbn [startsWith] in Hhere. done.
    + destruct r as [| c' r'].
      * simpl. intros H%list_elem_of_singleton.
        destruct (rev cur); done.
      * apply IH; [by left | done | done].
Qed.

End Cleaning.

(** X27.  The text that [cleanTranscriptText] returns is normalised,
    whatever it is given: it neither begins nor ends with white space, its
    only white space is the space (no line feed, no tab), and it holds no
    two spaces in a row. *)
Theorem cleanTranscriptText_is_normalised (rawText : jstring) :
  let t := ManualHelper.cleanTranscriptText rawText in
  trim t = t
  ∧ (∀ c, c ∈ t → isWhiteSpace c = true → c = 32)
  ∧ includes (lit "  ") t = false.
Proof.
  intros t. destruct (cleanTranscriptText_shape rawText) as (Hs & He & Hw & Hd).
  split; [by apply clean_trim |]. split; done.
Qed.

(** X28.  For a cleaned transcript that is not empty, the two word counts
    of the helper agree: the number of words that [validateTranscript]
    reports is the [Word Count] that [saveTranscript] writes in the header
    of the file, the number of pieces of [split(' ')]. *)
Theorem cleaned_transcript_word_counts_agree
    (toLowerCase : jstring → jstring)
    (quotientBelowThreeTenths belowThreeTenthsOf : nat → nat → bool)
    (rawText : jstring) :
  let t := ManualHelper.cleanTranscriptText rawText in
  t ≠ [] →
  ManualHelper.wordCount
    (ManualHelper.validateTranscript toLowerCase quotientBelowThreeTenths
       belowThreeTenthsOf t)
  = length (ManualHelper.splitSpace t).
Proof.
  intros t Hne.
  destruct (cleanTranscriptText_shape rawText) as (Hs & He & Hw & Hd).
  fold t in Hs, He, Hw, Hd.
  unfold ManualHelper.validateTranscript. cbn [ManualHelper.wordCount].
  apply words_eq_pieces. unfold ManualHelper.splitSpace.
  apply splitSpaceAux_no_empty; [| done |].
  - right. destruct t as [| c r]; [done |]. exists c, r. split; [done |].
    simpl in Hs. intros ->. done.
  - apply endsClean_last in He. intros Hlast. rewrite Hlast in He. done.
Qed.

(** X28, at a line with a speaker label, a filler and doubled spaces. *)
Lemma cleaned_transcript_word_counts_agree_witness :
  ManualHelper.wordCount
    (ManualHelper.validateTranscript (fun s => s) (fun _ _ => false)
       (fun _ _ => false)
       (ManualHelper.cleanTranscriptText (lit "Speaker: uh hello   world")))
  = length (ManualHelper.splitSpace
              (ManualHelper.cleanTranscriptText (lit "Speaker: uh hello   world"))).
Proof.
  apply (cleaned_transcript_word_counts_agree (fun s => s) (fun _ _ => false)
           (fun _ _ => false) (lit "Speaker: uh hello   world")).
  vm_compute. discriminate.
Defined.
